(** * The NoLossTokenizer event/token codec

    A shallow embedding of [midi_tokenizers/no_loss_tokenizer.py].

    Conventions of the embedding.
    - Python [int]s are [Z]; times ([float]s in the source) are rationals
      [Q] with exact arithmetic.  Every binary float is a rational, halving
      and doubling a float is exact, and comparisons are exact; what the
      model leaves out is the rounding of sums.
    - A vocabulary symbol is a value of the variant [token]; the string it
      stands for is given next to each constructor.  The substring tests of
      the source (["VELOCITY" in token], ["NOTE_ON" in token],
      ["NOTE_OFF" in token], [re.search(".T$", token)]) select exactly one
      constructor each.
    - A Python [dict] is an insertion-ordered association list; a failed
      lookup is [KeyError].
    - Fallible code returns [result]; the two [while] loops of the source
      take fuel and answer [OutOfFuel] when it is exhausted.
    - [tokenize] writes a column into the frame it is given: it returns
      that frame next to its result.
    A copy of the time-delta loops over binary64 numbers, at the end of the
    definitions, serves to trace single calls as Python computes them. *)

From Stdlib Require Import ZArith QArith Qabs Qpower List Bool Lia Lqa Permutation Sorted.
From Stdlib Require Import Floats.
Import ListNotations.
Open Scope Z_scope.

(** ** Errors *)

Inductive error : Set := KeyError | IndexError | ValueError.

Inductive result (A : Type) : Type :=
| Ok (a : A)
| Err (e : error)
| OutOfFuel.
Arguments Ok {A} a.
Arguments Err {A} e.
Arguments OutOfFuel {A}.

Definition bind {A B : Type} (m : result A) (f : A -> result B) : result B :=
  match m with
  | Ok a => f a
  | Err e => Err e
  | OutOfFuel => OutOfFuel
  end.

Notation "x <- m ;; k" := (bind m (fun x => k))
  (at level 61, m at next level, right associativity).

Definition get_or {A : Type} (e : error) (o : option A) : result A :=
  match o with
  | Some a => Ok a
  | None => Err e
  end.

(** ** Symbols *)

Inductive token : Set :=
| CLS                  (* "<CLS>" *)
| NOTE_ON (pitch : Z)  (* f"NOTE_ON_{pitch}" *)
| NOTE_OFF (pitch : Z) (* f"NOTE_OFF_{pitch}" *)
| VELOCITY (bin : Z)   (* f"VELOCITY_{vel}" *)
| TIME (dt_it : Z).    (* f"{dt_it}T" *)

Definition token_eqb (a b : token) : bool :=
  match a, b with
  | CLS, CLS => true
  | NOTE_ON p, NOTE_ON q => p =? q
  | NOTE_OFF p, NOTE_OFF q => p =? q
  | VELOCITY p, VELOCITY q => p =? q
  | TIME p, TIME q => p =? q
  | _, _ => false
  end.

(** ** Dictionaries and ranges *)

Definition dict (K V : Type) : Type := list (K * V).

Fixpoint dict_get {K V : Type} (eqb : K -> K -> bool) (d : dict K V) (k : K)
  : option V :=
  match d with
  | [] => None
  | (k', v) :: d' => if eqb k' k then Some v else dict_get eqb d' k
  end.

(** [range a b] is Python's [range(a, b)]. *)
Definition range (a b : Z) : list Z :=
  map (fun i => a + Z.of_nat i) (seq 0 (Z.to_nat (b - a))).

Definition Qltb (x y : Q) : bool := negb (Qle_bool y x).

(** ** The codec object *)

Record NoLossTokenizer : Type := {
  eps : Q;
  n_velocity_bins : Z;
  specials : list token;
  vocab : list token;
  token_to_velocity_bin : dict token Z;
  velocity_bin_to_token : dict Z token;
  token_to_pitch : dict token Z;
  pitch_to_on_token : dict Z token;
  pitch_to_off_token : dict Z token;
  token_to_dt : dict token Q;
  dt_to_token : dict Q token;
  max_time_value : Q;
  velocity_bin_edges : list Z;
  bin_to_velocity : list Z;
  token_to_id : dict token Z
}.

(** [_time_vocab]: the loop [while dt < 1].  The three accumulators grow
    by one entry per iteration; the keys added are new ([dt_it] increases,
    and [dt] increases whenever the loop can end), so [|=] appends. *)
Fixpoint _time_vocab_loop (fuel : nat) (dt_it : Z) (dt : Q)
  (time_vocab : list token) (token_to_dt : dict token Q)
  (dt_to_token : dict Q token)
  : result (list token * dict token Q * dict Q token) :=
  match fuel with
  | O => OutOfFuel
  | S fuel' =>
      if Qltb dt 1 then
        let time_token := TIME dt_it in
        _time_vocab_loop fuel' (dt_it + 1) (dt * 2)%Q
          (time_vocab ++ [time_token])
          (token_to_dt ++ [(time_token, dt)])
          (dt_to_token ++ [(dt, time_token)])
      else Ok (time_vocab, token_to_dt, dt_to_token)
  end.

Definition _time_vocab (fuel : nat) (eps : Q)
  : result (list token * dict token Q * dict Q token) :=
  _time_vocab_loop fuel 1 eps [] [] [].

(** What [_build_vocab] assigns on [self]. *)
Record Vocab : Type := {
  v_vocab : list token;
  v_token_to_velocity_bin : dict token Z;
  v_velocity_bin_to_token : dict Z token;
  v_token_to_pitch : dict token Z;
  v_pitch_to_on_token : dict Z token;
  v_pitch_to_off_token : dict Z token;
  v_token_to_dt : dict token Q;
  v_dt_to_token : dict Q token;
  v_max_time_value : Q
}.

Definition _build_vocab (fuel : nat) (specials : list token) (eps : Q)
  (n_velocity_bins : Z) : result Vocab :=
  let pitches := range 21 109 in
  let vels := range 0 n_velocity_bins in
  let vocab :=
    specials ++ flat_map (fun pitch => [NOTE_ON pitch; NOTE_OFF pitch]) pitches
             ++ map VELOCITY vels in
  tv <- _time_vocab fuel eps ;;
  let '(time_vocab, token_to_dt, dt_to_token) := tv in
  (* time_vocab[-1] *)
  last_token <- get_or IndexError (last (map Some time_vocab) None) ;;
  max_time_value <- get_or KeyError (dict_get token_eqb token_to_dt last_token) ;;
  Ok {| v_vocab := vocab ++ time_vocab;
        v_token_to_velocity_bin := map (fun vel => (VELOCITY vel, vel)) vels;
        v_velocity_bin_to_token := map (fun vel => (vel, VELOCITY vel)) vels;
        v_token_to_pitch :=
          flat_map (fun pitch => [(NOTE_ON pitch, pitch); (NOTE_OFF pitch, pitch)])
                   pitches;
        v_pitch_to_on_token := map (fun pitch => (pitch, NOTE_ON pitch)) pitches;
        v_pitch_to_off_token := map (fun pitch => (pitch, NOTE_OFF pitch)) pitches;
        v_token_to_dt := token_to_dt;
        v_dt_to_token := dt_to_token;
        v_max_time_value := max_time_value |}.

(** [np.linspace(0, 127, num=num, endpoint=True).astype(int)]: [num]
    samples [127 * i / (num - 1)], truncated; a single sample is the start
    point, and a negative [num] is a [ValueError].  The quotient is taken
    exactly; the binary64 product [i * (127 / (num - 1))] that numpy
    truncates gives the same integers for the sizes in use. *)
Definition linspace_int (num : Z) : result (list Z) :=
  if num <? 0 then Err ValueError
  else if num =? 1 then Ok [0]
  else Ok (map (fun i => (127 * i) / (num - 1)) (range 0 num)).

(** [_build_velocity_decoder]: the truncated midpoint of each pair of
    neighbouring edges. *)
Fixpoint _build_velocity_decoder (velocity_bin_edges : list Z) : list Z :=
  match velocity_bin_edges with
  | e0 :: ((e1 :: _) as rest) =>
      Z.quot (e0 + e1) 2 :: _build_velocity_decoder rest
  | _ => []
  end.

Definition enumerate {A : Type} (l : list A) : list (Z * A) :=
  combine (range 0 (Z.of_nat (length l))) l.

(** [NoLossTokenizer.__init__] *)
Definition __init__ (fuel : nat) (eps : Q) (n_velocity_bins : Z)
  : result NoLossTokenizer :=
  let specials := [CLS] in
  v <- _build_vocab fuel specials eps n_velocity_bins ;;
  velocity_bin_edges <- linspace_int n_velocity_bins ;;
  Ok {| eps := eps;
        n_velocity_bins := n_velocity_bins;
        specials := specials;
        vocab := v_vocab v;
        token_to_velocity_bin := v_token_to_velocity_bin v;
        velocity_bin_to_token := v_velocity_bin_to_token v;
        token_to_pitch := v_token_to_pitch v;
        pitch_to_on_token := v_pitch_to_on_token v;
        pitch_to_off_token := v_pitch_to_off_token v;
        token_to_dt := v_token_to_dt v;
        dt_to_token := v_dt_to_token v;
        max_time_value := v_max_time_value v;
        velocity_bin_edges := velocity_bin_edges;
        bin_to_velocity := _build_velocity_decoder velocity_bin_edges;
        token_to_id := map (fun p => (snd p, fst p)) (enumerate (v_vocab v)) |}.

(** ** Velocity quantizer *)

(** [np.digitize(x, bins)] for non-decreasing [bins]: the index [i] with
    [bins[i-1] <= x < bins[i]], that is the number of edges not above [x]. *)
Definition digitize (x : Z) (bins : list Z) : Z :=
  Z.of_nat (length (filter (fun b => b <=? x) bins)).

(** One cell of the column written by [quantize_frame]. *)
Definition quantize_velocity (self : NoLossTokenizer) (velocity : Z) : Z :=
  digitize velocity (velocity_bin_edges self) - 1.

(** [self.bin_to_velocity[bin]] for a bin read from [token_to_velocity_bin]
    (never negative). *)
Definition list_get {A : Type} (l : list A) (i : Z) : result A :=
  if i <? 0 then Err IndexError
  else get_or IndexError (nth_error l (Z.to_nat i)).

(** ** Time-delta codec *)

(** [tokenize_time_distance]: the loop [while True], with its three local
    variables [time_tokens], [filling_dt] and [current_step]. *)
Fixpoint tokenize_time_distance_loop (self : NoLossTokenizer) (fuel : nat)
  (dt : Q) (time_tokens : list token) (filling_dt current_step : Q)
  : result (list token) :=
  match fuel with
  | O => OutOfFuel
  | S fuel' =>
      if Qltb (Qabs (dt - filling_dt)) (eps self) then
        (* Exit the loop when the gap is filled *)
        Ok time_tokens
      else if Qltb (eps self) (filling_dt + current_step - dt) then
        (* Select time step that will fit into the gap *)
        tokenize_time_distance_loop self fuel' dt time_tokens filling_dt
          (current_step / 2)
      else
        (* Fill the gap with current time token *)
        time_token <- get_or KeyError
                        (dict_get Qeq_bool (dt_to_token self) current_step) ;;
        tokenize_time_distance_loop self fuel' dt (time_tokens ++ [time_token])
          (filling_dt + current_step) current_step
  end.

Definition tokenize_time_distance (self : NoLossTokenizer) (fuel : nat) (dt : Q)
  : result (list token) :=
  tokenize_time_distance_loop self fuel dt [] 0 (max_time_value self).

(** Summation of [token_to_dt] over a run of time symbols, as [untokenize]
    accumulates [current_time]. *)
Fixpoint decode_time_tokens (self : NoLossTokenizer) (current_time : Q)
  (tokens : list token) : result Q :=
  match tokens with
  | [] => Ok current_time
  | token :: rest =>
      dt <- get_or KeyError (dict_get token_eqb (token_to_dt self) token) ;;
      decode_time_tokens self (current_time + dt) rest
  end.

(** ** Note frames and events *)

Record Row : Type := {
  pitch : Z;
  start : Q;
  end_ : Q;
  velocity : Z
}.

(** The caller's [pd.DataFrame]: the four note columns, and the
    [velocity_bin] column once it has been written. *)
Record DataFrame : Type := {
  rows : list Row;
  velocity_bin : option (list Z)
}.

(** [quantize_frame] assigns the column on the frame it is given and
    returns that same frame. *)
Definition quantize_frame (self : NoLossTokenizer) (df : DataFrame) : DataFrame :=
  {| rows := rows df;
     velocity_bin := Some (map (fun r => quantize_velocity self (velocity r))
                               (rows df)) |}.

Inductive event_kind : Set := EV_NOTE_OFF | EV_NOTE_ON.

Record Event : Type := {
  time : Q;
  ev_pitch : Z;
  ev_velocity_bin : Z;
  event : event_kind
}.

(** Python's [sorted(l, key=...)] and pandas' stable [sort_values]: the
    stable sort, here by insertion. *)
Fixpoint insert_by {A K : Type} (leb : K -> K -> bool) (key : A -> K)
  (x : A) (l : list A) : list A :=
  match l with
  | [] => [x]
  | y :: l' =>
      if leb (key x) (key y) then x :: l else y :: insert_by leb key x l'
  end.

Definition sorted {A K : Type} (leb : K -> K -> bool) (key : A -> K)
  (l : list A) : list A :=
  fold_right (insert_by leb key) [] l.

Definition note_on_events (recs : list (Row * Z)) : list Event :=
  map (fun rb => {| time := start (fst rb); ev_pitch := pitch (fst rb);
                    ev_velocity_bin := snd rb; event := EV_NOTE_ON |}) recs.

Definition note_off_events (recs : list (Row * Z)) : list Event :=
  map (fun rb => {| time := end_ (fst rb); ev_pitch := pitch (fst rb);
                    ev_velocity_bin := snd rb; event := EV_NOTE_OFF |}) recs.

Definition _notes_to_events (notes : DataFrame) : result (list Event) :=
  bins <- get_or KeyError (velocity_bin notes) ;;
  let recs := combine (rows notes) bins in
  let note_events := note_off_events recs ++ note_on_events recs in
  Ok (sorted Qle_bool time note_events).

(** ** Event codec: encoding *)

(** The two symbols appended for one event. *)
Definition event_tokens (self : NoLossTokenizer) (current_event : Event)
  : result (list token) :=
  velocity_token <- get_or KeyError
      (dict_get Z.eqb (velocity_bin_to_token self) (ev_velocity_bin current_event)) ;;
  note_token <- get_or KeyError
      (match event current_event with
       | EV_NOTE_ON =>
           dict_get Z.eqb (pitch_to_on_token self) (ev_pitch current_event)
       | EV_NOTE_OFF =>
           dict_get Z.eqb (pitch_to_off_token self) (ev_pitch current_event)
       end) ;;
  Ok [velocity_token; note_token].

(** The loop [for current_event in note_events] of [tokenize]. *)
Fixpoint tokenize_events (self : NoLossTokenizer) (fuel : nat)
  (note_events : list Event) (previous_time : Q) (tokens : list token)
  : result (list token) :=
  match note_events with
  | [] => Ok tokens
  | current_event :: rest =>
      let dt := (time current_event - previous_time)%Q in
      time_tokens <- tokenize_time_distance self fuel dt ;;
      note_tokens <- event_tokens self current_event ;;
      tokenize_events self fuel rest (time current_event)
        (tokens ++ time_tokens ++ note_tokens)
  end.

(** [tokenize]: the first component is the caller's frame after the call. *)
Definition tokenize (self : NoLossTokenizer) (fuel : nat) (notes : DataFrame)
  : DataFrame * result (list token) :=
  let notes := quantize_frame self notes in
  (notes,
   note_events <- _notes_to_events notes ;;
   tokenize_events self fuel note_events 0 []).

(** ** Event codec: repair *)

(** A numpy array indexed by a Python [int]: negative indices count from
    the end, anything else out of range is an [IndexError]. *)
Definition array_index (len i : Z) : result nat :=
  let j := if i <? 0 then i + len else i in
  if (0 <=? j) && (j <? len) then Ok (Z.to_nat j) else Err IndexError.

Definition array_get (a : list Z) (i : Z) : result Z :=
  j <- array_index (Z.of_nat (length a)) i ;;
  get_or IndexError (nth_error a j).

Definition array_set (a : list Z) (i : Z) (v : Z) : result (list Z) :=
  j <- array_index (Z.of_nat (length a)) i ;;
  Ok (firstn j a ++ v :: skipn (S j) a).

(** The variables live across the first loop of [fix_token_sequences]:
    the (rebound) list [tokens], the array [pressed] and
    [current_velocity_token].  The loop itself iterates over the list
    object it was started on, whatever [tokens] is rebound to. *)
Record fix_state : Type := {
  fx_tokens : list token;
  fx_pressed : list Z;
  fx_current_velocity_token : token
}.

Definition fix_step (self : NoLossTokenizer) (st : fix_state) (token : token)
  : result fix_state :=
  match token with
  | VELOCITY _ =>
      Ok {| fx_tokens := fx_tokens st; fx_pressed := fx_pressed st;
            fx_current_velocity_token := token |}
  | NOTE_ON _ =>
      velocity_bin <- get_or KeyError
          (dict_get token_eqb (token_to_velocity_bin self)
                    (fx_current_velocity_token st)) ;;
      pitch <- get_or KeyError (dict_get token_eqb (token_to_pitch self) token) ;;
      pressed <- array_set (fx_pressed st) pitch velocity_bin ;;
      Ok {| fx_tokens := fx_tokens st; fx_pressed := pressed;
            fx_current_velocity_token := fx_current_velocity_token st |}
  | NOTE_OFF _ =>
      pitch <- get_or KeyError (dict_get token_eqb (token_to_pitch self) token) ;;
      state <- array_get (fx_pressed st) pitch ;;
      tokens <- (if state =? -1 then
                   on_token <- get_or KeyError
                       (dict_get Z.eqb (pitch_to_on_token self) pitch) ;;
                   Ok ([fx_current_velocity_token st; on_token] ++ fx_tokens st)
                 else Ok (fx_tokens st)) ;;
      pressed <- array_set (fx_pressed st) pitch (-1) ;;
      Ok {| fx_tokens := tokens; fx_pressed := pressed;
            fx_current_velocity_token := fx_current_velocity_token st |}
  | _ => Ok st
  end.

Fixpoint fix_scan (self : NoLossTokenizer) (st : fix_state) (l : list token)
  : result fix_state :=
  match l with
  | [] => Ok st
  | token :: rest => st' <- fix_step self st token ;; fix_scan self st' rest
  end.

(** The loop [for key, state in enumerate(pressed)]. *)
Fixpoint fix_release (self : NoLossTokenizer) (tokens : list token)
  (keyed : list (Z * Z)) : result (list token) :=
  match keyed with
  | [] => Ok tokens
  | (key, state) :: rest =>
      if 0 <=? state then
        note_off_token <- get_or KeyError
            (dict_get Z.eqb (pitch_to_off_token self) key) ;;
        velocity_token <- get_or KeyError
            (dict_get Z.eqb (velocity_bin_to_token self) state) ;;
        fix_release self (tokens ++ [velocity_token; note_off_token]) rest
      else fix_release self tokens rest
  end.

Definition fix_token_sequences (self : NoLossTokenizer) (tokens : list token)
  : result (list token) :=
  st <- fix_scan self
          {| fx_tokens := tokens; fx_pressed := repeat (-1) 110;
             fx_current_velocity_token := VELOCITY 0 |} tokens ;;
  fix_release self (fx_tokens st) (enumerate (fx_pressed st)).

(** ** Event codec: decoding *)

Record NoteOn : Type := {
  on_pitch : Z;
  on_start : Q;
  on_velocity : Z
}.

Record NoteOff : Type := {
  off_pitch : Z;
  off_end : Q
}.

(** A row of the frame [untokenize] returns; [n_end = None] is the [NaN]
    pandas fills in where the assigned column has no row. *)
Record Note : Type := {
  n_pitch : Z;
  n_start : Q;
  n_velocity : Z;
  n_end : option Q
}.

Record untokenize_state : Type := {
  current_time : Q;
  current_velocity : Z;
  ut_note_on_events : list NoteOn;
  ut_note_off_events : list NoteOff
}.

Definition untokenize_step (self : NoLossTokenizer) (st : untokenize_state)
  (token : token) : result untokenize_state :=
  match token with
  | TIME _ =>
      dt <- get_or KeyError (dict_get token_eqb (token_to_dt self) token) ;;
      Ok {| current_time := current_time st + dt;
            current_velocity := current_velocity st;
            ut_note_on_events := ut_note_on_events st;
            ut_note_off_events := ut_note_off_events st |}
  | VELOCITY _ =>
      current_velocity_bin <- get_or KeyError
          (dict_get token_eqb (token_to_velocity_bin self) token) ;;
      current_velocity <- list_get (bin_to_velocity self) current_velocity_bin ;;
      Ok {| current_time := current_time st;
            current_velocity := current_velocity;
            ut_note_on_events := ut_note_on_events st;
            ut_note_off_events := ut_note_off_events st |}
  | NOTE_ON _ =>
      pitch <- get_or KeyError (dict_get token_eqb (token_to_pitch self) token) ;;
      let note := {| on_pitch := pitch; on_start := current_time st;
                     on_velocity := current_velocity st |} in
      Ok {| current_time := current_time st;
            current_velocity := current_velocity st;
            ut_note_on_events := ut_note_on_events st ++ [note];
            ut_note_off_events := ut_note_off_events st |}
  | NOTE_OFF _ =>
      pitch <- get_or KeyError (dict_get token_eqb (token_to_pitch self) token) ;;
      let note := {| off_pitch := pitch; off_end := current_time st |} in
      Ok {| current_time := current_time st;
            current_velocity := current_velocity st;
            ut_note_on_events := ut_note_on_events st;
            ut_note_off_events := ut_note_off_events st ++ [note] |}
  | CLS => Ok st
  end.

Fixpoint untokenize_scan (self : NoLossTokenizer) (st : untokenize_state)
  (l : list token) : result untokenize_state :=
  match l with
  | [] => Ok st
  | token :: rest =>
      st' <- untokenize_step self st token ;; untokenize_scan self st' rest
  end.

(** [notes = note_on_events; notes["end"] = note_off_events["end"]]: the
    assignment aligns on the row index, so row [i] takes the end of the
    [i]-th release, or [NaN] when there is none. *)
Fixpoint assign_end (note_on_events : list NoteOn)
  (note_off_events : list NoteOff) : list Note :=
  match note_on_events with
  | [] => []
  | on :: ons =>
      {| n_pitch := on_pitch on; n_start := on_start on;
         n_velocity := on_velocity on;
         n_end := option_map off_end (hd_error note_off_events) |}
      :: assign_end ons (tl note_off_events)
  end.

(** [sort_values(by="pitch")] on a frame built from an empty list has no
    such column: a [KeyError]. *)
Definition sort_values {A K : Type} (leb : K -> K -> bool) (key : A -> K)
  (frame : list A) : result (list A) :=
  match frame with
  | [] => Err KeyError
  | _ => Ok (sorted leb key frame)
  end.

(** [untokenize].  The last [sort_values(by="start")] is modelled by the
    stable sort; the statements below that mention its result depend only
    on what any sort by [start] returns on the inputs considered. *)
Definition untokenize (self : NoLossTokenizer) (tokens : list token)
  : result (list Note) :=
  tokens <- fix_token_sequences self tokens ;;
  st <- untokenize_scan self
          {| current_time := 0; current_velocity := 0;
             ut_note_on_events := []; ut_note_off_events := [] |} tokens ;;
  note_on_events <- sort_values Z.leb on_pitch (ut_note_on_events st) ;;
  note_off_events <- sort_values Z.leb off_pitch (ut_note_off_events st) ;;
  let notes := assign_end note_on_events note_off_events in
  sort_values Qle_bool n_start notes.

(** ** Calls and what they write

    The objects a caller can observe after a call: the codec instance, the
    note frame handed to [tokenize] and the token list handed to
    [untokenize]. *)
Record Heap : Type := {
  h_self : NoLossTokenizer;
  h_notes : DataFrame;
  h_tokens : list token
}.

Definition call_tokenize (fuel : nat) (h : Heap)
  : Heap * result (list token) :=
  let '(notes, r) := tokenize (h_self h) fuel (h_notes h) in
  ({| h_self := h_self h; h_notes := notes; h_tokens := h_tokens h |}, r).

Definition call_untokenize (h : Heap) : Heap * result (list Note) :=
  (h, untokenize (h_self h) (h_tokens h)).

(** ** Notions used in the statements *)

(** The entries [(dt_it, dt)] that [n] iterations of the loop of
    [_time_vocab] add, starting from [dt_it] and [dt]. *)
Fixpoint rungs (n : nat) (dt_it : Z) (dt : Q) : list (Z * Q) :=
  match n with
  | O => []
  | S n' => (dt_it, dt) :: rungs n' (dt_it + 1) (dt * 2)%Q
  end.

Definition rung_tokens (l : list (Z * Q)) : list token :=
  map (fun p => TIME (fst p)) l.
Definition rung_token_to_dt (l : list (Z * Q)) : dict token Q :=
  map (fun p => (TIME (fst p), snd p)) l.
Definition rung_dt_to_token (l : list (Z * Q)) : dict Q token :=
  map (fun p => (snd p, TIME (fst p))) l.

(** What a codec that came out of [__init__] looks like. *)
Record built (self : NoLossTokenizer) (K : nat) : Prop := {
  built_ladder : K <> 0%nat;
  built_below_one : Forall (fun p => (snd p < 1)%Q) (rungs K 1 (eps self));
  built_reaches_one : (1 <= eps self * 2 ^ Z.of_nat K)%Q;
  built_vocab :
    vocab self =
    ([CLS] ++ flat_map (fun pitch => [NOTE_ON pitch; NOTE_OFF pitch]) (range 21 109)
           ++ map VELOCITY (range 0 (n_velocity_bins self)))
    ++ rung_tokens (rungs K 1 (eps self));
  built_token_to_dt :
    token_to_dt self = rung_token_to_dt (rungs K 1 (eps self));
  built_dt_to_token :
    dt_to_token self = rung_dt_to_token (rungs K 1 (eps self));
  built_max_time_value :
    dict_get token_eqb (token_to_dt self) (TIME (Z.of_nat K))
    = Some (max_time_value self);
  built_token_to_velocity_bin :
    token_to_velocity_bin self =
    map (fun vel => (VELOCITY vel, vel)) (range 0 (n_velocity_bins self));
  built_velocity_bin_to_token :
    velocity_bin_to_token self =
    map (fun vel => (vel, VELOCITY vel)) (range 0 (n_velocity_bins self));
  built_token_to_pitch :
    token_to_pitch self =
    flat_map (fun pitch => [(NOTE_ON pitch, pitch); (NOTE_OFF pitch, pitch)])
             (range 21 109);
  built_pitch_to_on_token :
    pitch_to_on_token self = map (fun pitch => (pitch, NOTE_ON pitch)) (range 21 109);
  built_pitch_to_off_token :
    pitch_to_off_token self = map (fun pitch => (pitch, NOTE_OFF pitch)) (range 21 109);
  built_edges :
    linspace_int (n_velocity_bins self) = Ok (velocity_bin_edges self);
  built_bin_to_velocity :
    bin_to_velocity self = _build_velocity_decoder (velocity_bin_edges self)
}.

(** A time symbol that is a rung of the ladder of [self]: the [k]-th entry
    of the vocabulary's time block, worth [eps * 2^(k-1)]. *)
Definition is_rung (self : NoLossTokenizer) (t : token) : Prop :=
  exists k d,
    t = TIME k /\ 1 <= k /\ In t (vocab self)
    /\ dict_get token_eqb (token_to_dt self) t = Some d
    /\ (d == eps self * 2 ^ (k - 1))%Q.

(** The state in which the first loop of [fix_token_sequences] starts. *)
Definition fix_init (tokens : list token) : fix_state :=
  {| fx_tokens := tokens; fx_pressed := repeat (-1) 110;
     fx_current_velocity_token := VELOCITY 0 |}.

(** The pairs the second loop of [fix_token_sequences] appends. *)
Definition released_tokens (keyed : list (Z * Z)) : list token :=
  flat_map (fun ks => if 0 <=? snd ks then [VELOCITY (snd ks); NOTE_OFF (fst ks)]
                      else []) keyed.

(** Number of occurrences of a symbol. *)
Definition count_token (t : token) (l : list token) : nat :=
  length (filter (token_eqb t) l).

(** "Drawn from the vocabulary". *)
Definition in_vocab (self : NoLossTokenizer) (tokens : list token) : Prop :=
  Forall (fun t => In t (vocab self)) tokens.

Definition in_vocabb (self : NoLossTokenizer) (tokens : list token) : bool :=
  forallb (fun t => existsb (token_eqb t) (vocab self)) tokens.

(** The array [pressed] holds, per key, [-1] or the bin of a velocity
    symbol, and only the keys of the supported range are ever pressed. *)
Definition pressed_ok (self : NoLossTokenizer) (pressed : list Z) : Prop :=
  length pressed = 110%nat /\
  forall k v, nth_error pressed k = Some v ->
    v = -1 \/ (0 <= v < n_velocity_bins self /\ 21 <= Z.of_nat k < 109).

Definition fix_state_ok (self : NoLossTokenizer) (st : fix_state) : Prop :=
  pressed_ok self (fx_pressed st) /\
  exists b, fx_current_velocity_token st = VELOCITY b
            /\ 0 <= b < n_velocity_bins self.

(** Events that share the time [t]. *)
Definition same_time (t : Q) (e : Event) : bool := Qeq_bool (time e) t.

Definition is_time_token (t : token) : Prop := exists k, t = TIME k.

(** The block of symbols [tokenize] emits for one event: time symbols,
    then the velocity symbol, then the on/off symbol. *)
Definition event_block (self : NoLossTokenizer) (e : Event) (block : list token)
  : Prop :=
  exists time_tokens velocity_token note_token,
    block = time_tokens ++ [velocity_token; note_token]
    /\ Forall is_time_token time_tokens
    /\ event_tokens self e = Ok [velocity_token; note_token].

(** A returned row with its times in lowest terms. *)
Definition note_summary (n : Note) : Z * Q * Z * option Q :=
  (n_pitch n, Qred (n_start n), n_velocity n, option_map Qred (n_end n)).

(** ** Notions used to state the round trip *)

(** A note of the frame with its bin, and one of its two events. *)
Definition tagged_event : Type := ((Row * Z) * event_kind)%type.

Definition to_event (te : tagged_event) : Event :=
  {| time := match snd te with
             | EV_NOTE_ON => start (fst (fst te))
             | EV_NOTE_OFF => end_ (fst (fst te))
             end;
     ev_pitch := pitch (fst (fst te));
     ev_velocity_bin := snd (fst te);
     event := snd te |}.

Definition te_time (te : tagged_event) : Q := time (to_event te).
Definition te_pitch (te : tagged_event) : Z := pitch (fst (fst te)).

Definition press_release (x : Row * Z) : list tagged_event :=
  [(x, EV_NOTE_ON); (x, EV_NOTE_OFF)].

(** The events of [recs], tagged, in the order [_notes_to_events] gives. *)
Definition tagged_events (recs : list (Row * Z)) : list tagged_event :=
  sorted Qle_bool te_time
    (map (fun x => (x, EV_NOTE_OFF)) recs ++ map (fun x => (x, EV_NOTE_ON)) recs).

Definition is_on (te : tagged_event) : bool :=
  match snd te with EV_NOTE_ON => true | EV_NOTE_OFF => false end.
Definition is_off (te : tagged_event) : bool :=
  match snd te with EV_NOTE_ON => false | EV_NOTE_OFF => true end.

(** The on/off symbol of a tagged event. *)
Definition te_note_token (te : tagged_event) : token :=
  match snd te with
  | EV_NOTE_ON => NOTE_ON (te_pitch te)
  | EV_NOTE_OFF => NOTE_OFF (te_pitch te)
  end.

(** The block of symbols for the tagged event [te] that follows an event
    at time [previous_time]; [d] is the decoded duration of its time
    symbols. *)
Definition te_block (self : NoLossTokenizer) (previous_time : Q)
  (te : tagged_event) (block : list token) (d : Q) : Prop :=
  exists time_tokens,
    block = time_tokens ++ [VELOCITY (snd (fst te)); te_note_token te]
    /\ Forall (is_rung self) time_tokens
    /\ decode_time_tokens self 0 time_tokens = Ok d
    /\ (Qabs (te_time te - previous_time - d) < eps self)%Q
    /\ 0 <= snd (fst te) < n_velocity_bins self
    /\ 21 <= te_pitch te < 109.

Inductive blocks_of (self : NoLossTokenizer)
  : Q -> list tagged_event -> list (list token) -> Prop :=
| blocks_of_nil (previous_time : Q) : blocks_of self previous_time [] []
| blocks_of_cons (previous_time : Q) (te : tagged_event)
    (tes : list tagged_event) (block : list token) (blocks : list (list token))
    (d : Q) :
    te_block self previous_time te block d ->
    blocks_of self (te_time te) tes blocks ->
    blocks_of self previous_time (te :: tes) (block :: blocks).

(** What the array [pressed] holds, as a function of the key, and how an
    event changes it. *)
Definition press_step (f : Z -> Z) (te : tagged_event) : Z -> Z :=
  fun k =>
    if k =? te_pitch te then
      match snd te with
      | EV_NOTE_ON => snd (fst te)
      | EV_NOTE_OFF => -1
      end
    else f k.

Definition pressed_after (f : Z -> Z) (l : list tagged_event) : Z -> Z :=
  fold_left press_step l f.

Definition pressed_is (pressed : list Z) (f : Z -> Z) : Prop :=
  length pressed = 110%nat /\
  forall k, (k < 110)%nat -> nth_error pressed k = Some (f (Z.of_nat k)).

(** The velocity a bin decodes to. *)
Definition vel_of (self : NoLossTokenizer) (b : Z) : Z :=
  match list_get (bin_to_velocity self) b with
  | Ok v => v
  | _ => 0
  end.

(** The record [untokenize] appends for a tagged event read at the
    decoded time [snd it]. *)
Definition mk_on (self : NoLossTokenizer) (it : tagged_event * Q) : NoteOn :=
  {| on_pitch := te_pitch (fst it);
     on_start := snd it;
     on_velocity := vel_of self (snd (fst (fst it))) |}.

Definition mk_off (it : tagged_event * Q) : NoteOff :=
  {| off_pitch := te_pitch (fst it); off_end := snd it |}.

Definition it_on (it : tagged_event * Q) : bool := is_on (fst it).
Definition it_off (it : tagged_event * Q) : bool := is_off (fst it).

Definition decodable (self : NoLossTokenizer) (te : tagged_event) : Prop :=
  exists v, list_get (bin_to_velocity self) (snd (fst te)) = Ok v.

Definition it_pitch (it : tagged_event * Q) : Z := te_pitch (fst it).
Definition it_rec (it : tagged_event * Q) : Row * Z := fst (fst it).

(** The row assembled from the record of a press and the record of the
    release paired with it. *)
Definition mk_note (self : NoLossTokenizer)
  (ab : (tagged_event * Q) * (tagged_event * Q)) : Note :=
  {| n_pitch := it_pitch (fst ab);
     n_start := snd (fst ab);
     n_velocity := vel_of self (snd (it_rec (fst ab)));
     n_end := Some (snd (snd ab)) |}.

(** The row [o] reproduces the note [r]: same pitch, start and end within
    [N * eps], and velocity within half the width of the bin of [r]. *)
Definition reproduces (self : NoLossTokenizer) (N : Z) (r : Row) (o : Note)
  : Prop :=
  n_pitch o = pitch r /\
  (Qabs (n_start o - start r) < inject_Z N * eps self)%Q /\
  (exists e', n_end o = Some e'
              /\ (Qabs (e' - end_ r) < inject_Z N * eps self)%Q) /\
  exists lo hi,
    nth_error (velocity_bin_edges self)
              (Z.to_nat (quantize_velocity self (velocity r))) = Some lo
    /\ nth_error (velocity_bin_edges self)
                 (S (Z.to_nat (quantize_velocity self (velocity r)))) = Some hi
    /\ lo <= velocity r < hi
    /\ 2 * Z.abs (n_velocity o - velocity r) <= hi - lo.

(** The elements whose integer key is [p]. *)
Definition with_key {A : Type} (key : A -> Z) (p : Z) (x : A) : bool :=
  key x =? p.

(** ** The time-delta codec in binary64

    The same two loops over IEEE binary64 numbers, the arithmetic Python
    runs them with; used to trace single calls. *)

Fixpoint _time_vocab_loop_b64 (fuel : nat) (dt_it : Z) (dt : PrimFloat.float)
  (time_vocab : list token) (token_to_dt : dict token PrimFloat.float)
  (dt_to_token : dict PrimFloat.float token)
  : result (list token * dict token PrimFloat.float * dict PrimFloat.float token) :=
  match fuel with
  | O => OutOfFuel
  | S fuel' =>
      if PrimFloat.ltb dt 1%float then
        let time_token := TIME dt_it in
        _time_vocab_loop_b64 fuel' (dt_it + 1) (PrimFloat.mul dt 2%float)
          (time_vocab ++ [time_token])
          (token_to_dt ++ [(time_token, dt)])
          (dt_to_token ++ [(dt, time_token)])
      else Ok (time_vocab, token_to_dt, dt_to_token)
  end.

Fixpoint tokenize_time_distance_loop_b64 (eps : PrimFloat.float)
  (dt_to_token : dict PrimFloat.float token) (fuel : nat)
  (dt : PrimFloat.float) (time_tokens : list token)
  (filling_dt current_step : PrimFloat.float) : result (list token) :=
  match fuel with
  | O => OutOfFuel
  | S fuel' =>
      if PrimFloat.ltb (PrimFloat.abs (PrimFloat.sub dt filling_dt)) eps then
        Ok time_tokens
      else if PrimFloat.ltb eps
                (PrimFloat.sub (PrimFloat.add filling_dt current_step) dt) then
        tokenize_time_distance_loop_b64 eps dt_to_token fuel' dt time_tokens
          filling_dt (PrimFloat.div current_step 2%float)
      else
        time_token <- get_or KeyError
                        (dict_get PrimFloat.eqb dt_to_token current_step) ;;
        tokenize_time_distance_loop_b64 eps dt_to_token fuel' dt
          (time_tokens ++ [time_token])
          (PrimFloat.add filling_dt current_step) current_step
  end.

(** [tokenize_time_distance(dt)] on the codec built from [eps]. *)
Definition tokenize_time_distance_b64 (fuel : nat) (eps dt : PrimFloat.float)
  : result (list token) :=
  tv <- _time_vocab_loop_b64 fuel 1 eps [] [] [] ;;
  let '(time_vocab, token_to_dt, dt_to_token) := tv in
  last_token <- get_or IndexError (last (map Some time_vocab) None) ;;
  max_time_value <- get_or KeyError (dict_get token_eqb token_to_dt last_token) ;;
  tokenize_time_distance_loop_b64 eps dt_to_token fuel dt [] 0%float
    max_time_value.

(** ** Properties of the object and the factory *)

(** The property [vocab_size]. *)
Definition vocab_size (self : NoLossTokenizer) : Z :=
  Z.of_nat (length (vocab self)).

(** The dict [{"eps": ..., "n_velocity_bins": ...}] that the property
    [parameters] returns and that the factory takes. *)
Record Parameters : Type := {
  p_eps : Q;
  p_n_velocity_bins : Z
}.

Definition parameters (self : NoLossTokenizer) : Parameters :=
  {| p_eps := eps self; p_n_velocity_bins := n_velocity_bins self |}.

(** [NoLossTokenizerFactory.create_tokenizer] of [tokenizer_generator.py]:
    the constructor called with the entries of the dict as its keyword
    arguments. *)
Definition create_tokenizer (fuel : nat) (parameters : Parameters)
  : result NoLossTokenizer :=
  __init__ fuel (p_eps parameters) (p_n_velocity_bins parameters).

(** ** Notions used in the further statements *)

(** What the vocabulary of a codec with [n] velocity bins and [K] time
    symbols holds. *)
Definition vocab_member (n K : Z) (t : token) : Prop :=
  match t with
  | CLS => True
  | NOTE_ON p | NOTE_OFF p => 21 <= p < 109
  | VELOCITY b => 0 <= b < n
  | TIME k => 1 <= k <= K
  end.

(** A run of pairs: a velocity symbol, then the press (or the release)
    symbol [note p] of a key. *)
Inductive pairs_of (note : Z -> token) : list token -> Prop :=
| pairs_of_nil : pairs_of note []
| pairs_of_cons (b p : Z) (l : list token) :
    pairs_of note l -> pairs_of note (VELOCITY b :: note p :: l).

(** The value of [current_velocity_token] after the first loop of
    [fix_token_sequences] has read [l]: the last velocity symbol of [l],
    or the value before [l] when it has none. *)
Definition last_velocity_token (current_velocity_token : token) (l : list token)
  : token :=
  fold_left (fun cv t => match t with VELOCITY _ => t | _ => cv end)
            l current_velocity_token.

(** The times at which the notes of a frame start and end. *)
Definition event_times (notes : DataFrame) : list Q :=
  map start (rows notes) ++ map end_ (rows notes).

Definition is_note_on (t : token) : bool :=
  match t with NOTE_ON _ => true | _ => false end.

Definition is_note_off (t : token) : bool :=
  match t with NOTE_OFF _ => true | _ => false end.

(** The row [o] is the note [r]: its key, its start and its end, with the
    velocity that the bin of [r] decodes to, which with 128 bins is the
    velocity of [r]. *)
Definition reproduces_exactly (self : NoLossTokenizer) (r : Row) (o : Note)
  : Prop :=
  n_pitch o = pitch r /\
  (n_start o == start r)%Q /\
  (exists e', n_end o = Some e' /\ (e' == end_ r)%Q) /\
  list_get (bin_to_velocity self) (quantize_velocity self (velocity r))
  = Ok (n_velocity o) /\
  (n_velocity_bins self = 128 -> n_velocity o = velocity r).

(** * Properties *)

(** ** Basic facts *)

Lemma Qltb_true (x y : Q) : Qltb x y = true <-> (x < y)%Q.
Proof.
  unfold Qltb. rewrite negb_true_iff. split; intros H.
  - apply Qnot_le_lt. intros Hle. apply Qle_bool_iff in Hle. congruence.
  - destruct (Qle_bool y x) eqn:E; [|reflexivity].
    apply Qle_bool_iff in E. exfalso. exact (Qlt_not_le _ _ H E).
Qed.

Lemma Qltb_false (x y : Q) : Qltb x y = false <-> (y <= x)%Q.
Proof.
  unfold Qltb. rewrite negb_false_iff. apply Qle_bool_iff.
Qed.

Lemma token_eqb_eq (a b : token) : token_eqb a b = true <-> a = b.
Proof.
  destruct a, b; simpl; try (split; [discriminate | congruence]);
    try (split; reflexivity);
    rewrite Z.eqb_eq; split; congruence.
Qed.

Lemma token_eqb_refl (a : token) : token_eqb a a = true.
Proof. apply token_eqb_eq. reflexivity. Qed.

Lemma range_nil (a b : Z) : b <= a -> range a b = [].
Proof.
  intros H. unfold range. replace (Z.to_nat (b - a)) with 0%nat by lia.
  reflexivity.
Qed.

Lemma range_cons (a b : Z) : a < b -> range a b = a :: range (a + 1) b.
Proof.
  intros H. unfold range.
  replace (Z.to_nat (b - a)) with (S (Z.to_nat (b - (a + 1)))) by lia.
  simpl. rewrite Z.add_0_r. f_equal.
  rewrite <- seq_shift, map_map. apply map_ext. intros i. lia.
Qed.

Lemma range_ind (P : Z -> Z -> Prop) :
  (forall a b, b <= a -> P a b) ->
  (forall a b, a < b -> P (a + 1) b -> P a b) ->
  forall a b, P a b.
Proof.
  intros Hnil Hcons a b.
  remember (Z.to_nat (b - a)) as n eqn:En. revert a En.
  induction n as [|n IH]; intros a En.
  - apply Hnil. lia.
  - apply Hcons; [lia|]. apply IH. lia.
Qed.

Lemma in_range (a b k : Z) : In k (range a b) <-> a <= k < b.
Proof.
  revert k. pattern a, b. apply range_ind; clear a b; intros a b H.
  - intros k. rewrite range_nil by lia. simpl. lia.
  - intros IH k. rewrite range_cons by lia. simpl. rewrite IH. lia.
Qed.

Lemma length_range (a b : Z) : length (range a b) = Z.to_nat (b - a).
Proof. unfold range. rewrite length_map, length_seq. reflexivity. Qed.

(** Lookups in the tables that [_build_vocab] fills by a loop over a range. *)

Lemma dict_get_range (V : Type) (f : Z -> V) (a b k : Z) :
  dict_get Z.eqb (map (fun i => (i, f i)) (range a b)) k =
  if (a <=? k) && (k <? b) then Some (f k) else None.
Proof.
  pattern a, b. apply range_ind; clear a b; intros a b H.
  - rewrite range_nil by lia. simpl.
    destruct (a <=? k) eqn:E1, (k <? b) eqn:E2; simpl; try reflexivity. lia.
  - intros IH. rewrite range_cons by lia. simpl. rewrite IH.
    destruct (a =? k) eqn:E.
    + apply Z.eqb_eq in E. subst k.
      replace (a <=? a) with true by lia. replace (a <? b) with true by lia.
      reflexivity.
    + apply Z.eqb_neq in E.
      destruct (a + 1 <=? k) eqn:E1, (a <=? k) eqn:E2; simpl; try reflexivity; lia.
Qed.

Lemma dict_get_velocity_tokens (a b : Z) (t : token) :
  dict_get token_eqb (map (fun vel => (VELOCITY vel, vel)) (range a b)) t =
  match t with
  | VELOCITY k => if (a <=? k) && (k <? b) then Some k else None
  | _ => None
  end.
Proof.
  pattern a, b. apply range_ind; clear a b; intros a b H.
  - rewrite range_nil by lia. simpl. destruct t; try reflexivity.
    destruct (a <=? bin) eqn:E1, (bin <? b) eqn:E2; simpl; try reflexivity. lia.
  - intros IH. rewrite range_cons by lia. simpl. rewrite IH.
    destruct t; simpl; try reflexivity.
    destruct (a =? bin) eqn:E.
    + apply Z.eqb_eq in E. subst bin.
      replace (a <=? a) with true by lia. replace (a <? b) with true by lia.
      reflexivity.
    + apply Z.eqb_neq in E.
      destruct (a + 1 <=? bin) eqn:E1, (a <=? bin) eqn:E2; simpl; try reflexivity; lia.
Qed.

Lemma dict_get_pitch_tokens (a b : Z) (t : token) :
  dict_get token_eqb
    (flat_map (fun pitch => [(NOTE_ON pitch, pitch); (NOTE_OFF pitch, pitch)])
              (range a b)) t =
  match t with
  | NOTE_ON k | NOTE_OFF k => if (a <=? k) && (k <? b) then Some k else None
  | _ => None
  end.
Proof.
  pattern a, b. apply range_ind; clear a b; intros a b H.
  - rewrite range_nil by lia. simpl. destruct t; try reflexivity;
      destruct (a <=? pitch0) eqn:E1, (pitch0 <? b) eqn:E2; simpl; try reflexivity; lia.
  - intros IH. rewrite range_cons by lia. simpl. rewrite IH.
    destruct t; simpl; try reflexivity;
      (destruct (a =? pitch0) eqn:E;
       [ apply Z.eqb_eq in E; subst pitch0;
         replace (a <=? a) with true by lia; replace (a <? b) with true by lia;
         reflexivity
       | apply Z.eqb_neq in E;
         destruct (a + 1 <=? pitch0) eqn:E1, (a <=? pitch0) eqn:E2; simpl;
         try reflexivity; lia ]).
Qed.

(** ** The time-step ladder *)


Lemma pow2_pos (m : Z) : (0 < 2 ^ m)%Q.
Proof. apply Qpower_0_lt. reflexivity. Qed.

Lemma pow2_succ (m : Z) : 0 <= m -> (2 ^ (m + 1) == 2 ^ m * 2)%Q.
Proof.
  intros H. rewrite Qpower_plus by discriminate. reflexivity.
Qed.

Lemma _time_vocab_loop_rungs (fuel : nat) :
  forall it dt tv t2d d2t r,
    _time_vocab_loop fuel it dt tv t2d d2t = Ok r ->
    exists n,
      r = (tv ++ rung_tokens (rungs n it dt),
           t2d ++ rung_token_to_dt (rungs n it dt),
           d2t ++ rung_dt_to_token (rungs n it dt))
      /\ Forall (fun p => (snd p < 1)%Q) (rungs n it dt)
      /\ ((dt < 1)%Q -> n <> 0%nat)
      /\ (1 <= dt * 2 ^ Z.of_nat n)%Q.
Proof.
  induction fuel as [|fuel IH]; intros it dt tv t2d d2t r H; simpl in H.
  - discriminate.
  - destruct (Qltb dt 1) eqn:E.
    + apply IH in H. destruct H as (n & -> & Hall & _ & Hone).
      exists (S n). unfold rung_tokens, rung_token_to_dt, rung_dt_to_token.
      cbn [rungs map]. rewrite <- !app_assoc. cbn [app].
      split; [reflexivity|]. split; [|split].
      * constructor; [apply Qltb_true; exact E | exact Hall].
      * discriminate.
      * rewrite Nat2Z.inj_succ. unfold Z.succ. rewrite pow2_succ by lia.
        rewrite <- Qmult_assoc, (Qmult_comm 2) in Hone. exact Hone.
    + inversion H; subst r. exists 0%nat. cbn [rungs]. 
      unfold rung_tokens, rung_token_to_dt, rung_dt_to_token. cbn [map].
      rewrite !app_nil_r.
      split; [reflexivity|]. split; [|split].
      * constructor.
      * intros Hlt. apply Qltb_false in E. exfalso. exact (Qlt_not_le _ _ Hlt E).
      * apply Qltb_false in E. cbn [Z.of_nat Qpower]. rewrite Qmult_1_r. exact E.
Qed.

Lemma _time_vocab_loop_terminates (n : nat) :
  forall it dt tv t2d d2t,
    (1 <= dt * 2 ^ Z.of_nat n)%Q ->
    exists r, _time_vocab_loop (S n) it dt tv t2d d2t = Ok r.
Proof.
  induction n as [|n IH]; intros it dt tv t2d d2t H.
  - simpl in H. rewrite Qmult_1_r in H. simpl.
    apply Qltb_false in H. rewrite H. eexists; reflexivity.
  - cbn [_time_vocab_loop]. destruct (Qltb dt 1) eqn:E.
    + apply IH. rewrite Nat2Z.inj_succ in H. unfold Z.succ in H.
      rewrite pow2_succ in H by lia.
      rewrite <- Qmult_assoc, (Qmult_comm 2). exact H.
    + eexists; reflexivity.
Qed.

(** More fuel never changes an answer already reached. *)
Lemma _time_vocab_loop_fuel (fuel : nat) :
  forall it dt tv t2d d2t r,
    _time_vocab_loop fuel it dt tv t2d d2t = Ok r ->
    forall fuel', (fuel <= fuel')%nat ->
    _time_vocab_loop fuel' it dt tv t2d d2t = Ok r.
Proof.
  induction fuel as [|fuel IH]; intros it dt tv t2d d2t r H fuel' Hle.
  - discriminate.
  - destruct fuel' as [|fuel']; [lia|]. simpl in *.
    destruct (Qltb dt 1); [|exact H]. apply IH with (fuel' := fuel') in H; [exact H | lia].
Qed.

(** Some power of two lifts any positive rational to at least one. *)
Lemma pow2_reaches_one (x : Q) : (0 < x)%Q -> (1 <= x * 2 ^ Z.pos (Qden x))%Q.
Proof.
  destruct x as [a b]. unfold Qlt. simpl. intros Ha.
  assert (Hb : (Z.pos b < 2 ^ Z.pos b)%Z) by (apply Z.pow_gt_lin_r; lia).
  assert (Hq : (2 ^ Z.pos b == inject_Z (2 ^ Z.pos b))%Q).
  { change 2%Q with (inject_Z 2). rewrite <- Zpower_Qpower by lia. reflexivity. }
  rewrite Hq. unfold Qle, Qmult, inject_Z. simpl. nia.
Qed.

Lemma _time_vocab_total (eps0 : Q) :
  (0 < eps0)%Q -> exists fuel r, _time_vocab fuel eps0 = Ok r.
Proof.
  intros H. exists (S (Pos.to_nat (Qden eps0))).
  apply _time_vocab_loop_terminates.
  rewrite positive_nat_Z. apply pow2_reaches_one. exact H.
Qed.

(** Lookups in the two time tables. *)

Lemma rung_token_to_dt_get (n : nat) :
  forall it dt k,
    it <= k < it + Z.of_nat n ->
    exists d, dict_get token_eqb (rung_token_to_dt (rungs n it dt)) (TIME k) = Some d
              /\ (d == dt * 2 ^ (k - it))%Q.
Proof.
  induction n as [|n IH]; intros it dt k Hk; [lia|].
  simpl. destruct (it =? k) eqn:E.
  - apply Z.eqb_eq in E. subst k. exists dt. split; [reflexivity|].
    rewrite Z.sub_diag. simpl. rewrite Qmult_1_r. reflexivity.
  - apply Z.eqb_neq in E.
    destruct (IH (it + 1) (dt * 2)%Q k) as (d & Hd & Hv); [lia|].
    exists d. split; [exact Hd|]. rewrite Hv.
    replace (k - it) with (k - (it + 1) + 1) by lia.
    rewrite pow2_succ by lia. ring.
Qed.

Lemma rung_dt_to_token_get (n : nat) :
  forall it dt step tok,
    dict_get Qeq_bool (rung_dt_to_token (rungs n it dt)) step = Some tok ->
    exists k d,
      tok = TIME k /\ it <= k < it + Z.of_nat n
      /\ dict_get token_eqb (rung_token_to_dt (rungs n it dt)) tok = Some d
      /\ (d == step)%Q /\ (d == dt * 2 ^ (k - it))%Q.
Proof.
  induction n as [|n IH]; intros it dt step tok H; simpl in H; [discriminate|].
  destruct (Qeq_bool dt step) eqn:E.
  - inversion H; subst tok. exists it, dt. simpl. rewrite Z.eqb_refl.
    repeat split; try lia.
    + apply Qeq_bool_iff. exact E.
    + rewrite Z.sub_diag. simpl. rewrite Qmult_1_r. reflexivity.
  - apply IH in H. destruct H as (k & d & -> & Hk & Hd & Hs & Hv).
    exists k, d. simpl. replace (it =? k) with false by lia.
    repeat split; try lia; try assumption.
    rewrite Hv. replace (k - it) with (k - (it + 1) + 1) by lia.
    rewrite pow2_succ by lia. ring.
Qed.

Lemma last_rung_tokens (n : nat) :
  forall it dt,
    last (map Some (rung_tokens (rungs (S n) it dt))) None
    = Some (TIME (it + Z.of_nat n)).
Proof.
  induction n as [|n IH]; intros it dt.
  - simpl. rewrite Z.add_0_r. reflexivity.
  - change (rungs (S (S n)) it dt)
      with ((it, dt) :: rungs (S n) (it + 1) (dt * 2)%Q).
    specialize (IH (it + 1) (dt * 2)%Q).
    replace (it + Z.of_nat (S n)) with (it + 1 + Z.of_nat n) by lia.
    rewrite <- IH. reflexivity.
Qed.

(** ** Construction *)

Ltac inv_bind H :=
  match type of H with
  | bind ?m _ = _ =>
      let E := fresh "E" in
      destruct m eqn:E; cbn [bind] in H; try discriminate H
  end.


Lemma init_built (fuel : nat) (e : Q) (n : Z) (self : NoLossTokenizer) :
  __init__ fuel e n = Ok self ->
  eps self = e /\ n_velocity_bins self = n /\ exists K, built self K.
Proof.
  unfold __init__, _build_vocab, _time_vocab. intros H.
  destruct (_time_vocab_loop fuel 1 e [] [] []) as [[[tv t2d] d2t]| |] eqn:E;
    cbn [bind] in H; try discriminate H.
  apply _time_vocab_loop_rungs in E. destruct E as (K & E & Hall & _ & Hone).
  cbn [app] in E. inversion E; subst tv t2d d2t; clear E.
  destruct K as [|K]; [cbn in H; discriminate H|].
  rewrite last_rung_tokens in H. cbn [get_or bind] in H.
  inv_bind H. inv_bind H. inversion H; subst self; clear H.
  destruct (dict_get token_eqb (rung_token_to_dt (rungs (S K) 1 e))
              (TIME (1 + Z.of_nat K))) eqn:Eg; cbn [get_or] in E; [|discriminate E].
  inversion E; subst a; clear E.
  split; [reflexivity|]. split; [reflexivity|]. exists (S K).
  constructor; cbn [eps n_velocity_bins specials vocab token_to_velocity_bin velocity_bin_to_token token_to_pitch pitch_to_on_token pitch_to_off_token token_to_dt dt_to_token max_time_value velocity_bin_edges bin_to_velocity token_to_id v_vocab v_token_to_velocity_bin v_velocity_bin_to_token v_token_to_pitch v_pitch_to_on_token v_pitch_to_off_token v_token_to_dt v_dt_to_token v_max_time_value]; try reflexivity; try assumption; try discriminate.
  replace (Z.of_nat (S K)) with (1 + Z.of_nat K) by lia.
  exact Eg.
Qed.

Lemma _build_vocab_total (e : Q) (n : Z) :
  (0 < e)%Q -> (e < 1)%Q ->
  exists fuel v, _build_vocab fuel [CLS] e n = Ok v.
Proof.
  intros Hpos Hlt. destruct (_time_vocab_total e Hpos) as (fuel & r & Hr).
  exists fuel. unfold _build_vocab. rewrite Hr. cbn [bind].
  unfold _time_vocab in Hr. apply _time_vocab_loop_rungs in Hr.
  destruct Hr as (K & -> & _ & HK & _). cbn [app].
  destruct K as [|K]; [exfalso; apply HK; [exact Hlt | reflexivity]|].
  rewrite last_rung_tokens. cbn [get_or bind].
  destruct (rung_token_to_dt_get (S K) 1 e (1 + Z.of_nat K)) as (d & Hd & _); [lia|].
  rewrite Hd. cbn [get_or bind]. eexists; reflexivity.
Qed.

Lemma _build_vocab_empty_ladder (fuel : nat) (e : Q) (n : Z) :
  (1 <= e)%Q -> _build_vocab (S fuel) [CLS] e n = Err IndexError.
Proof.
  intros H. unfold _build_vocab, _time_vocab. cbn [_time_vocab_loop].
  apply Qltb_false in H. rewrite H. reflexivity.
Qed.

(** A ladder that starts at or below zero never reaches one: the loop of
    [_time_vocab] does not end. *)
Lemma _time_vocab_loop_diverges (fuel : nat) :
  forall it dt tv t2d d2t,
    (dt <= 0)%Q -> _time_vocab_loop fuel it dt tv t2d d2t = OutOfFuel.
Proof.
  induction fuel as [|fuel IH]; intros it dt tv t2d d2t H; [reflexivity|].
  cbn [_time_vocab_loop].
  assert (Hlt : Qltb dt 1 = true) by (apply Qltb_true; lra).
  rewrite Hlt. apply IH. lra.
Qed.

Lemma init_nonpositive_eps_diverges (fuel : nat) (e : Q) (n : Z) :
  (e <= 0)%Q -> __init__ fuel e n = OutOfFuel.
Proof.
  intros H. unfold __init__, _build_vocab, _time_vocab.
  rewrite _time_vocab_loop_diverges by exact H. reflexivity.
Qed.

(** C8 (as amended): [__init__] validates nothing.  It raises (the lookup
    [time_vocab[-1]] on an empty ladder) whenever [eps >= 1], and (in
    [np.linspace]) when [eps] is in (0,1) and [n_velocity_bins < 0]; no
    codec is returned then.  For [eps] in (0,1) and [n_velocity_bins >= 0],
    zero included, it returns a codec with these parameters. *)
Theorem construction_outcomes (e : Q) (n : Z) :
  ((1 <= e)%Q -> forall fuel, __init__ (S fuel) e n = Err IndexError) /\
  ((0 < e)%Q -> (e < 1)%Q -> n < 0 ->
   exists fuel, __init__ fuel e n = Err ValueError) /\
  ((0 < e)%Q -> (e < 1)%Q -> 0 <= n ->
   exists fuel self,
     __init__ fuel e n = Ok self /\ eps self = e /\ n_velocity_bins self = n).
Proof.
  split; [|split].
  - intros H fuel. unfold __init__.
    rewrite _build_vocab_empty_ladder by exact H. reflexivity.
  - intros Hpos Hlt Hn.
    destruct (_build_vocab_total e n Hpos Hlt) as (fuel & v & Hv).
    exists fuel. unfold __init__. rewrite Hv. cbn [bind].
    unfold linspace_int. replace (n <? 0) with true by lia. reflexivity.
  - intros Hpos Hlt Hn.
    destruct (_build_vocab_total e n Hpos Hlt) as (fuel & v & Hv).
    exists fuel. unfold __init__. rewrite Hv. cbn [bind].
    assert (Hl : exists edges, linspace_int n = Ok edges).
    { unfold linspace_int. replace (n <? 0) with false by lia.
      destruct (n =? 1); eexists; reflexivity. }
    destruct Hl as (edges & ->). cbn [bind].
    eexists. split; [reflexivity|]. split; reflexivity.
Qed.

Lemma construction_outcomes_witness :
  __init__ 1 1 4 = Err IndexError /\
  (exists fuel, __init__ fuel (1 # 4) (-1) = Err ValueError) /\
  (exists fuel self,
     __init__ fuel (1 # 4) 4 = Ok self /\ eps self = 1 # 4
     /\ n_velocity_bins self = 4).
Proof.
  split; [|split].
  - apply (proj1 (construction_outcomes 1 4)). discriminate.
  - apply (proj1 (proj2 (construction_outcomes (1 # 4) (-1)))); reflexivity.
  - apply (proj2 (proj2 (construction_outcomes (1 # 4) 4)));
      [reflexivity | reflexivity | discriminate].
Defined.

(** C8, as stated, fails: with [n_velocity_bins = 0] (which is below one)
    construction succeeds and returns a codec without velocity symbols. *)
Lemma construction_accepts_zero_bins :
  0 < 1 /\
  exists self,
    __init__ 3 (1 # 4) 0 = Ok self /\ n_velocity_bins self = 0
    /\ token_to_velocity_bin self = [] /\ bin_to_velocity self = [].
Proof.
  split; [lia|]. eexists. split; [vm_compute; reflexivity|].
  repeat split.
Qed.

(** ** The time-delta codec *)

Lemma tokenize_time_distance_loop_eq (self : NoLossTokenizer) (fuel : nat)
  (dt : Q) (time_tokens : list token) (filling_dt current_step : Q) :
  tokenize_time_distance_loop self (S fuel) dt time_tokens filling_dt current_step =
  if Qltb (Qabs (dt - filling_dt)) (eps self) then Ok time_tokens
  else if Qltb (eps self) (filling_dt + current_step - dt) then
    tokenize_time_distance_loop self fuel dt time_tokens filling_dt
      (current_step / 2)
  else
    time_token <- get_or KeyError
                    (dict_get Qeq_bool (dt_to_token self) current_step) ;;
    tokenize_time_distance_loop self fuel dt (time_tokens ++ [time_token])
      (filling_dt + current_step) current_step.
Proof. reflexivity. Qed.

Lemma decode_time_tokens_app (self : NoLossTokenizer) (l1 l2 : list token) :
  forall t0,
    decode_time_tokens self t0 (l1 ++ l2) =
    (t1 <- decode_time_tokens self t0 l1 ;; decode_time_tokens self t1 l2).
Proof.
  induction l1 as [|t l1 IH]; intros t0; simpl; [reflexivity|].
  destruct (get_or KeyError (dict_get token_eqb (token_to_dt self) t));
    cbn [bind]; [apply IH | reflexivity | reflexivity].
Qed.

Lemma in_rung_tokens (n : nat) :
  forall it dt k, it <= k < it + Z.of_nat n -> In (TIME k) (rung_tokens (rungs n it dt)).
Proof.
  induction n as [|n IH]; intros it dt k Hk; [lia|].
  simpl. destruct (Z.eq_dec it k) as [->|Hne]; [left; reflexivity|].
  right. apply IH. lia.
Qed.


Section TimeDistance.

Variable self : NoLossTokenizer.
Variable K : nat.
Hypothesis Hbuilt : built self K.

Lemma dt_to_token_is_rung (step : Q) (tok : token) :
  dict_get Qeq_bool (dt_to_token self) step = Some tok ->
  is_rung self tok /\
  exists d, dict_get token_eqb (token_to_dt self) tok = Some d /\ (d == step)%Q.
Proof.
  rewrite (built_dt_to_token _ _ Hbuilt). intros H.
  apply rung_dt_to_token_get in H.
  destruct H as (k & d & -> & Hk & Hd & Hs & Hv).
  rewrite <- (built_token_to_dt _ _ Hbuilt) in Hd.
  split; [|exists d; split; assumption].
  exists k, d. repeat split; try assumption; try lia.
  rewrite (built_vocab _ _ Hbuilt). apply in_or_app. right.
  apply in_rung_tokens. lia.
Qed.

(** The loop invariant: [filling_dt] is the decoded sum of the symbols
    emitted so far, all of which are rungs. *)
Lemma tokenize_time_distance_loop_sound (dt : Q) (fuel : nat) :
  forall time_tokens filling_dt current_step out s,
    tokenize_time_distance_loop self fuel dt time_tokens filling_dt current_step
    = Ok out ->
    Forall (is_rung self) time_tokens ->
    decode_time_tokens self 0 time_tokens = Ok s -> (s == filling_dt)%Q ->
    Forall (is_rung self) out /\
    exists total,
      decode_time_tokens self 0 out = Ok total
      /\ (Qabs (dt - total) < eps self)%Q.
Proof.
  induction fuel as [|fuel IH]; intros toks filled step out s H Hall Hs Heq.
  - discriminate H.
  - rewrite tokenize_time_distance_loop_eq in H.
    destruct (Qltb (Qabs (dt - filled)) (eps self)) eqn:Eexit.
    + inversion H; subst out. split; [exact Hall|].
      exists s. split; [exact Hs|]. apply Qltb_true in Eexit.
      rewrite Heq. exact Eexit.
    + destruct (Qltb (eps self) (filled + step - dt)) eqn:Eover.
      * eapply IH; eassumption.
      * inv_bind H.
        destruct (dict_get Qeq_bool (dt_to_token self) step) as [tok|] eqn:Eg;
          cbn [get_or] in E; [|discriminate E].
        inversion E; subst a; clear E.
        destruct (dt_to_token_is_rung _ _ Eg) as (Hr & d & Hd & Hds).
        eapply (IH _ _ _ _ (s + d)%Q H).
        -- apply Forall_app. split; [exact Hall|]. constructor; [exact Hr|constructor].
        -- rewrite decode_time_tokens_app, Hs. cbn [bind decode_time_tokens].
           rewrite Hd. reflexivity.
        -- rewrite Heq, Hds. reflexivity.
Qed.

End TimeDistance.



(** Once the running total sits exactly [eps] above the gap, the exit test
    [abs(dt - filling_dt) < eps] fails, the overshoot test holds for every
    positive step, and the loop only halves the step from then on. *)
Lemma tokenize_time_distance_loop_stuck (self : NoLossTokenizer) (dt : Q)
  (fuel : nat) :
  forall time_tokens filling_dt current_step,
    (filling_dt - dt == eps self)%Q -> (0 < current_step)%Q ->
    tokenize_time_distance_loop self fuel dt time_tokens filling_dt current_step
    = OutOfFuel.
Proof.
  induction fuel as [|fuel IH]; intros toks filled step Heq Hpos; [reflexivity|].
  rewrite tokenize_time_distance_loop_eq.
  assert (Hexit : Qltb (Qabs (dt - filled)) (eps self) = false).
  { apply Qltb_false. rewrite <- Heq.
    setoid_replace (dt - filled)%Q with (- (filled - dt))%Q by ring.
    rewrite Qabs_opp. apply Qle_Qabs. }
  assert (Hover : Qltb (eps self) (filled + step - dt) = true).
  { apply Qltb_true. rewrite <- Heq. lra. }
  rewrite Hexit, Hover. apply IH; [exact Heq|].
  apply Qlt_shift_div_l; lra.
Qed.

Lemma dict_get_Qeq (V : Type) (d : dict Q V) (k k' : Q) :
  (k == k')%Q -> dict_get Qeq_bool d k = dict_get Qeq_bool d k'.
Proof.
  intros H. induction d as [|[q v] d IH]; [reflexivity|].
  cbn [dict_get]. rewrite IH.
  assert (Hb : Qeq_bool q k = Qeq_bool q k') by (rewrite H; reflexivity).
  rewrite Hb. reflexivity.
Qed.

Lemma rung_dt_to_token_some (n : nat) :
  forall it dt k step,
    it <= k < it + Z.of_nat n -> (step == dt * 2 ^ (k - it))%Q ->
    exists tok, dict_get Qeq_bool (rung_dt_to_token (rungs n it dt)) step = Some tok.
Proof.
  induction n as [|n IH]; intros it dt k step Hk Hs; [lia|].
  cbn [rungs rung_dt_to_token map dict_get fst snd].
  destruct (Qeq_bool dt step) eqn:E; [eexists; reflexivity|].
  apply (IH (it + 1) (dt * 2)%Q k step).
  - assert (Hne : k <> it).
    { intros ->. rewrite Z.sub_diag in Hs. cbn [Qpower] in Hs.
      rewrite Qmult_1_r in Hs. symmetry in Hs. apply Qeq_bool_iff in Hs. congruence. }
    lia.
  - rewrite Hs. assert (Hne : k <> it).
    { intros ->. rewrite Z.sub_diag in Hs. cbn [Qpower] in Hs.
      rewrite Qmult_1_r in Hs. symmetry in Hs. apply Qeq_bool_iff in Hs. congruence. }
    replace (k - it) with (k - (it + 1) + 1) by lia.
    rewrite pow2_succ by lia. ring.
Qed.

Section GapOfEps.

Variable self : NoLossTokenizer.
Variable K : nat.
Hypothesis Hbuilt : built self K.

Lemma eps_positive : (0 < eps self)%Q.
Proof.
  destruct (Qlt_le_dec 0 (eps self)) as [H|H]; [exact H|]. exfalso.
  pose proof (built_reaches_one _ _ Hbuilt) as Hone.
  assert (Hp : (0 <= 2 ^ Z.of_nat K)%Q) by (apply Qlt_le_weak, pow2_pos).
  pose proof (Qmult_le_compat_r _ _ _ H Hp) as Hm.
  rewrite Qmult_0_l in Hm. lra.
Qed.

Lemma max_time_value_rung :
  (max_time_value self == eps self * 2 ^ (Z.of_nat K - 1))%Q.
Proof.
  pose proof (built_max_time_value _ _ Hbuilt) as Hm.
  rewrite (built_token_to_dt _ _ Hbuilt) in Hm.
  destruct (rung_token_to_dt_get K 1 (eps self) (Z.of_nat K)) as (d & Hd & Hv).
  - pose proof (built_ladder _ _ Hbuilt). lia.
  - rewrite Hd in Hm. inversion Hm; subst d. exact Hv.
Qed.

Hypothesis Hhalf : (2 * eps self < 1)%Q.

Lemma two_rungs : (2 <= K)%nat.
Proof.
  pose proof (built_ladder _ _ Hbuilt) as H0.
  pose proof (built_reaches_one _ _ Hbuilt) as Hone.
  destruct K as [|[|k]]; [congruence | | lia].
  exfalso. change (2 ^ Z.of_nat 1)%Q with 2%Q in Hone. lra.
Qed.

(** A gap of exactly [eps]: the step is halved down to the rung
    [2 * eps], that rung is emitted (it overshoots by exactly [eps], which
    the overshoot test lets through), and the loop is stuck. *)
Lemma tokenize_time_distance_loop_gap_eps (j : nat) :
  forall fuel time_tokens current_step,
    (current_step == 2 * eps self * 2 ^ Z.of_nat j)%Q ->
    tokenize_time_distance_loop self fuel (eps self) time_tokens 0 current_step
    = OutOfFuel.
Proof.
  pose proof eps_positive as Hpos.
  assert (Hexit : Qltb (Qabs (eps self - 0)) (eps self) = false).
  { apply Qltb_false. setoid_replace (eps self - 0)%Q with (eps self) by ring.
    apply Qle_Qabs. }
  induction j as [|j IH]; intros fuel toks step Hs;
    (destruct fuel as [|fuel]; [reflexivity|]);
    rewrite tokenize_time_distance_loop_eq, Hexit.
  - cbn [Z.of_nat Qpower] in Hs. rewrite Qmult_1_r in Hs.
    assert (Hover : Qltb (eps self) (0 + step - eps self) = false).
    { apply Qltb_false. rewrite Hs. lra. }
    rewrite Hover.
    destruct (rung_dt_to_token_some K 1 (eps self) 2 step) as (tok & Htok).
    + pose proof two_rungs. lia.
    + rewrite Hs. change (2 ^ (2 - 1))%Q with 2%Q. ring.
    + rewrite (built_dt_to_token _ _ Hbuilt), Htok. cbn [get_or bind].
      apply tokenize_time_distance_loop_stuck.
      * rewrite Hs. ring.
      * rewrite Hs. lra.
  - rewrite Nat2Z.inj_succ in Hs. unfold Z.succ in Hs.
    rewrite pow2_succ in Hs by lia.
    pose proof (Qpower_1_le 2 (Z.of_nat j) ltac:(discriminate) ltac:(lia)) as Hp.
    assert (Hover : Qltb (eps self) (0 + step - eps self) = true).
    { apply Qltb_true. rewrite Hs.
      assert (Hm : (eps self * 1 <= eps self * 2 ^ Z.of_nat j)%Q).
      { rewrite !(Qmult_comm (eps self)).
        apply Qmult_le_compat_r; [exact Hp | lra]. }
      setoid_replace (0 + 2 * eps self * (2 ^ Z.of_nat j * 2) - eps self)%Q
        with (4 * (eps self * 2 ^ Z.of_nat j) - eps self)%Q by ring.
      lra. }
    rewrite Hover. apply IH. rewrite Hs. field.
Qed.

Lemma tokenize_time_distance_gap_eps (fuel : nat) :
  tokenize_time_distance self fuel (eps self) = OutOfFuel.
Proof.
  unfold tokenize_time_distance.
  apply (tokenize_time_distance_loop_gap_eps (K - 2)).
  rewrite max_time_value_rung. pose proof two_rungs as H2.
  replace (Z.of_nat K - 1) with (Z.of_nat (K - 2) + 1) by lia.
  rewrite pow2_succ by lia. ring.
Qed.

End GapOfEps.


(** In binary64 the same call does not hang: after the rung [2 * eps] is
    emitted the step is halved until the sum [filling_dt + current_step]
    rounds back to [filling_dt]; the overshoot test then fails and the
    lookup [dt_to_token[current_step]] of a step that is no rung raises
    [KeyError].  A gap the encoder can fill is shown next to it. *)
Example tokenize_time_distance_b64_gap_eps :
  tokenize_time_distance_b64 2000 0.25%float 0.25%float = Err KeyError
  /\ tokenize_time_distance_b64 2000 0.25%float 1%float = Ok [TIME 2; TIME 2]
  (* the double nearest to 0.001, the default [eps] *)
  /\ tokenize_time_distance_b64 2000 0x1.0624dd2f1a9fcp-10%float
       0x1.0624dd2f1a9fcp-10%float = Err KeyError
  /\ tokenize_time_distance_b64 2000 0x1.0624dd2f1a9fcp-10%float 0.5%float
     = Ok [TIME 9; TIME 8; TIME 7; TIME 6; TIME 5; TIME 3].
Proof. repeat split; vm_compute; reflexivity. Qed.

(** ** Repair *)

Lemma in_vocabb_true (self : NoLossTokenizer) (tokens : list token) :
  in_vocabb self tokens = true -> in_vocab self tokens.
Proof.
  unfold in_vocabb, in_vocab. rewrite forallb_forall, Forall_forall.
  intros H t Ht. apply H in Ht. apply existsb_exists in Ht.
  destruct Ht as (x & Hx & Heq). apply token_eqb_eq in Heq. subst x. exact Hx.
Qed.

Lemma array_index_ok (len i : Z) :
  0 <= i < len -> array_index len i = Ok (Z.to_nat i).
Proof.
  intros H. unfold array_index.
  replace (i <? 0) with false by lia.
  replace (0 <=? i) with true by lia. replace (i <? len) with true by lia.
  reflexivity.
Qed.

Lemma nth_error_update (a : list Z) (j : nat) (v : Z) (k : nat) :
  (j < length a)%nat ->
  nth_error (firstn j a ++ v :: skipn (S j) a) k =
  if (k =? j)%nat then Some v else nth_error a k.
Proof.
  intros Hj.
  assert (Hlen : length (firstn j a) = j) by (rewrite length_firstn; lia).
  destruct (Nat.lt_trichotomy k j) as [Hlt|[Heq|Hgt]].
  - rewrite nth_error_app1 by lia. rewrite nth_error_firstn.
    replace (k <? j)%nat with true by (symmetry; apply Nat.ltb_lt; lia).
    replace (k =? j)%nat with false by (symmetry; apply Nat.eqb_neq; lia).
    reflexivity.
  - subst k. rewrite nth_error_app2 by lia. rewrite Hlen, Nat.sub_diag.
    rewrite Nat.eqb_refl. reflexivity.
  - rewrite nth_error_app2 by lia. rewrite Hlen.
    replace (k =? j)%nat with false by (symmetry; apply Nat.eqb_neq; lia).
    replace (k - j)%nat with (S (k - j - 1)) by lia. cbn [nth_error].
    rewrite nth_error_skipn. f_equal. lia.
Qed.

Lemma length_update (a : list Z) (j : nat) (v : Z) :
  (j < length a)%nat -> length (firstn j a ++ v :: skipn (S j) a) = length a.
Proof.
  intros Hj. rewrite length_app, length_firstn. cbn [length].
  rewrite length_skipn. lia.
Qed.

Lemma in_enumerate (a : list Z) (k v : Z) :
  In (k, v) (enumerate a) ->
  exists i, k = Z.of_nat i /\ nth_error a i = Some v.
Proof.
  unfold enumerate, range. rewrite Z.sub_0_r, Nat2Z.id.
  assert (H : forall l s, In (k, v) (combine (map (fun i => 0 + Z.of_nat i) (seq s (length l))) l)
              -> exists i, (s <= i)%nat /\ k = Z.of_nat i /\ nth_error l (i - s) = Some v).
  { induction l as [|x l IH]; intros s Hin; simpl in Hin; [contradiction|].
    destruct Hin as [Heq|Hin].
    - inversion Heq; subst. exists s. rewrite Nat.sub_diag. repeat split; lia.
    - apply IH in Hin. destruct Hin as (i & Hs & Hk & Hn).
      exists i. repeat split; try lia.
      replace (i - s)%nat with (S (i - S s)) by lia. exact Hn. }
  intros Hin. apply H in Hin. destruct Hin as (i & _ & Hk & Hn).
  exists i. rewrite Nat.sub_0_r in Hn. split; assumption.
Qed.

Lemma fix_scan_app (self : NoLossTokenizer) (l1 l2 : list token) :
  forall st,
    fix_scan self st (l1 ++ l2) =
    (st1 <- fix_scan self st l1 ;; fix_scan self st1 l2).
Proof.
  induction l1 as [|t l1 IH]; intros st; simpl; [reflexivity|].
  destruct (fix_step self st t); cbn [bind]; [apply IH | reflexivity | reflexivity].
Qed.

Section Repair.

Variable self : NoLossTokenizer.
Variable K : nat.
Hypothesis Hbuilt : built self K.

Lemma vocab_inv (t : token) :
  In t (vocab self) ->
  match t with
  | NOTE_ON p | NOTE_OFF p => 21 <= p < 109
  | VELOCITY b => 0 <= b < n_velocity_bins self
  | _ => True
  end.
Proof.
  rewrite (built_vocab _ _ Hbuilt). intros H.
  apply in_app_or in H. destruct H as [H|H].
  - apply in_app_or in H. destruct H as [H|H].
    + destruct H as [<-|[]]. exact I.
    + apply in_app_or in H. destruct H as [H|H].
      * apply in_flat_map in H. destruct H as (p & Hp & Hin).
        apply in_range in Hp.
        destruct Hin as [<-|[<-|[]]]; exact Hp.
      * apply in_map_iff in H. destruct H as (b & <- & Hb).
        apply in_range in Hb. exact Hb.
  - unfold rung_tokens in H. apply in_map_iff in H.
    destruct H as (p & <- & _). exact I.
Qed.

Lemma token_to_pitch_get (t : token) :
  dict_get token_eqb (token_to_pitch self) t =
  match t with
  | NOTE_ON k | NOTE_OFF k => if (21 <=? k) && (k <? 109) then Some k else None
  | _ => None
  end.
Proof. rewrite (built_token_to_pitch _ _ Hbuilt). apply dict_get_pitch_tokens. Qed.

Lemma token_to_velocity_bin_get (t : token) :
  dict_get token_eqb (token_to_velocity_bin self) t =
  match t with
  | VELOCITY k =>
      if (0 <=? k) && (k <? n_velocity_bins self) then Some k else None
  | _ => None
  end.
Proof.
  rewrite (built_token_to_velocity_bin _ _ Hbuilt).
  apply dict_get_velocity_tokens.
Qed.

Lemma velocity_bin_to_token_get (b : Z) :
  dict_get Z.eqb (velocity_bin_to_token self) b =
  if (0 <=? b) && (b <? n_velocity_bins self) then Some (VELOCITY b) else None.
Proof.
  rewrite (built_velocity_bin_to_token _ _ Hbuilt).
  apply (dict_get_range token VELOCITY).
Qed.

Lemma pitch_to_on_token_get (p : Z) :
  dict_get Z.eqb (pitch_to_on_token self) p =
  if (21 <=? p) && (p <? 109) then Some (NOTE_ON p) else None.
Proof.
  rewrite (built_pitch_to_on_token _ _ Hbuilt).
  apply (dict_get_range token NOTE_ON).
Qed.

Lemma pitch_to_off_token_get (p : Z) :
  dict_get Z.eqb (pitch_to_off_token self) p =
  if (21 <=? p) && (p <? 109) then Some (NOTE_OFF p) else None.
Proof.
  rewrite (built_pitch_to_off_token _ _ Hbuilt).
  apply (dict_get_range token NOTE_OFF).
Qed.

Lemma pressed_ok_set (pressed : list Z) (p v : Z) :
  pressed_ok self pressed -> 21 <= p < 109 ->
  v = -1 \/ 0 <= v < n_velocity_bins self ->
  exists pressed',
    array_set pressed p v = Ok pressed' /\ pressed_ok self pressed'.
Proof.
  intros (Hlen & Hval) Hp Hv. unfold array_set.
  rewrite array_index_ok by (rewrite Hlen; lia). cbn [bind].
  eexists. split; [reflexivity|]. split.
  - rewrite length_update by (rewrite Hlen; lia). exact Hlen.
  - intros k w. rewrite nth_error_update by (rewrite Hlen; lia).
    destruct (k =? Z.to_nat p)%nat eqn:E.
    + apply Nat.eqb_eq in E. intros Hw. inversion Hw; subst w.
      destruct Hv as [Hv|Hv]; [left; exact Hv | right; split; [exact Hv | lia]].
    + apply Hval.
Qed.

Lemma pressed_ok_get (pressed : list Z) (p : Z) :
  pressed_ok self pressed -> 21 <= p < 109 ->
  exists v, array_get pressed p = Ok v.
Proof.
  intros (Hlen & _) Hp. unfold array_get.
  rewrite array_index_ok by (rewrite Hlen; lia). cbn [bind].
  destruct (nth_error pressed (Z.to_nat p)) as [v|] eqn:E.
  - exists v. reflexivity.
  - apply nth_error_None in E. lia.
Qed.

(** On a symbol of the vocabulary a step of the first loop succeeds,
    keeps the state well formed, and only ever adds symbols in front of
    [tokens]. *)
Lemma fix_step_ok (st : fix_state) (t : token) :
  fix_state_ok self st -> In t (vocab self) ->
  exists st' front,
    fix_step self st t = Ok st' /\ fix_state_ok self st'
    /\ fx_tokens st' = front ++ fx_tokens st.
Proof.
  intros (Hpr & b & Hcv & Hb) Hin. apply vocab_inv in Hin.
  destruct t as [|p|p|v|k].
  - exists st, []. split; [reflexivity|]. split; [|reflexivity].
    split; [exact Hpr|]. exists b. split; assumption.
  - cbn [fix_step]. rewrite Hcv, token_to_velocity_bin_get, token_to_pitch_get.
    replace ((0 <=? b) && (b <? n_velocity_bins self)) with true by lia.
    replace ((21 <=? p) && (p <? 109)) with true by lia.
    cbn [get_or bind].
    destruct (pressed_ok_set (fx_pressed st) p b Hpr Hin) as (pr' & Hset & Hok);
      [right; exact Hb|].
    rewrite Hset. cbn [bind]. eexists; exists []. split; [reflexivity|].
    split; [|reflexivity]. split; [exact Hok|]. exists b. split; [reflexivity|exact Hb].
  - cbn [fix_step]. rewrite token_to_pitch_get.
    replace ((21 <=? p) && (p <? 109)) with true by lia.
    cbn [get_or bind].
    destruct (pressed_ok_get (fx_pressed st) p Hpr Hin) as (state & ->).
    cbn [bind]. rewrite pitch_to_on_token_get.
    replace ((21 <=? p) && (p <? 109)) with true by lia.
    destruct (pressed_ok_set (fx_pressed st) p (-1) Hpr Hin) as (pr' & Hset & Hok);
      [left; reflexivity|].
    destruct (state =? -1); cbn [get_or bind]; rewrite Hset; cbn [bind].
    + eexists; exists [fx_current_velocity_token st; NOTE_ON p].
      split; [reflexivity|]. split; [|reflexivity].
      split; [exact Hok|]. exists b. split; assumption.
    + eexists; exists []. split; [reflexivity|]. split; [|reflexivity].
      split; [exact Hok|]. exists b. split; assumption.
  - cbn [fix_step]. eexists; exists []. split; [reflexivity|].
    split; [|reflexivity]. split; [exact Hpr|]. exists v. split; [reflexivity|exact Hin].
  - exists st, []. split; [reflexivity|]. split; [|reflexivity].
    split; [exact Hpr|]. exists b. split; assumption.
Qed.

Lemma fix_scan_ok (l : list token) :
  forall st,
    fix_state_ok self st -> in_vocab self l ->
    exists st' front,
      fix_scan self st l = Ok st' /\ fix_state_ok self st'
      /\ fx_tokens st' = front ++ fx_tokens st.
Proof.
  induction l as [|t l IH]; intros st Hst Hl.
  - exists st, []. split; [reflexivity|]. split; [exact Hst|reflexivity].
  - inversion Hl as [|? ? Ht Hl']; subst.
    destruct (fix_step_ok st t Hst Ht) as (st1 & f1 & H1 & Hok1 & Htok1).
    destruct (IH st1 Hok1 Hl') as (st2 & f2 & H2 & Hok2 & Htok2).
    exists st2, (f2 ++ f1). cbn [fix_scan]. rewrite H1. cbn [bind].
    split; [exact H2|]. split; [exact Hok2|].
    rewrite Htok2, Htok1, app_assoc. reflexivity.
Qed.

Lemma fix_release_ok (keyed : list (Z * Z)) :
  forall tokens,
    Forall (fun ks => snd ks = -1 \/
              (0 <= snd ks < n_velocity_bins self /\ 21 <= fst ks < 109)) keyed ->
    fix_release self tokens keyed = Ok (tokens ++ released_tokens keyed).
Proof.
  induction keyed as [|[key state] keyed IH]; intros tokens Hall.
  - cbn. rewrite app_nil_r. reflexivity.
  - inversion Hall as [|? ? Hks Hall']; subst. cbn [fst snd] in Hks.
    cbn [fix_release released_tokens flat_map fst snd].
    destruct Hks as [->|(Hs & Hk)].
    + cbn [Z.leb Z.compare]. fold (released_tokens keyed). cbn [app]. apply IH, Hall'.
    + replace (0 <=? state) with true by lia.
      rewrite pitch_to_off_token_get, velocity_bin_to_token_get.
      replace ((21 <=? key) && (key <? 109)) with true by lia.
      replace ((0 <=? state) && (state <? n_velocity_bins self)) with true by lia.
      cbn [get_or bind]. fold (released_tokens keyed).
      rewrite IH by exact Hall'. rewrite <- app_assoc. reflexivity.
Qed.

Lemma pressed_ok_enumerate (pressed : list Z) :
  pressed_ok self pressed ->
  Forall (fun ks => snd ks = -1 \/
            (0 <= snd ks < n_velocity_bins self /\ 21 <= fst ks < 109))
         (enumerate pressed).
Proof.
  intros (_ & Hval). apply Forall_forall. intros [k v] Hin.
  apply in_enumerate in Hin. destruct Hin as (i & -> & Hn).
  cbn [fst snd]. apply Hval in Hn. exact Hn.
Qed.

Lemma fix_init_ok (tokens : list token) :
  1 <= n_velocity_bins self -> fix_state_ok self (fix_init tokens).
Proof.
  intros Hn. split.
  - split; [reflexivity|]. intros k v Hk. left.
    apply nth_error_In in Hk. apply repeat_spec in Hk. exact Hk.
  - exists 0. split; [reflexivity | lia].
Qed.

(** The repair pass returns on every sequence drawn from the vocabulary:
    it puts pairs in front of, and pairs behind, the sequence it was
    given. *)
Lemma fix_token_sequences_total (tokens : list token) :
  1 <= n_velocity_bins self -> in_vocab self tokens ->
  exists front back,
    fix_token_sequences self tokens = Ok (front ++ tokens ++ back).
Proof.
  intros Hn Hv.
  destruct (fix_scan_ok tokens (fix_init tokens) (fix_init_ok tokens Hn) Hv)
    as (st & front & Hscan & (Hpr & _) & Htok).
  exists front, (released_tokens (enumerate (fx_pressed st))).
  unfold fix_token_sequences. fold (fix_init tokens). rewrite Hscan. cbn [bind].
  rewrite fix_release_ok by (apply pressed_ok_enumerate; exact Hpr).
  rewrite Htok. cbn [fix_init fx_tokens]. rewrite <- app_assoc. reflexivity.
Qed.

End Repair.

Lemma fix_step_keeps_velocity (self : NoLossTokenizer) (st st' : fix_state)
  (t : token) :
  fix_step self st t = Ok st' -> (forall b, t <> VELOCITY b) ->
  fx_current_velocity_token st' = fx_current_velocity_token st.
Proof.
  intros H Hnv. destruct t as [|p|p|v|k]; cbn [fix_step] in H.
  - inversion H; reflexivity.
  - inv_bind H. inv_bind H. inv_bind H. inversion H; reflexivity.
  - inv_bind H. inv_bind H. inv_bind H. inv_bind H. inversion H; reflexivity.
  - exfalso. apply (Hnv v). reflexivity.
  - inversion H; reflexivity.
Qed.

Lemma fix_scan_keeps_velocity (self : NoLossTokenizer) (l : list token) :
  forall st st',
    fix_scan self st l = Ok st' -> (forall b, ~ In (VELOCITY b) l) ->
    fx_current_velocity_token st' = fx_current_velocity_token st.
Proof.
  induction l as [|t l IH]; intros st st' H Hnv; cbn [fix_scan] in H.
  - inversion H; reflexivity.
  - inv_bind H. apply IH in H.
    + rewrite H. eapply fix_step_keeps_velocity; [exact E|].
      intros b ->. apply (Hnv b). left; reflexivity.
    + intros b Hb. apply (Hnv b). right; exact Hb.
Qed.

(** C10: when a release of a key that is not pressed is met before any
    velocity symbol, the pair put in front of the sequence for it is
    [VELOCITY_0, NOTE_ON_p]: the default symbol, not one of the sequence.
    [st] is the state of the first loop when that release is reached;
    [front] holds the pairs of later orphans, [back] the closing pairs. *)
Theorem orphan_release_without_velocity_gets_default
  (fuel0 : nat) (e : Q) (n : Z) (self : NoLossTokenizer)
  (pre rest : list token) (p : Z) (st : fix_state) :
  __init__ fuel0 e n = Ok self ->
  1 <= n ->
  in_vocab self (pre ++ NOTE_OFF p :: rest) ->
  (forall b, ~ In (VELOCITY b) pre) ->
  fix_scan self (fix_init (pre ++ NOTE_OFF p :: rest)) pre = Ok st ->
  array_get (fx_pressed st) p = Ok (-1) ->
  exists front earlier back,
    fix_token_sequences self (pre ++ NOTE_OFF p :: rest)
    = Ok (front ++ [VELOCITY 0; NOTE_ON p] ++ fx_tokens st ++ back)
    /\ fx_tokens st = earlier ++ pre ++ NOTE_OFF p :: rest.
Proof.
  intros Hinit Hn Hv Hnv Hscan Hget.
  apply init_built in Hinit. destruct Hinit as (_ & Hnb & K & HK).
  subst n. set (tokens := pre ++ NOTE_OFF p :: rest) in *.
  assert (Hv' := Hv). unfold in_vocab, tokens in Hv'.
  apply Forall_app in Hv'. destruct Hv' as (Hpre & Hrest).
  inversion Hrest as [|? ? Hp Hrest']; subst.
  destruct (fix_scan_ok self K HK pre (fix_init tokens)
              (fix_init_ok self tokens Hn) Hpre)
    as (st0 & earlier & Hscan0 & Hok & Htok).
  rewrite Hscan in Hscan0. inversion Hscan0; subst st0; clear Hscan0.
  assert (Hcv : fx_current_velocity_token st = VELOCITY 0)
    by (apply (fix_scan_keeps_velocity self pre _ _ Hscan Hnv)).
  apply (vocab_inv self K HK) in Hp.
  destruct Hok as (Hpr & _).
  destruct (pressed_ok_set self (fx_pressed st) p (-1) Hpr Hp) as (pr1 & Hset & Hpr1);
    [left; reflexivity|].
  set (st1 := {| fx_tokens := [VELOCITY 0; NOTE_ON p] ++ fx_tokens st;
                 fx_pressed := pr1;
                 fx_current_velocity_token := VELOCITY 0 |}).
  assert (Hstep : fix_step self st (NOTE_OFF p) = Ok st1).
  { cbn [fix_step]. rewrite (token_to_pitch_get self K HK).
    replace ((21 <=? p) && (p <? 109)) with true by lia.
    cbn [get_or bind]. rewrite Hget. cbn [bind Z.eqb Pos.eqb].
    rewrite (pitch_to_on_token_get self K HK).
    replace ((21 <=? p) && (p <? 109)) with true by lia.
    cbn [get_or bind]. rewrite Hset, Hcv. reflexivity. }
  assert (Hok1 : fix_state_ok self st1).
  { split; [exact Hpr1|]. exists 0. split; [reflexivity | lia]. }
  destruct (fix_scan_ok self K HK rest st1 Hok1 Hrest')
    as (st2 & front & Hscan2 & (Hpr2 & _) & Htok2).
  exists front, earlier, (released_tokens (enumerate (fx_pressed st2))).
  split; [|exact Htok].
  unfold fix_token_sequences. fold (fix_init tokens).
  unfold tokens at 2. rewrite fix_scan_app. fold tokens. rewrite Hscan.
  cbn [bind fix_scan]. rewrite Hstep. cbn [bind]. rewrite Hscan2. cbn [bind].
  rewrite (fix_release_ok self K HK)
    by (apply pressed_ok_enumerate; exact Hpr2).
  rewrite Htok2. unfold st1. cbn [fx_tokens].
  rewrite <- !app_assoc. reflexivity.
Qed.

Lemma orphan_release_without_velocity_gets_default_witness :
  exists self,
    __init__ 3 (1 # 4) 128 = Ok self /\
    exists st,
      fix_scan self (fix_init ([NOTE_ON 61] ++ NOTE_OFF 60 :: [VELOCITY 5; NOTE_OFF 61]))
               [NOTE_ON 61] = Ok st /\
      array_get (fx_pressed st) 60 = Ok (-1) /\
      exists front earlier back,
        fix_token_sequences self
          ([NOTE_ON 61] ++ NOTE_OFF 60 :: [VELOCITY 5; NOTE_OFF 61])
        = Ok (front ++ [VELOCITY 0; NOTE_ON 60] ++ fx_tokens st ++ back) /\
        fx_tokens st
        = earlier ++ [NOTE_ON 61] ++ NOTE_OFF 60 :: [VELOCITY 5; NOTE_OFF 61].
Proof.
  eexists. split; [vm_compute; reflexivity|].
  eexists. split; [vm_compute; reflexivity|].
  split; [vm_compute; reflexivity|].
  apply (orphan_release_without_velocity_gets_default 3 (1 # 4) 128).
  - vm_compute; reflexivity.
  - lia.
  - apply in_vocabb_true. vm_compute; reflexivity.
  - intros b [Hb|[]]. discriminate Hb.
  - vm_compute; reflexivity.
  - vm_compute; reflexivity.
Defined.

(** C4 at a sequence in which key 60 is pressed twice and released once:
    the repair pass returns it unchanged, with two [NOTE_ON_60] and one
    [NOTE_OFF_60]. *)
Theorem fix_token_sequences_repeated_press_unbalanced :
  exists self out,
    __init__ 3 (1 # 4) 128 = Ok self /\
    in_vocab self [VELOCITY 0; NOTE_ON 60; VELOCITY 0; NOTE_ON 60;
                   VELOCITY 0; NOTE_OFF 60] /\
    fix_token_sequences self [VELOCITY 0; NOTE_ON 60; VELOCITY 0; NOTE_ON 60;
                              VELOCITY 0; NOTE_OFF 60] = Ok out /\
    count_token (NOTE_ON 60) out = 2%nat /\
    count_token (NOTE_OFF 60) out = 1%nat.
Proof.
  eexists. eexists. split; [vm_compute; reflexivity|].
  split; [apply in_vocabb_true; vm_compute; reflexivity|].
  split; [vm_compute; reflexivity|].
  split; reflexivity.
Qed.

(** C5 at a sequence with two releases of key 60 and no press: the first
    pass puts two presses in front, and a second pass over that result
    puts a third one in front. *)
Theorem fix_token_sequences_not_idempotent :
  exists self out out2,
    __init__ 3 (1 # 4) 128 = Ok self /\
    in_vocab self [VELOCITY 0; NOTE_OFF 60; VELOCITY 0; NOTE_OFF 60] /\
    fix_token_sequences self [VELOCITY 0; NOTE_OFF 60; VELOCITY 0; NOTE_OFF 60]
    = Ok out /\
    fix_token_sequences self out = Ok out2 /\
    out = [VELOCITY 0; NOTE_ON 60; VELOCITY 0; NOTE_ON 60;
           VELOCITY 0; NOTE_OFF 60; VELOCITY 0; NOTE_OFF 60] /\
    out2 = [VELOCITY 0; NOTE_ON 60] ++ out /\
    out2 <> out.
Proof.
  eexists. eexists. eexists. split; [vm_compute; reflexivity|].
  split; [apply in_vocabb_true; vm_compute; reflexivity|].
  split; [vm_compute; reflexivity|].
  split; [vm_compute; reflexivity|].
  split; [reflexivity|]. split; [reflexivity|]. discriminate.
Qed.


(** ** The stable sort *)

Section SortGeneric.

Context {A K : Type}.
Variable leb : K -> K -> bool.
Variable key : A -> K.

Lemma insert_by_permutation (x : A) (l : list A) :
  Permutation (insert_by leb key x l) (x :: l).
Proof.
  induction l as [|y l IH]; [reflexivity|].
  cbn [insert_by]. destruct (leb (key x) (key y)); [reflexivity|].
  rewrite IH. apply perm_swap.
Qed.

Lemma sorted_permutation (l : list A) : Permutation (sorted leb key l) l.
Proof.
  induction l as [|x l IH]; [reflexivity|].
  cbn [sorted fold_right]. fold (sorted leb key l).
  rewrite insert_by_permutation. apply perm_skip, IH.
Qed.

Lemma sorted_cons (x : A) (l : list A) :
  sorted leb key (x :: l) = insert_by leb key x (sorted leb key l).
Proof. reflexivity. Qed.

End SortGeneric.

Lemma insert_by_map {A B K : Type} (leb : K -> K -> bool) (key : B -> K)
  (f : A -> B) (x : A) (l : list A) :
  insert_by leb key (f x) (map f l)
  = map f (insert_by leb (fun a => key (f a)) x l).
Proof.
  induction l as [|y l IH]; [reflexivity|].
  cbn [map insert_by]. destruct (leb (key (f x)) (key (f y))); [reflexivity|].
  rewrite IH. reflexivity.
Qed.

Lemma sorted_map {A B K : Type} (leb : K -> K -> bool) (key : B -> K)
  (f : A -> B) (l : list A) :
  sorted leb key (map f l) = map f (sorted leb (fun a => key (f a)) l).
Proof.
  induction l as [|x l IH]; [reflexivity|].
  cbn [map]. rewrite !sorted_cons, IH. apply insert_by_map.
Qed.

Lemma flat_map_ext_range {B : Type} (f g : Z -> list B) (lo hi : Z) :
  (forall p, lo <= p < hi -> f p = g p) ->
  flat_map f (range lo hi) = flat_map g (range lo hi).
Proof.
  intros H. assert (Hin : forall p, In p (range lo hi) -> f p = g p)
    by (intros p Hp; apply H, in_range, Hp).
  induction (range lo hi) as [|p l IH]; [reflexivity|].
  cbn [flat_map]. rewrite (Hin p) by (left; reflexivity).
  rewrite IH by (intros q Hq; apply Hin; right; exact Hq). reflexivity.
Qed.

(** Sorting by an integer key of a bounded range gathers, key by key, the
    elements of that key in their original order. *)
Section SortByPitch.

Context {A : Type}.
Variable key : A -> Z.

Lemma insert_by_skip (x : A) (l1 l2 : list A) :
  Forall (fun y => key y < key x) l1 ->
  insert_by Z.leb key x (l1 ++ l2) = l1 ++ insert_by Z.leb key x l2.
Proof.
  induction 1 as [|y l1 Hy _ IH]; [reflexivity|].
  cbn [app insert_by]. replace (key x <=? key y) with false by lia.
  rewrite IH. reflexivity.
Qed.

Lemma insert_by_front (x : A) (l : list A) :
  Forall (fun y => key x <= key y) l ->
  insert_by Z.leb key x l = x :: l.
Proof.
  intros H. destruct l as [|y l]; [reflexivity|].
  inversion H; subst. cbn [insert_by].
  replace (key x <=? key y) with true by lia. reflexivity.
Qed.

Lemma filter_cons_eq (f : A -> bool) (x : A) (l : list A) :
  filter f (x :: l) = if f x then x :: filter f l else filter f l.
Proof. reflexivity. Qed.

Lemma insert_by_buckets (x : A) (l : list A) (lo hi : Z) :
  lo <= key x < hi ->
  insert_by Z.leb key x (flat_map (fun p => filter (with_key key p) l) (range lo hi))
  = flat_map (fun p => filter (with_key key p) (x :: l)) (range lo hi).
Proof.
  revert lo hi.
  refine (range_ind (fun lo hi => lo <= key x < hi -> _ = _) _ _).
  - intros lo hi Hle Hk. lia.
  - intros lo hi Hlt IH Hk. rewrite range_cons by lia. cbn [flat_map].
    rewrite (filter_cons_eq (with_key key lo)).
    destruct (Z.eq_dec (key x) lo) as [Heq|Hne].
    + assert (Hw : with_key key lo x = true) by (unfold with_key; lia).
      rewrite Hw. rewrite insert_by_front.
      * cbn [app]. f_equal. f_equal. apply flat_map_ext_range. intros p Hp.
        rewrite filter_cons_eq.
        assert (Hw' : with_key key p x = false) by (unfold with_key; lia).
        rewrite Hw'. reflexivity.
      * apply Forall_app. split.
        -- apply Forall_forall. intros y Hy. apply filter_In in Hy.
           destruct Hy as (_ & Hy). unfold with_key in Hy. lia.
        -- apply Forall_forall. intros y Hy. apply in_flat_map in Hy.
           destruct Hy as (p & Hp & Hy). apply in_range in Hp.
           apply filter_In in Hy. destruct Hy as (_ & Hy). unfold with_key in Hy. lia.
    + assert (Hw : with_key key lo x = false) by (unfold with_key; lia).
      rewrite Hw. rewrite insert_by_skip.
      * rewrite IH by lia. reflexivity.
      * apply Forall_forall. intros y Hy. apply filter_In in Hy.
        destruct Hy as (_ & Hy). unfold with_key in Hy. lia.
Qed.

Lemma sorted_buckets (l : list A) (lo hi : Z) :
  Forall (fun x => lo <= key x < hi) l ->
  sorted Z.leb key l = flat_map (fun p => filter (with_key key p) l) (range lo hi).
Proof.
  induction 1 as [|x l Hx _ IH].
  - cbn. induction (range lo hi) as [|p r IHr]; [reflexivity | exact IHr].
  - rewrite sorted_cons, IH. apply insert_by_buckets. exact Hx.
Qed.

End SortByPitch.

Section StableSort.

Context {A : Type}.
Variable key : A -> Q.

Let at_key (t : Q) (x : A) : bool := Qeq_bool (key x) t.
Let key_le (x y : A) : Prop := (key x <= key y)%Q.

Lemma insert_by_filter (t : Q) (x : A) (l : list A) :
  filter (at_key t) (insert_by Qle_bool key x l) = filter (at_key t) (x :: l).
Proof.
  induction l as [|y l IH]; [reflexivity|].
  cbn [insert_by]. destruct (Qle_bool (key x) (key y)) eqn:E; [reflexivity|].
  change (filter (at_key t) (y :: insert_by Qle_bool key x l))
    with (if at_key t y then y :: filter (at_key t) (insert_by Qle_bool key x l)
          else filter (at_key t) (insert_by Qle_bool key x l)).
  rewrite IH. cbn [filter].
  destruct (at_key t x) eqn:Ex, (at_key t y) eqn:Ey; try reflexivity.
  exfalso. unfold at_key in Ex, Ey.
  apply Qeq_bool_iff in Ex. apply Qeq_bool_iff in Ey.
  assert (Hle : (key x <= key y)%Q) by (rewrite Ex, Ey; apply Qle_refl).
  apply Qle_bool_iff in Hle. congruence.
Qed.

(** Stability: the elements that share a key keep their order. *)
Lemma sorted_filter (t : Q) (l : list A) :
  filter (at_key t) (sorted Qle_bool key l) = filter (at_key t) l.
Proof.
  induction l as [|x l IH]; [reflexivity|].
  cbn [sorted fold_right]. fold (sorted Qle_bool key l).
  rewrite insert_by_filter. cbn [filter]. rewrite IH. reflexivity.
Qed.

Lemma insert_by_sorted (x : A) (l : list A) :
  StronglySorted key_le l -> StronglySorted key_le (insert_by Qle_bool key x l).
Proof.
  induction 1 as [|y l Hs IH Hy].
  - repeat constructor.
  - cbn [insert_by]. destruct (Qle_bool (key x) (key y)) eqn:E.
    + apply Qle_bool_iff in E. constructor; [constructor; assumption|].
      constructor; [exact E|].
      eapply Forall_impl; [|exact Hy]. intros z Hz. unfold key_le in *.
      eapply Qle_trans; eassumption.
    + constructor; [exact IH|].
      assert (Hyx : key_le y x).
      { unfold key_le. apply Qlt_le_weak. apply Qnot_le_lt. intros Hle.
        apply Qle_bool_iff in Hle. congruence. }
      eapply Permutation_Forall; [symmetry; apply insert_by_permutation|].
      constructor; assumption.
Qed.

Lemma sorted_sorted (l : list A) : StronglySorted key_le (sorted Qle_bool key l).
Proof.
  induction l as [|x l IH]; [constructor|].
  cbn [sorted fold_right]. apply insert_by_sorted, IH.
Qed.

End StableSort.

(** ** Event order *)

Lemma two_kinds_split_gen {A : Type} (kind : A -> event_kind) (X Y : list A) :
  Forall (fun e => kind e = EV_NOTE_OFF) X ->
  Forall (fun e => kind e = EV_NOTE_ON) Y ->
  forall l1 e1 l2 e2 l3,
    X ++ Y = l1 ++ e1 :: l2 ++ e2 :: l3 ->
    kind e1 = EV_NOTE_ON -> kind e2 = EV_NOTE_OFF -> False.
Proof.
  intros HX HY. induction HX as [|x X Hx HX IH]; intros l1 e1 l2 e2 l3 Heq H1 H2.
  - cbn [app] in Heq. rewrite Forall_forall in HY.
    assert (Hin : In e2 Y).
    { rewrite Heq. apply in_or_app. right. right. apply in_or_app. right. left. reflexivity. }
    apply HY in Hin. congruence.
  - destruct l1 as [|a l1]; cbn [app] in Heq; inversion Heq; subst.
    + congruence.
    + eapply IH; eassumption.
Qed.


Lemma in_two_split {A : Type} (a b : A) (l : list A) :
  In a l -> In b l -> a <> b ->
  (exists l1 l2 l3, l = l1 ++ a :: l2 ++ b :: l3) \/
  (exists l1 l2 l3, l = l1 ++ b :: l2 ++ a :: l3).
Proof.
  intros Ha Hb Hne. apply in_split in Ha. destruct Ha as (l1 & l2 & ->).
  apply in_app_or in Hb. destruct Hb as [Hb|[Hb|Hb]].
  - right. apply in_split in Hb. destruct Hb as (m1 & m2 & ->).
    exists m1, m2, l2. rewrite <- app_assoc. reflexivity.
  - congruence.
  - left. apply in_split in Hb. destruct Hb as (m1 & m2 & ->).
    exists l1, m1, m2. reflexivity.
Qed.

Lemma note_off_events_kind (recs : list (Row * Z)) :
  Forall (fun e => event e = EV_NOTE_OFF) (note_off_events recs).
Proof. apply Forall_forall. intros e He. apply in_map_iff in He.
       destruct He as (r & <- & _). reflexivity. Qed.

Lemma note_on_events_kind (recs : list (Row * Z)) :
  Forall (fun e => event e = EV_NOTE_ON) (note_on_events recs).
Proof. apply Forall_forall. intros e He. apply in_map_iff in He.
       destruct He as (r & <- & _). reflexivity. Qed.

Lemma tokenize_time_distance_loop_times (self : NoLossTokenizer) (dt : Q)
  (fuel : nat) :
  forall time_tokens filling_dt current_step out K,
    built self K ->
    tokenize_time_distance_loop self fuel dt time_tokens filling_dt current_step
    = Ok out ->
    Forall is_time_token time_tokens -> Forall is_time_token out.
Proof.
  induction fuel as [|fuel IH]; intros toks filled step out K HK H Hall.
  - discriminate H.
  - rewrite tokenize_time_distance_loop_eq in H.
    destruct (Qltb (Qabs (dt - filled)) (eps self)).
    + inversion H; subst; exact Hall.
    + destruct (Qltb (eps self) (filled + step - dt)).
      * eapply IH; eassumption.
      * inv_bind H.
        destruct (dict_get Qeq_bool (dt_to_token self) step) as [tok|] eqn:Eg;
          cbn [get_or] in E; [|discriminate E].
        inversion E; subst a; clear E.
        destruct (dt_to_token_is_rung self K HK _ _ Eg) as ((k & d & -> & _) & _).
        eapply IH; [exact HK | exact H |].
        apply Forall_app. split; [exact Hall|].
        constructor; [exists k; reflexivity | constructor].
Qed.

Lemma tokenize_events_blocks (self : NoLossTokenizer) (K : nat) (fuel : nat)
  (note_events : list Event) :
  built self K ->
  forall previous_time tokens out,
    tokenize_events self fuel note_events previous_time tokens = Ok out ->
    exists blocks,
      out = tokens ++ concat blocks
      /\ Forall2 (event_block self) note_events blocks.
Proof.
  intros HK. induction note_events as [|e evs IH]; intros prev tokens out H.
  - cbn in H. inversion H; subst. exists []. cbn. rewrite app_nil_r.
    split; [reflexivity | constructor].
  - cbn [tokenize_events] in H. inv_bind H. inv_bind H.
    apply IH in H. destruct H as (blocks & -> & Hall).
    assert (Hlen : exists v nt, a0 = [v; nt]).
    { unfold event_tokens in E0. inv_bind E0. inv_bind E0.
      inversion E0. eexists; eexists; reflexivity. }
    destruct Hlen as (v & nt & ->).
    exists ((a ++ [v; nt]) :: blocks). split.
    + cbn [concat]. rewrite <- !app_assoc. reflexivity.
    + constructor; [|exact Hall]. exists a, v, nt.
      split; [reflexivity|]. split; [|exact E0].
      unfold tokenize_time_distance in E.
      eapply tokenize_time_distance_loop_times; [exact HK | exact E | constructor].
Qed.

Lemma event_tokens_note (self : NoLossTokenizer) (K : nat) (e : Event)
  (v nt : token) :
  built self K -> event_tokens self e = Ok [v; nt] ->
  nt = match event e with
       | EV_NOTE_ON => NOTE_ON (ev_pitch e)
       | EV_NOTE_OFF => NOTE_OFF (ev_pitch e)
       end.
Proof.
  intros HK H. unfold event_tokens in H. inv_bind H. inv_bind H.
  inversion H; subst; clear H.
  destruct (event e).
  - rewrite (pitch_to_off_token_get self K HK) in E0.
    destruct ((21 <=? ev_pitch e) && (ev_pitch e <? 109)); cbn in E0;
      [inversion E0; reflexivity | discriminate E0].
  - rewrite (pitch_to_on_token_get self K HK) in E0.
    destruct ((21 <=? ev_pitch e) && (ev_pitch e <? 109)); cbn in E0;
      [inversion E0; reflexivity | discriminate E0].
Qed.



(** ** What the calls write *)



(** ** Velocity 127 *)

(** C7 for the codec built with the default arguments: the edge array
    has [n_velocity_bins] entries (not one more), velocity 127 is encoded
    as bin 127, the vocabulary has the symbol of that bin, and the decoder
    table, one entry shorter, has nothing at that index. *)
Theorem velocity_127_cannot_be_decoded :
  exists self,
    __init__ 11 (1 # 1000) 128 = Ok self /\
    length (velocity_bin_edges self) = 128%nat /\
    length (bin_to_velocity self) = 127%nat /\
    quantize_velocity self 127 = 127 /\
    dict_get Z.eqb (velocity_bin_to_token self) 127 = Some (VELOCITY 127) /\
    list_get (bin_to_velocity self) (quantize_velocity self 127) = Err IndexError /\
    untokenize self [VELOCITY 127; NOTE_ON 60; VELOCITY 127; NOTE_OFF 60]
    = Err IndexError.
Proof.
  eexists. split; [vm_compute; reflexivity|].
  repeat split.
Qed.

(** ** The bracket structure of the sorted events *)

Lemma StronglySorted_app_order {A : Type} (R : A -> A -> Prop) (l1 l2 : list A) :
  StronglySorted R (l1 ++ l2) ->
  forall x y, In x l1 -> In y l2 -> R x y.
Proof.
  induction l1 as [|a l1 IH]; intros Hs x y Hx Hy; [contradiction|].
  cbn [app] in Hs. inversion Hs as [|? ? Hs' Hall]; subst.
  destruct Hx as [->|Hx].
  - rewrite Forall_forall in Hall. apply Hall. apply in_or_app. right. exact Hy.
  - apply IH; assumption.
Qed.

Lemma NoDup_map_injective {A B : Type} (f : A -> B) (l : list A) :
  (forall a b, f a = f b -> a = b) -> NoDup l -> NoDup (map f l).
Proof.
  intros Hinj. induction 1 as [|x l Hx Hl IH]; [constructor|].
  cbn [map]. constructor; [|exact IH].
  intros Hin. apply in_map_iff in Hin. destruct Hin as (y & Hy & Hin).
  apply Hinj in Hy. subst y. contradiction.
Qed.


Lemma events_as_tagged (recs : list (Row * Z)) :
  sorted Qle_bool time (note_off_events recs ++ note_on_events recs)
  = map to_event (tagged_events recs).
Proof.
  unfold tagged_events, te_time. rewrite <- (sorted_map Qle_bool time to_event).
  f_equal. rewrite map_app, !map_map. reflexivity.
Qed.

Section Brackets.

Variable recs : list (Row * Z).
Hypothesis Hnodup : NoDup recs.
Hypothesis Hlength : forall x, In x recs -> (start (fst x) < end_ (fst x))%Q.
Hypothesis Hapart :
  forall x y, In x recs -> In y recs -> x <> y ->
    pitch (fst x) = pitch (fst y) ->
    (end_ (fst x) <= start (fst y))%Q \/ (end_ (fst y) <= start (fst x))%Q.

Let TL := tagged_events recs.

Lemma tagged_events_perm :
  Permutation TL
    (map (fun x => (x, EV_NOTE_OFF)) recs ++ map (fun x => (x, EV_NOTE_ON)) recs).
Proof. apply sorted_permutation. Qed.

Lemma tagged_events_in (x : Row * Z) (k : event_kind) :
  In (x, k) TL <-> In x recs.
Proof.
  rewrite (Permutation_in' (eq_refl (x, k)) tagged_events_perm) by reflexivity.
  rewrite in_app_iff, !in_map_iff. split.
  - intros [(y & Hy & Hin)|(y & Hy & Hin)]; inversion Hy; subst; exact Hin.
  - intros Hin. destruct k; [left | right]; exists x; split; trivial.
Qed.

Lemma tagged_events_nodup : NoDup TL.
Proof.
  eapply Permutation_NoDup; [symmetry; apply tagged_events_perm|].
  apply NoDup_app; repeat split.
  - apply NoDup_map_injective; [|exact Hnodup].
    intros a b Hab. inversion Hab; reflexivity.
  - apply NoDup_map_injective; [|exact Hnodup].
    intros a b Hab. inversion Hab; reflexivity.
  - intros a Ha Hb. apply in_map_iff in Ha. apply in_map_iff in Hb.
    destruct Ha as (u & <- & _). destruct Hb as (v & Hv & _). discriminate Hv.
Qed.

Lemma tagged_events_sorted :
  StronglySorted (fun a b => (te_time a <= te_time b)%Q) TL.
Proof. apply (sorted_sorted te_time). Qed.

(** Of two events at the same time, a press never comes before a
    release. *)
Lemma tagged_events_tie (l1 l2 l3 : list tagged_event) (e1 e2 : tagged_event) :
  TL = l1 ++ e1 :: l2 ++ e2 :: l3 ->
  (te_time e1 == te_time e2)%Q ->
  snd e1 = EV_NOTE_ON -> snd e2 = EV_NOTE_OFF -> False.
Proof.
  intros Heq Ht H1 H2.
  pose proof (sorted_filter te_time (te_time e2)
                (map (fun x => (x, EV_NOTE_OFF)) recs
                 ++ map (fun x => (x, EV_NOTE_ON)) recs)) as Hst.
  cbv zeta in Hst. fold (tagged_events recs) in Hst. fold TL in Hst.
  rewrite Heq in Hst. rewrite !filter_app in Hst. cbn [filter] in Hst.
  rewrite filter_app in Hst. cbn [filter] in Hst.
  assert (P1 : Qeq_bool (te_time e1) (te_time e2) = true)
    by (apply Qeq_bool_iff; exact Ht).
  assert (P2 : Qeq_bool (te_time e2) (te_time e2) = true)
    by (apply Qeq_bool_iff; reflexivity).
  rewrite P1, P2 in Hst. symmetry in Hst.
  eapply (two_kinds_split_gen snd); [| |exact Hst|exact H1|exact H2].
  - apply Forall_forall. intros a Ha. apply filter_In in Ha.
    destruct Ha as (Ha & _). apply in_map_iff in Ha.
    destruct Ha as (u & <- & _). reflexivity.
  - apply Forall_forall. intros a Ha. apply filter_In in Ha.
    destruct Ha as (Ha & _). apply in_map_iff in Ha.
    destruct Ha as (u & <- & _). reflexivity.
Qed.

(** The press of a note comes before its release, and no event of the
    same pitch lies in between. *)
Lemma tagged_events_bracket (x : Row * Z) :
  In x recs ->
  exists A B C,
    TL = A ++ (x, EV_NOTE_ON) :: B ++ (x, EV_NOTE_OFF) :: C
    /\ Forall (fun e => te_pitch e <> pitch (fst x)) B.
Proof.
  intros Hx.
  assert (Hon : In (x, EV_NOTE_ON) TL) by (apply tagged_events_in; exact Hx).
  assert (Hoff : In (x, EV_NOTE_OFF) TL) by (apply tagged_events_in; exact Hx).
  pose proof tagged_events_sorted as Hs.
  pose proof tagged_events_nodup as Hnd.
  destruct (in_two_split _ _ TL Hon Hoff ltac:(discriminate))
    as [(A & B & C & Heq)|(A & B & C & Heq)].
  - exists A, B, C. split; [exact Heq|].
    apply Forall_forall. intros [y k] He Hp. unfold te_pitch in Hp. cbn [fst] in Hp.
    assert (Hy : In y recs).
    { apply (tagged_events_in y k). rewrite Heq. apply in_or_app. right. right.
      apply in_or_app. left. exact He. }
    assert (Hlo : (te_time (x, EV_NOTE_ON) <= te_time (y, k))%Q).
    { rewrite Heq in Hs.
      assert (Hs' : let R := fun a b : tagged_event => (te_time a <= te_time b)%Q in
                StronglySorted R ((A ++ [(x, EV_NOTE_ON)]) ++ B ++ (x, EV_NOTE_OFF) :: C))
        by (cbv zeta; rewrite <- app_assoc; exact Hs).
      cbv zeta in Hs'. clear Hs. rename Hs' into Hs.
      apply (StronglySorted_app_order _ _ _ Hs).
      - apply in_or_app. right. left. reflexivity.
      - apply in_or_app. left. exact He. }
    assert (Hhi : (te_time (y, k) <= te_time (x, EV_NOTE_OFF))%Q).
    { rewrite Heq in Hs.
      assert (Hs' : let R := fun a b : tagged_event => (te_time a <= te_time b)%Q in
                StronglySorted R ((A ++ (x, EV_NOTE_ON) :: B) ++ (x, EV_NOTE_OFF) :: C))
        by (cbv zeta; rewrite <- app_assoc; exact Hs).
      cbv zeta in Hs'. clear Hs. rename Hs' into Hs.
      apply (StronglySorted_app_order _ _ _ Hs).
      - apply in_or_app. right. right. exact He.
      - left. reflexivity. }
    unfold te_time, to_event in Hlo, Hhi. cbn [time fst snd] in Hlo, Hhi.
    destruct (in_split _ _ He) as (B1 & B2 & HB).
    assert (Hxy : y <> x).
    { intros ->. rewrite Heq in Hnd. destruct k.
      - assert (Hnd' : NoDup ((A ++ (x, EV_NOTE_ON) :: B) ++ (x, EV_NOTE_OFF) :: C))
          by (rewrite <- app_assoc; exact Hnd).
        apply NoDup_remove_2 in Hnd'. apply Hnd'.
        apply in_or_app. left. apply in_or_app. right. right. exact He.
      - apply NoDup_remove_2 in Hnd. apply Hnd.
        apply in_or_app. right. apply in_or_app. left. exact He. }
    pose proof (Hlength x Hx) as Lx. pose proof (Hlength y Hy) as Ly.
    destruct (Hapart y x Hy Hx Hxy Hp) as [Hd|Hd]; destruct k.
    + (* a release of y no later than the press of x, found after it *)
      apply (tagged_events_tie A (B1) (B2 ++ (x, EV_NOTE_OFF) :: C)
               (x, EV_NOTE_ON) (y, EV_NOTE_OFF)).
      * rewrite Heq, HB, <- app_assoc. reflexivity.
      * unfold te_time, to_event. cbn [time fst snd]. lra.
      * reflexivity.
      * reflexivity.
    + lra.
    + lra.
    + (* a press of y no earlier than the release of x, found before it *)
      apply (tagged_events_tie (A ++ (x, EV_NOTE_ON) :: B1) B2 C
               (y, EV_NOTE_ON) (x, EV_NOTE_OFF)).
      * rewrite Heq, HB, <- !app_assoc. reflexivity.
      * unfold te_time, to_event. cbn [time fst snd]. lra.
      * reflexivity.
      * reflexivity.
  - exfalso. rewrite Heq in Hs.
    assert (Hle : (te_time (x, EV_NOTE_OFF) <= te_time (x, EV_NOTE_ON))%Q).
    { assert (Hs' : let R := fun a b : tagged_event => (te_time a <= te_time b)%Q in
           StronglySorted R ((A ++ [(x, EV_NOTE_OFF)]) ++ B ++ (x, EV_NOTE_ON) :: C))
   by (cbv zeta; rewrite <- app_assoc; exact Hs).
 cbv zeta in Hs'. clear Hs. rename Hs' into Hs.
      apply (StronglySorted_app_order _ _ _ Hs).
      - apply in_or_app. right. left. reflexivity.
      - apply in_or_app. right. left. reflexivity. }
    unfold te_time, to_event in Hle. cbn [time fst snd] in Hle.
    pose proof (Hlength x Hx). lra.
Qed.

End Brackets.

Lemma NoDup_split_unique {A : Type} (a : A) (l1 l2 l1' l2' : list A) :
  NoDup (l1 ++ a :: l2) -> l1 ++ a :: l2 = l1' ++ a :: l2' ->
  l1 = l1' /\ l2 = l2'.
Proof.
  revert l1'. induction l1 as [|x l1 IH]; intros l1' Hnd Heq.
  - destruct l1' as [|y l1']; cbn [app] in Heq.
    + inversion Heq. split; reflexivity.
    + inversion Heq; subst. cbn [app] in Hnd. inversion Hnd as [|? ? Hn _]; subst.
      exfalso. apply Hn. apply in_or_app. right. left. reflexivity.
  - destruct l1' as [|y l1']; cbn [app] in Heq.
    + inversion Heq; subst. cbn [app] in Hnd. inversion Hnd as [|? ? Hn _]; subst.
      exfalso. apply Hn. apply in_or_app. right. left. reflexivity.
    + inversion Heq; subst. cbn [app] in Hnd. inversion Hnd; subst.
      destruct (IH l1') as (-> & ->); [assumption | assumption |].
      split; reflexivity.
Qed.

(** A duplicate-free list in which every press is at once followed by
    the release of the same note, and every release has its press, is a
    sequence of press/release pairs. *)
Lemma bracketed_pairs (n : nat) :
  forall M : list tagged_event,
    (length M <= n)%nat ->
    NoDup M ->
    (forall x, In (x, EV_NOTE_OFF) M -> In (x, EV_NOTE_ON) M) ->
    (forall x, In (x, EV_NOTE_ON) M ->
               exists u w, M = u ++ (x, EV_NOTE_ON) :: (x, EV_NOTE_OFF) :: w) ->
    exists xs, M = flat_map press_release xs.
Proof.
  induction n as [|n IH]; intros M Hlen Hnd Hoff Hon.
  - destruct M; [exists []; reflexivity | cbn in Hlen; lia].
  - destruct M as [|[x k] M']; [exists []; reflexivity|].
    assert (Hx : In (x, EV_NOTE_ON) ((x, k) :: M')).
    { destruct k; [apply Hoff; left; reflexivity | left; reflexivity]. }
    destruct (Hon x Hx) as (u & w & Heq).
    assert (Hu : u = [] /\ k = EV_NOTE_ON).
    { destruct u as [|a u]; cbn [app] in Heq.
      - inversion Heq. split; reflexivity.
      - exfalso. inversion Heq; subst. destruct k.
        + (* the head is the release, met again behind its press *)
          inversion Hnd as [|? ? Hn _]; subst. apply Hn.
          apply in_or_app. right. right. left. reflexivity.
        + inversion Hnd as [|? ? Hn _]; subst. apply Hn.
          apply in_or_app. right. left. reflexivity. }
    destruct Hu as (-> & ->). cbn [app] in Heq. inversion Heq; subst M'. clear Heq.
    inversion Hnd as [|? ? Hn1 Hnd1]; subst.
    inversion Hnd1 as [|? ? Hn2 Hnd2]; subst.
    destruct (IH w) as (xs & Hxs).
    + cbn [length] in Hlen. lia.
    + exact Hnd2.
    + intros y Hy.
      assert (Hy' : In (y, EV_NOTE_ON) ((x, EV_NOTE_ON) :: (x, EV_NOTE_OFF) :: w))
        by (apply Hoff; right; right; exact Hy).
      destruct Hy' as [Hy'|[Hy'|Hy']]; [|discriminate Hy'|exact Hy'].
      inversion Hy'; subst y. exfalso. apply Hn2. exact Hy.
    + intros y Hy.
      destruct (Hon y) as (u & w' & Heq); [right; right; exact Hy|].
      destruct u as [|a [|b u]]; cbn [app] in Heq.
      * inversion Heq; subst. exfalso. apply Hn1. right. exact Hy.
      * inversion Heq.
      * inversion Heq; subst. exists u, w'. reflexivity.
    + exists (x :: xs). cbn [flat_map press_release app]. rewrite Hxs. reflexivity.
Qed.

Lemma press_release_on (xs : list (Row * Z)) :
  filter is_on (flat_map press_release xs) = map (fun x => (x, EV_NOTE_ON)) xs.
Proof.
  induction xs as [|x xs IH]; [reflexivity|].
  cbn [flat_map press_release app filter is_on snd map]. rewrite IH. reflexivity.
Qed.

Lemma press_release_off (xs : list (Row * Z)) :
  filter is_off (flat_map press_release xs) = map (fun x => (x, EV_NOTE_OFF)) xs.
Proof.
  induction xs as [|x xs IH]; [reflexivity|].
  cbn [flat_map press_release app filter is_off snd map]. rewrite IH. reflexivity.
Qed.

Section BracketsByPitch.

Variable recs : list (Row * Z).
Hypothesis Hnodup : NoDup recs.
Hypothesis Hlength : forall x, In x recs -> (start (fst x) < end_ (fst x))%Q.
Hypothesis Hapart :
  forall x y, In x recs -> In y recs -> x <> y ->
    pitch (fst x) = pitch (fst y) ->
    (end_ (fst x) <= start (fst y))%Q \/ (end_ (fst y) <= start (fst x))%Q.

(** Pitch by pitch, the sorted events are press/release pairs. *)
Lemma tagged_events_by_pitch (p : Z) :
  exists xs,
    filter (with_key te_pitch p) (tagged_events recs) = flat_map press_release xs.
Proof.
  apply (bracketed_pairs (length (filter (with_key te_pitch p) (tagged_events recs))));
    [lia | | |].
  - apply NoDup_filter. apply tagged_events_nodup. exact Hnodup.
  - intros x Hx. apply filter_In in Hx. destruct Hx as (Hx & Hp).
    apply filter_In. split; [|exact Hp].
    apply tagged_events_in. apply (tagged_events_in recs x EV_NOTE_OFF). exact Hx.
  - intros x Hx. apply filter_In in Hx. destruct Hx as (Hx & Hp).
    apply tagged_events_in in Hx.
    destruct (tagged_events_bracket recs Hnodup Hlength Hapart x Hx)
      as (A & B & C & Heq & HB).
    exists (filter (with_key te_pitch p) A), (filter (with_key te_pitch p) C).
    rewrite Heq. rewrite filter_app. rewrite (filter_cons_eq (with_key te_pitch p)).
    rewrite Hp. f_equal. f_equal. rewrite filter_app.
    rewrite (filter_cons_eq (with_key te_pitch p)).
    change (with_key te_pitch p (x, EV_NOTE_OFF)) with (with_key te_pitch p (x, EV_NOTE_ON)).
    rewrite Hp.
    match goal with
    | |- ?l ++ _ = _ => assert (HBp : l = [])
    end.
    { clear - HB Hp. unfold with_key in Hp. apply Z.eqb_eq in Hp.
      change (pitch (fst x) = p) in Hp.
      induction HB as [|e B He _ IH]; [reflexivity|].
      rewrite filter_cons_eq. unfold with_key at 1.
      assert (Hne : (te_pitch e =? p) = false) by (apply Z.eqb_neq; congruence).
      rewrite Hne. exact IH. }
    rewrite HBp. reflexivity.
Qed.

End BracketsByPitch.

(** ** Encoding, block by block *)

Section Blocks.

Variable self : NoLossTokenizer.
Variable K : nat.
Hypothesis Hbuilt : built self K.

Lemma event_tokens_inv (e : Event) (toks : list token) :
  event_tokens self e = Ok toks ->
  toks = [VELOCITY (ev_velocity_bin e);
          match event e with
          | EV_NOTE_ON => NOTE_ON (ev_pitch e)
          | EV_NOTE_OFF => NOTE_OFF (ev_pitch e)
          end]
  /\ 0 <= ev_velocity_bin e < n_velocity_bins self
  /\ 21 <= ev_pitch e < 109.
Proof.
  intros H. unfold event_tokens in H.
  rewrite (velocity_bin_to_token_get self K Hbuilt) in H.
  destruct ((0 <=? ev_velocity_bin e) && (ev_velocity_bin e <? n_velocity_bins self))
    eqn:Eb; cbn [get_or bind] in H; [|discriminate H].
  destruct (event e).
  - rewrite (pitch_to_off_token_get self K Hbuilt) in H.
    destruct ((21 <=? ev_pitch e) && (ev_pitch e <? 109)) eqn:Ep;
      cbn [get_or bind] in H; [|discriminate H].
    inversion H. split; [reflexivity|]. split; lia.
  - rewrite (pitch_to_on_token_get self K Hbuilt) in H.
    destruct ((21 <=? ev_pitch e) && (ev_pitch e <? 109)) eqn:Ep;
      cbn [get_or bind] in H; [|discriminate H].
    inversion H. split; [reflexivity|]. split; lia.
Qed.

Lemma tokenize_events_tagged (fuel : nat) (tes : list tagged_event) :
  forall previous_time tokens out,
    tokenize_events self fuel (map to_event tes) previous_time tokens = Ok out ->
    exists blocks,
      out = tokens ++ concat blocks /\ blocks_of self previous_time tes blocks.
Proof.
  induction tes as [|te tes IH]; intros prev tokens out H.
  - cbn in H. inversion H; subst. exists []. cbn. rewrite app_nil_r.
    split; [reflexivity | constructor].
  - cbn [map tokenize_events] in H. inv_bind H. inv_bind H.
    apply IH in H. destruct H as (blocks & -> & Hblocks).
    apply event_tokens_inv in E0. destruct E0 as (-> & Hbin & Hpitch).
    unfold tokenize_time_distance in E.
    destruct (tokenize_time_distance_loop_sound self K Hbuilt _ _ _ _ _ _ 0%Q E
                (Forall_nil _) eq_refl (Qeq_refl 0))
      as (Hrungs & total & Hdec & Hclose).
    exists ((a ++ [VELOCITY (snd (fst te)); te_note_token te]) :: blocks). split.
    + cbn [concat]. rewrite <- !app_assoc.
      destruct te as [[r b] []]; reflexivity.
    + econstructor; [|exact Hblocks]. exists a.
      split; [reflexivity|]. split; [exact Hrungs|]. split; [exact Hdec|].
      split; [exact Hclose|]. split; [exact Hbin | exact Hpitch].
Qed.

(** ** Repair leaves the encoder's output alone *)

Lemma fix_scan_time_tokens (st : fix_state) (tt : list token) :
  Forall (is_rung self) tt -> fix_scan self st tt = Ok st.
Proof.
  induction 1 as [|t tt (k & d & -> & _) _ IH]; [reflexivity|].
  cbn [fix_scan fix_step bind]. exact IH.
Qed.

Lemma pressed_is_set (pressed : list Z) (f : Z -> Z) (p v : Z) :
  pressed_is pressed f -> 0 <= p < 110 ->
  exists pressed',
    array_set pressed p v = Ok pressed'
    /\ pressed_is pressed' (fun k => if k =? p then v else f k).
Proof.
  intros (Hlen & Hval) Hp. unfold array_set.
  rewrite array_index_ok by (rewrite Hlen; lia). cbn [bind].
  eexists. split; [reflexivity|]. split.
  - rewrite length_update by (rewrite Hlen; lia). exact Hlen.
  - intros k Hk. rewrite nth_error_update by (rewrite Hlen; lia).
    destruct (k =? Z.to_nat p)%nat eqn:E.
    + apply Nat.eqb_eq in E. replace (Z.of_nat k =? p) with true by lia. reflexivity.
    + apply Nat.eqb_neq in E. replace (Z.of_nat k =? p) with false by lia.
      apply Hval. exact Hk.
Qed.

Lemma pressed_is_get (pressed : list Z) (f : Z -> Z) (p : Z) :
  pressed_is pressed f -> 0 <= p < 110 -> array_get pressed p = Ok (f p).
Proof.
  intros (Hlen & Hval) Hp. unfold array_get.
  rewrite array_index_ok by (rewrite Hlen; lia). cbn [bind].
  rewrite Hval by lia. rewrite Z2Nat.id by lia. reflexivity.
Qed.

Lemma fix_scan_block (previous_time : Q) (te : tagged_event)
  (block : list token) (d : Q) (st : fix_state) (f : Z -> Z) :
  te_block self previous_time te block d ->
  pressed_is (fx_pressed st) f ->
  (snd te = EV_NOTE_OFF -> f (te_pitch te) <> -1) ->
  exists st',
    fix_scan self st block = Ok st'
    /\ fx_tokens st' = fx_tokens st
    /\ pressed_is (fx_pressed st') (press_step f te).
Proof.
  intros (tt & -> & Hrungs & _ & _ & Hbin & Hpitch) Hpr Hoff.
  rewrite fix_scan_app, fix_scan_time_tokens by exact Hrungs.
  cbn [bind fix_scan fix_step].
  destruct te as [[r b] k]. cbn [fst snd] in *. unfold te_note_token, te_pitch in *.
  cbn [fst snd] in *. destruct k.
  - (* release *)
    cbn [fix_step fx_tokens fx_pressed fx_current_velocity_token].
    rewrite (token_to_pitch_get self K Hbuilt).
    replace ((21 <=? pitch r) && (pitch r <? 109)) with true by lia.
    cbn [get_or bind].
    rewrite (pressed_is_get _ _ _ Hpr) by lia. cbn [bind].
    specialize (Hoff eq_refl).
    replace (f (pitch r) =? -1) with false by lia. cbn [bind].
    destruct (pressed_is_set _ _ (pitch r) (-1) Hpr ltac:(lia)) as (pr' & Hset & Hpr').
    rewrite Hset. cbn [bind]. eexists. split; [reflexivity|].
    split; [reflexivity|]. exact Hpr'.
  - (* press *)
    cbn [fix_step fx_tokens fx_pressed fx_current_velocity_token].
    rewrite (token_to_velocity_bin_get self K Hbuilt).
    replace ((0 <=? b) && (b <? n_velocity_bins self)) with true by lia.
    cbn [get_or bind].
    rewrite (token_to_pitch_get self K Hbuilt).
    replace ((21 <=? pitch r) && (pitch r <? 109)) with true by lia.
    cbn [get_or bind].
    destruct (pressed_is_set _ _ (pitch r) b Hpr ltac:(lia)) as (pr' & Hset & Hpr').
    rewrite Hset. cbn [bind]. eexists. split; [reflexivity|].
    split; [reflexivity|]. exact Hpr'.
Qed.

Lemma fix_scan_blocks (previous_time : Q) (tes : list tagged_event)
  (blocks : list (list token)) :
  blocks_of self previous_time tes blocks ->
  forall st f,
    pressed_is (fx_pressed st) f ->
    (forall l1 x l2, tes = l1 ++ (x, EV_NOTE_OFF) :: l2 ->
                     pressed_after f l1 (pitch (fst x)) <> -1) ->
    exists st',
      fix_scan self st (concat blocks) = Ok st'
      /\ fx_tokens st' = fx_tokens st
      /\ pressed_is (fx_pressed st') (pressed_after f tes).
Proof.
  induction 1 as [prev|prev te tes block blocks d Hb _ IH]; intros st f Hpr Hno.
  - exists st. cbn. repeat split; try reflexivity; apply Hpr.
  - destruct (fix_scan_block _ _ _ _ st f Hb Hpr) as (st1 & H1 & Ht1 & Hpr1).
    { intros Hk. destruct te as [x k]. cbn [snd] in Hk. subst k.
      apply (Hno [] x tes). reflexivity. }
    destruct (IH st1 (press_step f te) Hpr1) as (st2 & H2 & Ht2 & Hpr2).
    { intros l1 x l2 Heq. apply (Hno (te :: l1) x l2). rewrite Heq. reflexivity. }
    exists st2. cbn [concat]. rewrite fix_scan_app, H1. cbn [bind].
    split; [exact H2|]. split; [congruence|]. exact Hpr2.
Qed.

Lemma fix_release_none (tokens : list token) (keyed : list (Z * Z)) :
  Forall (fun ks => snd ks = -1) keyed ->
  fix_release self tokens keyed = Ok tokens.
Proof.
  induction 1 as [|[key state] keyed Hs _ IH]; [reflexivity|].
  cbn [snd] in Hs. subst state. cbn [fix_release Z.leb Z.compare]. exact IH.
Qed.

End Blocks.

Lemma pressed_after_free (k : Z) (l : list tagged_event) :
  Forall (fun e => te_pitch e <> k) l ->
  forall f, pressed_after f l k = f k.
Proof.
  unfold pressed_after. induction 1 as [|e l He _ IH]; intros f; [reflexivity|].
  cbn [fold_left]. rewrite IH. unfold press_step.
  replace (k =? te_pitch e) with false by lia. reflexivity.
Qed.

Lemma pressed_after_app (f : Z -> Z) (l1 l2 : list tagged_event) :
  pressed_after f (l1 ++ l2) = pressed_after (pressed_after f l1) l2.
Proof. unfold pressed_after. apply fold_left_app. Qed.

(** A key that is pressed after [l] was last touched by a press. *)
Lemma pressed_after_last_press (k : Z) (f : Z -> Z) (l : list tagged_event) :
  f k = -1 -> pressed_after f l k <> -1 ->
  exists l1 x l2,
    l = l1 ++ (x, EV_NOTE_ON) :: l2 /\ pitch (fst x) = k
    /\ Forall (fun e => te_pitch e <> k) l2.
Proof.
  intros Hf. induction l as [|e l IH] using rev_ind; intros H.
  - cbn in H. contradiction.
  - rewrite pressed_after_app in H. cbn [pressed_after fold_left] in H.
    unfold press_step in H. destruct (k =? te_pitch e) eqn:E.
    + destruct e as [x []]; cbn [snd] in H; [contradiction|].
      exists l, x, []. split; [reflexivity|]. split; [|constructor].
      apply Z.eqb_eq in E. symmetry. exact E.
    + destruct (IH H) as (l1 & x & l2 & -> & Hp & Hfree).
      exists l1, x, (l2 ++ [e]). split; [rewrite <- app_assoc; reflexivity|].
      split; [exact Hp|]. apply Forall_app. split; [exact Hfree|].
      constructor; [|constructor]. apply Z.eqb_neq in E. congruence.
Qed.

Section NoOrphan.

Variable recs : list (Row * Z).
Hypothesis Hnodup : NoDup recs.
Hypothesis Hlength : forall x, In x recs -> (start (fst x) < end_ (fst x))%Q.
Hypothesis Hapart :
  forall x y, In x recs -> In y recs -> x <> y ->
    pitch (fst x) = pitch (fst y) ->
    (end_ (fst x) <= start (fst y))%Q \/ (end_ (fst y) <= start (fst x))%Q.
Hypothesis Hbins : forall x, In x recs -> 0 <= snd x.

(** When a release is reached its key is pressed. *)
Lemma tagged_events_no_orphan (l1 l2 : list tagged_event) (x : Row * Z) :
  tagged_events recs = l1 ++ (x, EV_NOTE_OFF) :: l2 ->
  pressed_after (fun _ => -1) l1 (pitch (fst x)) <> -1.
Proof.
  intros Heq.
  assert (Hx : In x recs).
  { apply (tagged_events_in recs x EV_NOTE_OFF). rewrite Heq.
    apply in_or_app. right. left. reflexivity. }
  destruct (tagged_events_bracket recs Hnodup Hlength Hapart x Hx)
    as (A & B & C & HTL & HB).
  pose proof (tagged_events_nodup recs Hnodup) as Hnd.
  assert (HTL' : tagged_events recs
                 = (A ++ (x, EV_NOTE_ON) :: B) ++ (x, EV_NOTE_OFF) :: C)
    by (rewrite HTL, <- app_assoc; reflexivity).
  rewrite HTL' in Hnd. rewrite HTL' in Heq.
  destruct (NoDup_split_unique _ _ _ _ _ Hnd Heq) as (<- & _).
  rewrite pressed_after_app. cbn [pressed_after fold_left].
  fold (pressed_after (press_step (pressed_after (fun _ => -1) A) (x, EV_NOTE_ON)) B).
  rewrite pressed_after_free by exact HB.
  unfold press_step. cbn [te_pitch fst snd]. rewrite Z.eqb_refl.
  pose proof (Hbins x Hx). lia.
Qed.

(** At the end no key is pressed. *)
Lemma tagged_events_all_released (k : Z) :
  pressed_after (fun _ => -1) (tagged_events recs) k = -1.
Proof.
  destruct (Z.eq_dec (pressed_after (fun _ => -1) (tagged_events recs) k) (-1))
    as [H|H]; [exact H|]. exfalso.
  apply pressed_after_last_press in H; [|reflexivity].
  destruct H as (l1 & x & l2 & Heq & Hp & Hfree).
  assert (Hx : In x recs).
  { apply (tagged_events_in recs x EV_NOTE_ON). rewrite Heq.
    apply in_or_app. right. left. reflexivity. }
  destruct (tagged_events_bracket recs Hnodup Hlength Hapart x Hx)
    as (A & B & C & HTL & _).
  pose proof (tagged_events_nodup recs Hnodup) as Hnd.
  rewrite HTL in Hnd. rewrite HTL in Heq.
  destruct (NoDup_split_unique _ _ _ _ _ Hnd Heq) as (_ & <-).
  rewrite Forall_forall in Hfree.
  apply (Hfree (x, EV_NOTE_OFF)).
  - apply in_or_app. right. left. reflexivity.
  - exact Hp.
Qed.

End NoOrphan.

(** ** Decoding, block by block *)

Lemma untokenize_scan_app (self : NoLossTokenizer) (l1 l2 : list token) :
  forall st,
    untokenize_scan self st (l1 ++ l2) =
    (st1 <- untokenize_scan self st l1 ;; untokenize_scan self st1 l2).
Proof.
  induction l1 as [|t l1 IH]; intros st; simpl; [reflexivity|].
  destruct (untokenize_step self st t); cbn [bind];
    [apply IH | reflexivity | reflexivity].
Qed.

Lemma decode_time_tokens_shift (self : NoLossTokenizer) (tt : list token) :
  forall a b ra,
    decode_time_tokens self a tt = Ok ra ->
    exists rb, decode_time_tokens self b tt = Ok rb /\ (rb - b == ra - a)%Q.
Proof.
  induction tt as [|t tt IH]; intros a b ra H; cbn [decode_time_tokens] in *.
  - inversion H; subst. exists b. split; [reflexivity|]. ring.
  - inv_bind H. cbn [bind].
    destruct (IH _ (b + a0)%Q _ H) as (rb & Hrb & Heq).
    exists rb. split; [exact Hrb|]. 
    setoid_replace (rb - b)%Q with (rb - (b + a0) + a0)%Q by ring.
    rewrite Heq. ring.
Qed.

Section Decoding.

Variable self : NoLossTokenizer.
Variable K : nat.
Hypothesis Hbuilt : built self K.

Lemma untokenize_scan_time_tokens (tt : list token) :
  forall st t',
    Forall (is_rung self) tt ->
    decode_time_tokens self (current_time st) tt = Ok t' ->
    exists st',
      untokenize_scan self st tt = Ok st'
      /\ current_time st' = t'
      /\ current_velocity st' = current_velocity st
      /\ ut_note_on_events st' = ut_note_on_events st
      /\ ut_note_off_events st' = ut_note_off_events st.
Proof.
  induction tt as [|t tt IH]; intros st t' Hall Hdec.
  - cbn in Hdec. inversion Hdec; subst. exists st. repeat split.
  - inversion Hall as [|? ? (k & d & -> & _) Hall']; subst.
    cbn [decode_time_tokens] in Hdec. inv_bind Hdec.
    cbn [untokenize_scan untokenize_step]. rewrite E. cbn [bind].
    match goal with
    | |- exists st', untokenize_scan self ?s tt = _ /\ _ =>
        destruct (IH s t' Hall' Hdec) as (st' & Hs & Ht & Hv & Hon & Hoff)
    end.
    exists st'. split; [exact Hs|]. split; [exact Ht|].
    split; [exact Hv|]. split; [exact Hon | exact Hoff].
Qed.

Lemma untokenize_scan_block (previous_time : Q) (te : tagged_event)
  (block : list token) (d : Q) (st : untokenize_state) :
  te_block self previous_time te block d ->
  decodable self te ->
  exists st',
    untokenize_scan self st block = Ok st'
    /\ (current_time st' - current_time st == d)%Q
    /\ ut_note_on_events st'
       = ut_note_on_events st
         ++ map (mk_on self) (filter it_on [(te, current_time st')])
    /\ ut_note_off_events st'
       = ut_note_off_events st
         ++ map mk_off (filter it_off [(te, current_time st')]).
Proof.
  intros (tt & -> & Hrungs & Hdec & _ & Hbin & Hpitch) (v & Hv).
  destruct (decode_time_tokens_shift self tt _ (current_time st) _ Hdec)
    as (t' & Ht' & Hshift).
  destruct (untokenize_scan_time_tokens tt st t' Hrungs Ht')
    as (st1 & Hs1 & Ht1 & _ & Hon1 & Hoff1).
  rewrite untokenize_scan_app, Hs1. cbn [bind untokenize_scan untokenize_step].
  rewrite (token_to_velocity_bin_get self K Hbuilt).
  replace ((0 <=? snd (fst te)) && (snd (fst te) <? n_velocity_bins self))
    with true by lia.
  cbn [get_or bind]. rewrite Hv. cbn [bind].
  destruct te as [[r b] k]. unfold te_note_token, te_pitch in *.
  cbn [fst snd] in *. destruct k; cbn [untokenize_step];
    rewrite (token_to_pitch_get self K Hbuilt);
    replace ((21 <=? pitch r) && (pitch r <? 109)) with true by lia;
    cbn [get_or bind]; eexists; (split; [reflexivity|]);
    cbn [current_time ut_note_on_events ut_note_off_events];
    rewrite Ht1; (split; [rewrite Hshift; ring|]).
  - cbn [filter it_on it_off is_on is_off fst snd map].
    rewrite app_nil_r, Hon1, Hoff1. split; reflexivity.
  - cbn [filter it_on it_off is_on is_off fst snd map].
    rewrite app_nil_r, Hon1, Hoff1. split; [|reflexivity].
    unfold mk_on, vel_of, te_pitch. cbn [fst snd]. rewrite Hv. reflexivity.
Qed.

Lemma scale_mono (a b : Z) :
  a <= b -> (inject_Z a * eps self <= inject_Z b * eps self)%Q.
Proof.
  intros H. apply Qmult_le_compat_r.
  - rewrite <- Zle_Qle. exact H.
  - apply Qlt_le_weak. apply (eps_positive self K Hbuilt).
Qed.

Lemma untokenize_scan_blocks (previous_time : Q) (tes : list tagged_event)
  (blocks : list (list token)) :
  blocks_of self previous_time tes blocks ->
  forall st c,
    Forall (decodable self) tes ->
    (Qabs (current_time st - previous_time) <= inject_Z c * eps self)%Q ->
    exists st' its,
      untokenize_scan self st (concat blocks) = Ok st'
      /\ map fst its = tes
      /\ ut_note_on_events st'
         = ut_note_on_events st ++ map (mk_on self) (filter it_on its)
      /\ ut_note_off_events st'
         = ut_note_off_events st ++ map mk_off (filter it_off its)
      /\ Forall (fun it =>
                   (Qabs (snd it - te_time (fst it))
                    < inject_Z (c + Z.of_nat (length tes)) * eps self)%Q) its.
Proof.
  induction 1 as [prev|prev te tes block blocks d Hb _ IH]; intros st c Hdec Hacc.
  - exists st, []. cbn. rewrite !app_nil_r. repeat split. constructor.
  - inversion Hdec as [|? ? Hd Hdec']; subst.
    destruct (untokenize_scan_block _ _ _ _ st Hb Hd)
      as (st1 & Hs1 & Ht1 & Hon1 & Hoff1).
    assert (Hclose : (Qabs (te_time te - prev - d) < eps self)%Q).
    { destruct Hb as (tt & _ & _ & _ & Hc & _). exact Hc. }
    assert (Hnew : (Qabs (current_time st1 - te_time te)
                    < inject_Z (c + 1) * eps self)%Q).
    { rewrite inject_Z_plus. set (E := (inject_Z c * eps self)%Q) in *.
      setoid_replace ((inject_Z c + inject_Z 1) * eps self)%Q
        with (E + eps self)%Q by (unfold E; ring).
      apply Qabs_Qlt_condition. apply Qabs_Qlt_condition in Hclose.
      apply Qabs_Qle_condition in Hacc. lra. }
    destruct (IH st1 (c + 1)) as (st2 & its & Hs2 & Hmap & Hon2 & Hoff2 & Hall).
    + exact Hdec'.
    + apply Qlt_le_weak. exact Hnew.
    + exists st2, ((te, current_time st1) :: its).
      cbn [concat]. rewrite untokenize_scan_app, Hs1. cbn [bind].
      split; [exact Hs2|]. split; [cbn [map fst]; rewrite Hmap; reflexivity|].
      split; [|split].
      * rewrite Hon2, Hon1, <- app_assoc. f_equal.
        rewrite <- map_app. f_equal.
        change ((te, current_time st1) :: its)
          with ([(te, current_time st1)] ++ its).
        rewrite filter_app. reflexivity.
      * rewrite Hoff2, Hoff1, <- app_assoc. f_equal.
        rewrite <- map_app. f_equal.
        change ((te, current_time st1) :: its)
          with ([(te, current_time st1)] ++ its).
        rewrite filter_app. reflexivity.
      * constructor.
        -- cbn [fst snd]. eapply Qlt_le_trans; [exact Hnew|].
           apply scale_mono. cbn [length]. lia.
        -- eapply Forall_impl; [|exact Hall]. intros it Hit.
           cbn [length]. 
           replace (c + Z.of_nat (S (length tes))) with (c + 1 + Z.of_nat (length tes))
             by lia.
           exact Hit.
Qed.

End Decoding.

(** ** The velocity quantizer below the top edge *)

Lemma nth_error_range (a b : Z) (i : nat) :
  (i < Z.to_nat (b - a))%nat -> nth_error (range a b) i = Some (a + Z.of_nat i).
Proof.
  intros H. unfold range. rewrite nth_error_map, nth_error_seq.
  replace (i <? Z.to_nat (b - a))%nat with true
    by (symmetry; apply Nat.ltb_lt; exact H).
  reflexivity.
Qed.

Lemma sorted_map_range (f : Z -> Z) (a b : Z) :
  (forall i j, a <= i <= j -> j < b -> f i <= f j) ->
  StronglySorted Z.le (map f (range a b)).
Proof.
  revert a b.
  refine (range_ind (fun a b => (forall i j, a <= i <= j -> j < b -> f i <= f j)
                                -> StronglySorted Z.le (map f (range a b))) _ _).
  - intros a b H _. rewrite range_nil by lia. constructor.
  - intros a b H IH Hmono. rewrite range_cons by lia. cbn [map]. constructor.
    + apply IH. intros i j Hij Hj. apply Hmono; lia.
    + apply Forall_forall. intros y Hy. apply in_map_iff in Hy.
      destruct Hy as (j & <- & Hj). apply in_range in Hj. apply Hmono; lia.
Qed.

(** In a sorted list the edges not above [v] form a prefix. *)
Lemma sorted_filter_prefix (v : Z) (l : list Z) :
  StronglySorted Z.le l ->
  exists c,
    filter (fun b => b <=? v) l = firstn c l
    /\ Forall (fun e => v < e) (skipn c l)
    /\ (c <= length l)%nat.
Proof.
  induction 1 as [|x l Hs IH Hx].
  - exists 0%nat. repeat split; constructor.
  - destruct (x <=? v) eqn:E.
    + destruct IH as (c & Hf & Hsk & Hc). exists (S c).
      cbn [filter firstn skipn length]. rewrite E, Hf.
      repeat split; [exact Hsk | lia].
    + exists 0%nat. cbn [filter firstn skipn length]. rewrite E.
      assert (Hall : Forall (fun e => v < e) (x :: l)).
      { constructor; [lia|]. eapply Forall_impl; [|exact Hx]. intros e He. cbn in He. lia. }
      split; [|split; [exact Hall | lia]].
      inversion Hall as [|? ? _ Hl]; subst. clear - Hl.
      induction Hl as [|e l He _ IH]; [reflexivity|].
      cbn [filter]. replace (e <=? v) with false by lia. exact IH.
Qed.

Lemma digitize_brackets (v : Z) (l : list Z) :
  StronglySorted Z.le l ->
  (forall i e, (i < Z.to_nat (digitize v l))%nat -> nth_error l i = Some e -> e <= v)
  /\ (forall e, nth_error l (Z.to_nat (digitize v l)) = Some e -> v < e)
  /\ 0 <= digitize v l <= Z.of_nat (length l).
Proof.
  intros Hs. destruct (sorted_filter_prefix v l Hs) as (c & Hf & Hsk & Hc).
  assert (Hd : digitize v l = Z.of_nat c).
  { unfold digitize. rewrite Hf, length_firstn. lia. }
  rewrite Hd, Nat2Z.id. split; [|split; [|lia]].
  - intros i e Hi Hn.
    assert (Hin : In e (filter (fun b => b <=? v) l)).
    { rewrite Hf. apply (nth_error_In _ i). rewrite nth_error_firstn.
      replace (i <? c)%nat with true by (symmetry; apply Nat.ltb_lt; exact Hi).
      exact Hn. }
    apply filter_In in Hin. lia.
  - intros e Hn. rewrite Forall_forall in Hsk. apply Hsk.
    apply (nth_error_In _ 0). rewrite nth_error_skipn, Nat.add_0_r. exact Hn.
Qed.

Lemma _build_velocity_decoder_nth (l : list Z) :
  forall i lo hi,
    nth_error l i = Some lo -> nth_error l (S i) = Some hi ->
    nth_error (_build_velocity_decoder l) i = Some (Z.quot (lo + hi) 2).
Proof.
  induction l as [|e0 l IH]; intros i lo hi Hlo Hhi.
  - destruct i; discriminate Hlo.
  - destruct l as [|e1 l].
    + destruct i; cbn in Hhi; [discriminate Hhi | destruct i; discriminate Hhi].
    + destruct i as [|i].
      * cbn in Hlo, Hhi. inversion Hlo; inversion Hhi; subst. reflexivity.
      * cbn [_build_velocity_decoder nth_error]. apply IH; assumption.
Qed.

Section VelocityQuantizer.

Variable self : NoLossTokenizer.
Variable K : nat.
Hypothesis Hbuilt : built self K.
Hypothesis Hbins : 2 <= n_velocity_bins self.

Lemma velocity_bin_edges_eq :
  velocity_bin_edges self
  = map (fun i => (127 * i) / (n_velocity_bins self - 1))
        (range 0 (n_velocity_bins self)).
Proof.
  pose proof (built_edges _ _ Hbuilt) as H. unfold linspace_int in H.
  replace (n_velocity_bins self <? 0) with false in H by lia.
  replace (n_velocity_bins self =? 1) with false in H by lia.
  inversion H. reflexivity.
Qed.

Lemma velocity_bin_edges_nth (i : Z) :
  0 <= i < n_velocity_bins self ->
  nth_error (velocity_bin_edges self) (Z.to_nat i)
  = Some ((127 * i) / (n_velocity_bins self - 1)).
Proof.
  intros Hi. rewrite velocity_bin_edges_eq, nth_error_map.
  rewrite nth_error_range by lia. cbn [option_map]. f_equal. f_equal. lia.
Qed.

Lemma velocity_bin_edges_sorted : StronglySorted Z.le (velocity_bin_edges self).
Proof.
  rewrite velocity_bin_edges_eq. apply sorted_map_range.
  intros i j Hij Hj. apply Z.div_le_mono; lia.
Qed.

(** Below 127 a velocity falls between two neighbouring edges, its bin
    has a symbol and a decoder entry, and the velocity decoded is within
    half the width of the bin. *)
Lemma quantize_velocity_decodes (v : Z) :
  0 <= v < 127 ->
  exists lo hi v',
    0 <= quantize_velocity self v < n_velocity_bins self - 1
    /\ nth_error (velocity_bin_edges self) (Z.to_nat (quantize_velocity self v))
       = Some lo
    /\ nth_error (velocity_bin_edges self) (S (Z.to_nat (quantize_velocity self v)))
       = Some hi
    /\ lo <= v < hi
    /\ list_get (bin_to_velocity self) (quantize_velocity self v) = Ok v'
    /\ 2 * Z.abs (v' - v) <= hi - lo.
Proof.
  intros Hv. set (n := n_velocity_bins self) in *.
  destruct (digitize_brackets v (velocity_bin_edges self) velocity_bin_edges_sorted)
    as (Hbelow & Habove & Hrange).
  assert (Hlen : length (velocity_bin_edges self) = Z.to_nat n).
  { rewrite velocity_bin_edges_eq, length_map, length_range. f_equal. lia. }
  set (c := digitize v (velocity_bin_edges self)) in *.
  assert (Hc1 : 1 <= c).
  { destruct (Z_lt_le_dec c 1) as [Hlt|Hge]; [|exact Hge]. exfalso.
    assert (Hc0 : c = 0) by lia.
    pose proof (velocity_bin_edges_nth 0 ltac:(lia)) as H0.
    rewrite Hc0 in Habove. cbn [Z.to_nat] in H0, Habove.
    apply Habove in H0. rewrite Z.mul_0_r, Z.div_0_l in H0 by lia. lia. }
  assert (Hc2 : c <= n - 1).
  { destruct (Z_lt_le_dec (n - 1) c) as [Hlt|Hge]; [|exact Hge]. exfalso.
    pose proof (velocity_bin_edges_nth (n - 1) ltac:(lia)) as Hlast.
    apply (Hbelow (Z.to_nat (n - 1))) in Hlast; [|lia].
    replace (127 * (n - 1) / (n_velocity_bins self - 1)) with 127 in Hlast.
    - lia.
    - fold n. symmetry. apply Z.div_mul. lia. }
  unfold quantize_velocity. fold c.
  pose proof (velocity_bin_edges_nth (c - 1) ltac:(lia)) as Hlo.
  pose proof (velocity_bin_edges_nth c ltac:(lia)) as Hhi.
  replace (Z.to_nat c) with (S (Z.to_nat (c - 1))) in Hhi by lia.
  set (lo := 127 * (c - 1) / (n_velocity_bins self - 1)) in *.
  set (hi := 127 * c / (n_velocity_bins self - 1)) in *.
  assert (Hlov : lo <= v) by (apply (Hbelow (Z.to_nat (c - 1)) lo); [lia | exact Hlo]).
  assert (Hvhi : v < hi).
  { apply Habove. replace (Z.to_nat c) with (S (Z.to_nat (c - 1))) by lia. exact Hhi. }
  assert (Hlo0 : 0 <= lo) by (unfold lo; apply Z.div_pos; lia).
  exists lo, hi, (Z.quot (lo + hi) 2).
  split; [lia|]. split; [exact Hlo|]. split; [exact Hhi|]. split; [lia|]. split.
  - unfold list_get. replace (c - 1 <? 0) with false by lia.
    rewrite (built_bin_to_velocity _ _ Hbuilt).
    rewrite (_build_velocity_decoder_nth _ _ _ _ Hlo Hhi). reflexivity.
  - rewrite Z.quot_div_nonneg by lia.
    pose proof (Z.div_mod (lo + hi) 2 ltac:(lia)).
    pose proof (Z.mod_pos_bound (lo + hi) 2 ltac:(lia)). lia.
Qed.

End VelocityQuantizer.

(** ** Pairing presses with releases *)

Lemma Permutation_filter {A : Type} (f : A -> bool) (l l' : list A) :
  Permutation l l' -> Permutation (filter f l) (filter f l').
Proof.
  induction 1 as [|x l l' _ IH|x y l|l l' l'' _ IH1 _ IH2].
  - constructor.
  - cbn [filter]. destruct (f x); [apply perm_skip|]; exact IH.
  - cbn [filter]. destruct (f x), (f y); try reflexivity. apply perm_swap.
  - etransitivity; eassumption.
Qed.

Lemma map_flat_map {A B C : Type} (g : B -> C) (f : A -> list B) (l : list A) :
  map g (flat_map f l) = flat_map (fun x => map g (f x)) l.
Proof.
  induction l as [|x l IH]; [reflexivity|].
  cbn [flat_map]. rewrite map_app, IH. reflexivity.
Qed.

Lemma filter_comm {A : Type} (f g : A -> bool) (l : list A) :
  filter f (filter g l) = filter g (filter f l).
Proof.
  induction l as [|x l IH]; [reflexivity|].
  cbn [filter]. destruct (f x) eqn:Ef, (g x) eqn:Eg; cbn [filter];
    rewrite ?Ef, ?Eg, IH; reflexivity.
Qed.

Lemma assign_end_combine (self : NoLossTokenizer)
  (A : list (tagged_event * Q)) :
  forall B : list (tagged_event * Q),
    length A = length B ->
    assign_end (map (mk_on self) A) (map mk_off B)
    = map (mk_note self) (combine A B).
Proof.
  induction A as [|a A IH]; intros B Hlen; [reflexivity|].
  destruct B as [|b B]; [discriminate Hlen|].
  cbn [map assign_end combine hd_error tl option_map].
  rewrite IH by (cbn in Hlen; lia). reflexivity.
Qed.

Lemma Forall2_paired {X : Type} (rec : X -> Row * Z) (R : Row -> Note -> Prop)
  (mk : X * X -> Note) (P Q : X -> Prop) (A : list X) :
  forall B : list X,
    map rec A = map rec B ->
    Forall P A -> Forall Q B ->
    (forall a b, P a -> Q b -> rec a = rec b -> R (fst (rec a)) (mk (a, b))) ->
    Forall2 R (map (fun a => fst (rec a)) A) (map mk (combine A B)).
Proof.
  induction A as [|a A IH]; intros B Hmap HP HQ HR.
  - constructor.
  - destruct B as [|b B]; [discriminate Hmap|].
    cbn [map] in Hmap. inversion Hmap as [[Hab Hrest]].
    inversion HP; inversion HQ; subst.
    cbn [map combine]. constructor.
    + apply HR; assumption.
    + apply IH; assumption.
Qed.

Lemma map_it_rec (l : list (tagged_event * Q)) :
  map it_rec l = map (@fst (Row * Z) event_kind) (map fst l).
Proof. rewrite map_map. reflexivity. Qed.

Section Pairing.

Variable recs : list (Row * Z).
Hypothesis Hnodup : NoDup recs.
Hypothesis Hlength : forall x, In x recs -> (start (fst x) < end_ (fst x))%Q.
Hypothesis Hapart :
  forall x y, In x recs -> In y recs -> x <> y ->
    pitch (fst x) = pitch (fst y) ->
    (end_ (fst x) <= start (fst y))%Q \/ (end_ (fst y) <= start (fst x))%Q.
Hypothesis Hpitch : forall x, In x recs -> 21 <= pitch (fst x) < 109.

Variable its : list (tagged_event * Q).
Hypothesis Hits : map fst its = tagged_events recs.

Lemma items_by_kind_and_pitch (kind : tagged_event -> bool) (p : Z) :
  map fst (filter (with_key it_pitch p) (filter (fun it => kind (fst it)) its))
  = filter kind (filter (with_key te_pitch p) (tagged_events recs)).
Proof.
  change (with_key it_pitch p) with (fun it : tagged_event * Q => with_key te_pitch p (fst it)).
  rewrite <- (@filter_map_swap _ _ (with_key te_pitch p) fst).
  rewrite <- (@filter_map_swap _ _ kind fst). rewrite Hits.
  apply filter_comm.
Qed.

Lemma recs_on_off_by_pitch (p : Z) :
  map it_rec (filter (with_key it_pitch p) (filter it_on its))
  = map it_rec (filter (with_key it_pitch p) (filter it_off its)).
Proof.
  destruct (tagged_events_by_pitch recs Hnodup Hlength Hapart p) as (xs & Hxs).
  rewrite !map_it_rec.
  change it_on with (fun it : tagged_event * Q => is_on (fst it)).
  change it_off with (fun it : tagged_event * Q => is_off (fst it)).
  rewrite !items_by_kind_and_pitch, Hxs.
  rewrite press_release_on, press_release_off, !map_map. reflexivity.
Qed.

Lemma items_pitch_range (kind : tagged_event * Q -> bool) :
  Forall (fun it => 21 <= it_pitch it < 109) (filter kind its).
Proof.
  apply Forall_forall. intros [[x k] t] Hin. apply filter_In in Hin.
  destruct Hin as (Hin & _).
  assert (Hte : In (x, k) (tagged_events recs)).
  { rewrite <- Hits. apply (in_map fst) in Hin. exact Hin. }
  apply tagged_events_in in Hte. apply Hpitch in Hte. exact Hte.
Qed.

(** Sorted by pitch, the presses and the releases list the same notes in
    the same order. *)
Lemma sorted_recs_agree :
  map it_rec (sorted Z.leb it_pitch (filter it_on its))
  = map it_rec (sorted Z.leb it_pitch (filter it_off its)).
Proof.
  rewrite (sorted_buckets it_pitch _ 21 109) by apply items_pitch_range.
  rewrite (sorted_buckets it_pitch _ 21 109) by apply items_pitch_range.
  rewrite !map_flat_map. apply flat_map_ext. intros p.
  apply recs_on_off_by_pitch.
Qed.

Lemma on_items_perm : Permutation (map it_rec (filter it_on its)) recs.
Proof.
  rewrite map_it_rec.
  change it_on with (fun it : tagged_event * Q => is_on (fst it)).
  rewrite <- (@filter_map_swap _ _ is_on fst), Hits.
  rewrite (Permutation_filter is_on _ _ (tagged_events_perm recs)).
  rewrite filter_app.
  match goal with
  | |- context [?a ++ ?b] =>
      match b with
      | filter _ ?m' => assert (H1 : a = []); [|assert (H2 : b = m')]
      end
  end.
  { clear. induction recs as [|x l IH]; [reflexivity | exact IH]. }
  { clear. induction recs as [|x l IH]; [reflexivity|].
    cbn [map filter is_on snd]. rewrite IH. reflexivity. }
  rewrite H1, H2. cbn [app]. rewrite map_map. cbn [fst]. rewrite map_id. reflexivity.
Qed.

Lemma off_items_length : length (filter it_off its) = length recs.
Proof.
  rewrite <- (length_map fst).
  change it_off with (fun it : tagged_event * Q => is_off (fst it)).
  rewrite <- (@filter_map_swap _ _ is_off fst), Hits.
  rewrite (Permutation_length (Permutation_filter is_off _ _ (tagged_events_perm recs))).
  rewrite filter_app, length_app.
  match goal with
  | |- context [(length ?a + length ?b)%nat] =>
      match a with
      | filter _ ?m => assert (H2 : a = m); [|assert (H1 : b = [])]
      end
  end.
  { clear. induction recs as [|x l IH]; [reflexivity|].
    cbn [map filter is_off snd]. rewrite IH. reflexivity. }
  { clear. induction recs as [|x l IH]; [reflexivity | exact IH]. }
  rewrite H1, H2, length_map. cbn [length]. lia.
Qed.

End Pairing.

(** ** The round trip *)

Lemma combine_map_self {A B : Type} (f : A -> B) (l : list A) :
  combine l (map f l) = map (fun r => (r, f r)) l.
Proof.
  induction l as [|x l IH]; [reflexivity|]. cbn [map combine]. rewrite IH. reflexivity.
Qed.

Lemma sort_values_nonempty {A K : Type} (leb : K -> K -> bool) (key : A -> K)
  (l : list A) :
  l <> [] -> sort_values leb key l = Ok (sorted leb key l).
Proof. destruct l; [congruence | reflexivity]. Qed.

Lemma ForallOrdPairs_NoDup {A : Type} (R : A -> A -> Prop) (l : list A) :
  (forall x, In x l -> ~ R x x) -> ForallOrdPairs R l -> NoDup l.
Proof.
  intros Hirr H. induction H as [|a l Ha _ IH]; [constructor|].
  constructor.
  - intros Hin. rewrite Forall_forall in Ha.
    apply (Hirr a); [left; reflexivity|]. apply Ha. exact Hin.
  - apply IH. intros x Hx. apply Hirr. right. exact Hx.
Qed.

Section RoundTrip.

Variable self : NoLossTokenizer.
Variable K : nat.
Hypothesis Hbuilt : built self K.
Hypothesis Hbins : 2 <= n_velocity_bins self.

Variable notes : list Row.
Hypothesis Hnotes : notes <> [].
Hypothesis Hrows :
  forall r, In r notes ->
    21 <= pitch r <= 108 /\ (0 <= start r)%Q /\ (start r < end_ r)%Q
    /\ 0 <= velocity r < 127.
Hypothesis Hpairs :
  ForallOrdPairs
    (fun r1 r2 => pitch r1 = pitch r2 ->
                  (end_ r1 <= start r2)%Q \/ (end_ r2 <= start r1)%Q) notes.

Let q (r : Row) : Z := quantize_velocity self (velocity r).
Let recs : list (Row * Z) := map (fun r => (r, q r)) notes.

Lemma recs_in (x : Row * Z) : In x recs -> In (fst x) notes /\ snd x = q (fst x).
Proof.
  intros H. apply in_map_iff in H. destruct H as (r & <- & Hr). split; [exact Hr | reflexivity].
Qed.

Lemma notes_nodup : NoDup notes.
Proof.
  eapply ForallOrdPairs_NoDup; [|exact Hpairs].
  intros x Hx H. cbv beta in H.
  destruct (Hrows x Hx) as (_ & _ & Hlt & _).
  destruct (H eq_refl) as [Hle|Hle]; lra.
Qed.

Lemma recs_nodup : NoDup recs.
Proof.
  apply NoDup_map_injective; [|exact notes_nodup].
  intros a b Hab. inversion Hab. reflexivity.
Qed.

Lemma recs_length (x : Row * Z) :
  In x recs -> (start (fst x) < end_ (fst x))%Q.
Proof. intros H. apply recs_in in H. destruct H as (H & _). apply Hrows in H. tauto. Qed.

Lemma recs_apart (x y : Row * Z) :
  In x recs -> In y recs -> x <> y ->
  pitch (fst x) = pitch (fst y) ->
  (end_ (fst x) <= start (fst y))%Q \/ (end_ (fst y) <= start (fst x))%Q.
Proof.
  intros Hx Hy Hne Hp. apply recs_in in Hx. apply recs_in in Hy.
  destruct Hx as (Hx & Hqx). destruct Hy as (Hy & Hqy).
  destruct (ForallOrdPairs_In Hpairs _ _ Hx Hy) as [Heq|[H|H]].
  - exfalso. apply Hne. destruct x as [rx bx], y as [ry b_y].
    cbn [fst snd] in *. subst. reflexivity.
  - apply H. exact Hp.
  - destruct (H (eq_sym Hp)) as [H'|H']; [right | left]; exact H'.
Qed.

Lemma recs_pitch (x : Row * Z) : In x recs -> 21 <= pitch (fst x) < 109.
Proof. intros H. apply recs_in in H. destruct H as (H & _). apply Hrows in H. lia. Qed.

Lemma recs_bins (x : Row * Z) : In x recs -> 0 <= snd x.
Proof.
  intros H. apply recs_in in H. destruct H as (H & ->). apply Hrows in H.
  destruct (quantize_velocity_decodes self K Hbuilt Hbins (velocity (fst x)))
    as (lo & hi & v' & Hq & _); [tauto|]. unfold q. lia.
Qed.

Lemma tagged_events_decodable : Forall (decodable self) (tagged_events recs).
Proof.
  apply Forall_forall. intros [x k] Hin. apply tagged_events_in in Hin.
  apply recs_in in Hin. destruct Hin as (Hin & Hq). apply Hrows in Hin.
  destruct (quantize_velocity_decodes self K Hbuilt Hbins (velocity (fst x)))
    as (lo & hi & v' & _ & _ & _ & _ & Hget & _); [tauto|].
  exists v'. cbn [fst snd]. rewrite Hq. exact Hget.
Qed.

Lemma tagged_events_length :
  Z.of_nat (length (tagged_events recs)) = 2 * Z.of_nat (length notes).
Proof.
  rewrite (Permutation_length (tagged_events_perm recs)).
  rewrite length_app, !length_map. unfold recs. rewrite length_map. lia.
Qed.

(** The repair pass returns the encoder's output unchanged. *)
Lemma fix_token_sequences_of_blocks (blocks : list (list token)) :
  blocks_of self 0 (tagged_events recs) blocks ->
  fix_token_sequences self (concat blocks) = Ok (concat blocks).
Proof.
  intros Hblocks.
  destruct (fix_scan_blocks self K Hbuilt 0 _ _ Hblocks (fix_init (concat blocks))
              (fun _ => -1)) as (st' & Hscan & Htk & Hpr).
  - split; [reflexivity|]. intros k Hk. cbn [fix_init fx_pressed].
    apply nth_error_repeat. exact Hk.
  - intros l1 x l2 Heq.
    apply (tagged_events_no_orphan recs recs_nodup recs_length recs_apart recs_bins
             l1 l2 x Heq).
  - unfold fix_token_sequences. fold (fix_init (concat blocks)).
    rewrite Hscan. cbn [bind]. rewrite Htk. cbn [fix_init fx_tokens].
    apply fix_release_none. apply Forall_forall. intros [k v] Hin.
    apply in_enumerate in Hin. destruct Hin as (i & -> & Hi). cbn [snd].
    destruct Hpr as (Hlen & Hval).
    assert (Hlt : (i < 110)%nat).
    { rewrite <- Hlen. apply nth_error_Some. congruence. }
    rewrite (Hval i Hlt) in Hi. inversion Hi.
    apply (tagged_events_all_released recs recs_nodup recs_length recs_apart).
Qed.

Lemma reproduces_pair (N : Z) (a b : tagged_event * Q) :
  (snd (fst a) = EV_NOTE_ON /\ In (it_rec a) recs
   /\ (Qabs (snd a - te_time (fst a)) < inject_Z N * eps self)%Q) ->
  (snd (fst b) = EV_NOTE_OFF
   /\ (Qabs (snd b - te_time (fst b)) < inject_Z N * eps self)%Q) ->
  it_rec a = it_rec b ->
  reproduces self N (fst (it_rec a)) (mk_note self (a, b)).
Proof.
  intros (Hka & Hin & Hta) (Hkb & Htb) Hab.
  destruct a as [[x ka] ta], b as [[y kb] tb].
  unfold it_rec in *. cbn [fst snd] in *. subst y ka kb.
  apply recs_in in Hin. destruct Hin as (Hin & Hq). apply Hrows in Hin.
  destruct (quantize_velocity_decodes self K Hbuilt Hbins (velocity (fst x)))
    as (lo & hi & v' & _ & Hlo & Hhi & Hv & Hget & Hhalf); [tauto|].
  unfold reproduces, mk_note, it_pitch, it_rec, te_pitch, te_time, to_event in *.
  cbn [fst snd n_pitch n_start n_end n_velocity time] in *.
  split; [reflexivity|]. split; [exact Hta|]. split.
  - exists tb. split; [reflexivity | exact Htb].
  - exists lo, hi. split; [exact Hlo|]. split; [exact Hhi|]. split; [exact Hv|].
    unfold vel_of. rewrite Hq. unfold q. rewrite Hget. exact Hhalf.
Qed.

(** Decoding the encoder's output. *)
Lemma untokenize_of_blocks (blocks : list (list token)) :
  blocks_of self 0 (tagged_events recs) blocks ->
  exists out matched,
    untokenize self (concat blocks) = Ok out
    /\ Permutation out matched
    /\ Forall2 (reproduces self (2 * Z.of_nat (length notes))) notes matched
    /\ StronglySorted (fun a b => (n_start a <= n_start b)%Q) out.
Proof.
  intros Hblocks. unfold untokenize.
  rewrite (fix_token_sequences_of_blocks blocks Hblocks). cbn [bind].
  destruct (untokenize_scan_blocks self K Hbuilt 0 _ _ Hblocks
              {| current_time := 0; current_velocity := 0;
                 ut_note_on_events := []; ut_note_off_events := [] |} 0
              tagged_events_decodable)
    as (st & its & Hscan & Hmap & Hon & Hoff & Hacc).
  { cbn [current_time]. rewrite Qmult_0_l. apply Qle_refl. }
  rewrite Hscan. cbn [bind]. rewrite Hon, Hoff.
  cbn [ut_note_on_events ut_note_off_events app].
  rewrite Z.add_0_l, tagged_events_length in Hacc.
  set (N := 2 * Z.of_nat (length notes)) in *.
  pose proof (on_items_perm recs its Hmap) as Hperm_on.
  pose proof (off_items_length recs its Hmap) as Hlen_off.
  pose proof (sorted_recs_agree recs recs_nodup recs_length recs_apart recs_pitch
                its Hmap) as Hagree.
  set (A := sorted Z.leb it_pitch (filter it_on its)) in *.
  set (B := sorted Z.leb it_pitch (filter it_off its)) in *.
  assert (HlenA : length A = length notes).
  { unfold A. rewrite (Permutation_length (sorted_permutation _ _ _)).
    rewrite <- (length_map it_rec), (Permutation_length Hperm_on).
    unfold recs. apply length_map. }
  assert (HlenB : length B = length notes).
  { unfold B. rewrite (Permutation_length (sorted_permutation _ _ _)).
    rewrite Hlen_off. unfold recs. apply length_map. }
  assert (Hpos : (0 < length notes)%nat).
  { destruct notes; [congruence | cbn; lia]. }
  rewrite sort_values_nonempty.
  2:{ intros Hnil. apply (f_equal (@length _)) in Hnil.
      rewrite length_map, <- (length_map it_rec),
        (Permutation_length Hperm_on) in Hnil.
      unfold recs in Hnil. rewrite length_map in Hnil. cbn in Hnil. lia. }
  cbn [bind]. rewrite sort_values_nonempty.
  2:{ intros Hnil. apply (f_equal (@length _)) in Hnil.
      rewrite length_map, Hlen_off in Hnil.
      unfold recs in Hnil. rewrite length_map in Hnil. cbn in Hnil. lia. }
  cbn [bind]. rewrite !sorted_map.
  change (fun a : tagged_event * Q => on_pitch (mk_on self a)) with it_pitch.
  change (fun a : tagged_event * Q => off_pitch (mk_off a)) with it_pitch.
  fold A B. rewrite assign_end_combine by congruence.
  rewrite sort_values_nonempty.
  2:{ intros Hnil. apply (f_equal (@length _)) in Hnil.
      rewrite length_map, length_combine in Hnil. cbn in Hnil. lia. }
  set (pre := map (mk_note self) (combine A B)).
  assert (HF : Forall2 (reproduces self N)
                 (map (fun a => fst (it_rec a)) A) pre).
  { apply (Forall2_paired it_rec (reproduces self N) (mk_note self)
             (fun a => snd (fst a) = EV_NOTE_ON /\ In (it_rec a) recs
                       /\ (Qabs (snd a - te_time (fst a)) < inject_Z N * eps self)%Q)
             (fun b => snd (fst b) = EV_NOTE_OFF
                       /\ (Qabs (snd b - te_time (fst b)) < inject_Z N * eps self)%Q)).
    - exact Hagree.
    - apply Forall_forall. intros a Ha.
      apply (Permutation_in _ (sorted_permutation _ _ _)) in Ha.
      apply filter_In in Ha. destruct Ha as (Ha & Hk).
      split; [|split].
      + unfold it_on, is_on in Hk. destruct (snd (fst a)); [discriminate | reflexivity].
      + apply (Permutation_in _ Hperm_on). apply in_map. apply filter_In.
        split; assumption.
      + rewrite Forall_forall in Hacc. apply Hacc. exact Ha.
    - apply Forall_forall. intros b Hb.
      apply (Permutation_in _ (sorted_permutation _ _ _)) in Hb.
      apply filter_In in Hb. destruct Hb as (Hb & Hk).
      split.
      + unfold it_off, is_off in Hk. destruct (snd (fst b)); [reflexivity | discriminate].
      + rewrite Forall_forall in Hacc. apply Hacc. exact Hb.
    - intros a b. apply reproduces_pair. }
  assert (HP : Permutation (map (fun a => fst (it_rec a)) A) notes).
  { rewrite <- (map_map it_rec fst). unfold A.
    rewrite (Permutation_map it_rec (sorted_permutation Z.leb it_pitch (filter it_on its))).
    rewrite Hperm_on. unfold recs. rewrite map_map. cbn [fst]. rewrite map_id.
    reflexivity. }
  destruct (Permutation_Forall2 HP HF) as (matched & Hpm & Hfm).
  exists (sorted Qle_bool n_start pre), matched.
  split; [reflexivity|]. split; [|split].
  - rewrite (sorted_permutation Qle_bool n_start pre). exact Hpm.
  - exact Hfm.
  - apply (sorted_sorted n_start).
Qed.

End RoundTrip.




(** * Further properties of the codec *)

(** ** Construction, the ladder and the vocabulary *)

Lemma init_token_to_id (fuel : nat) (e : Q) (n : Z) (self : NoLossTokenizer) :
  __init__ fuel e n = Ok self ->
  token_to_id self = map (fun p => (snd p, fst p)) (enumerate (vocab self)).
Proof.
  unfold __init__. intros H. inv_bind H. inv_bind H.
  inversion H; subst self. reflexivity.
Qed.

Lemma init_nonnegative_bins (fuel : nat) (e : Q) (n : Z) (self : NoLossTokenizer) :
  __init__ fuel e n = Ok self -> 0 <= n.
Proof.
  unfold __init__. intros H. inv_bind H. inv_bind H.
  unfold linspace_int in E0. destruct (n <? 0) eqn:En; [discriminate E0 | lia].
Qed.

Lemma rung_tokens_range (n : nat) :
  forall it dt,
    rung_tokens (rungs n it dt) = map TIME (range it (it + Z.of_nat n)).
Proof.
  induction n as [|n IH]; intros it dt.
  - rewrite range_nil by lia. reflexivity.
  - rewrite range_cons by lia. cbn [rungs rung_tokens map fst].
    f_equal. fold (rung_tokens (rungs n (it + 1) (dt * 2)%Q)). rewrite IH.
    f_equal. f_equal. lia.
Qed.

Lemma NoDup_range (a b : Z) : NoDup (range a b).
Proof.
  unfold range. apply NoDup_map_injective; [intros; lia | apply seq_NoDup].
Qed.

Lemma NoDup_note_tokens (a b : Z) :
  NoDup (flat_map (fun pitch => [NOTE_ON pitch; NOTE_OFF pitch]) (range a b)).
Proof.
  pattern a, b. apply range_ind; clear a b; intros a b H.
  - rewrite range_nil by lia. constructor.
  - intros IH. rewrite range_cons by lia. cbn [flat_map app].
    constructor; [|constructor; [|exact IH]].
    + intros [Hc|Hin]; [discriminate Hc|]. apply in_flat_map in Hin.
      destruct Hin as (p & Hp & [E|[E|[]]]); [|discriminate E].
      inversion E; subst p. apply in_range in Hp. lia.
    + intros Hin. apply in_flat_map in Hin.
      destruct Hin as (p & Hp & [E|[E|[]]]); [discriminate E|].
      inversion E; subst p. apply in_range in Hp. lia.
Qed.

Lemma length_note_tokens (l : list Z) :
  length (flat_map (fun pitch => [NOTE_ON pitch; NOTE_OFF pitch]) l)
  = (2 * length l)%nat.
Proof. induction l as [|p l IH]; cbn [flat_map app length]; lia. Qed.

Lemma in_vocab_member (self : NoLossTokenizer) (K : nat) (t : token) :
  built self K ->
  In t (vocab self) <-> vocab_member (n_velocity_bins self) (Z.of_nat K) t.
Proof.
  intros HK. rewrite (built_vocab _ _ HK), rung_tokens_range.
  rewrite !in_app_iff, in_flat_map, !in_map_iff. cbn [In]. split.
  - intros [[[<-|[]]|[(p & Hp & [<-|[<-|[]]])|(b & <- & Hb)]]|(k & <- & Hk)];
      cbn [vocab_member]; try apply in_range in Hp; try apply in_range in Hb;
      try apply in_range in Hk; try exact I; lia.
  - destruct t as [|p|p|b|k]; cbn [vocab_member]; intros H.
    + left. left. left. reflexivity.
    + left. right. left. exists p. split; [apply in_range; exact H|].
      left; reflexivity.
    + left. right. left. exists p. split; [apply in_range; exact H|].
      right; left; reflexivity.
    + left. right. right. exists b. split; [reflexivity | apply in_range; exact H].
    + right. exists k. split; [reflexivity | apply in_range; lia].
Qed.

Lemma NoDup_app_disjoint {A : Type} (l1 l2 : list A) :
  NoDup l1 -> NoDup l2 -> (forall x, In x l1 -> In x l2 -> False) ->
  NoDup (l1 ++ l2).
Proof.
  induction 1 as [|x l1 Hx H1 IH]; intros H2 Hd; [exact H2|].
  cbn [app]. constructor.
  - rewrite in_app_iff. intros [H|H]; [exact (Hx H)|].
    apply (Hd x); [left; reflexivity | exact H].
  - apply IH; [exact H2|]. intros y Hy. apply Hd. right. exact Hy.
Qed.

Lemma NoDup_vocab (self : NoLossTokenizer) (K : nat) :
  built self K -> NoDup (vocab self).
Proof.
  intros HK. rewrite (built_vocab _ _ HK), rung_tokens_range.
  apply NoDup_app_disjoint; [apply NoDup_app_disjoint; [|apply NoDup_app_disjoint|]| |].
  - constructor; [intros [] | constructor].
  - apply NoDup_note_tokens.
  - apply NoDup_map_injective; [intros a b H; inversion H; reflexivity|].
    apply NoDup_range.
  - intros x H1 H2. apply in_flat_map in H1. apply in_map_iff in H2.
    destruct H1 as (p & _ & [<-|[<-|[]]]); destruct H2 as (b & H2 & _);
      discriminate H2.
  - intros x [<-|[]] H2. apply in_app_iff in H2. destruct H2 as [H2|H2].
    + apply in_flat_map in H2. destruct H2 as (p & _ & [H|[H|[]]]); discriminate H.
    + apply in_map_iff in H2. destruct H2 as (b & H2 & _). discriminate H2.
  - apply NoDup_map_injective; [intros a b H; inversion H; reflexivity|].
    apply NoDup_range.
  - intros x H1 H2. apply in_map_iff in H2. destruct H2 as (k & <- & _).
    rewrite !in_app_iff, in_flat_map, in_map_iff in H1. cbn [In] in H1.
    destruct H1 as [[H|[]]|[(p & _ & [H|[H|[]]])|(b & H & _)]]; discriminate H.
Qed.

Lemma dict_get_enumerate (l : list token) :
  NoDup l ->
  forall a t i,
    dict_get token_eqb
      (map (fun p => (snd p, fst p))
           (combine (range a (a + Z.of_nat (length l))) l)) t = Some i
    <-> a <= i /\ nth_error l (Z.to_nat (i - a)) = Some t.
Proof.
  induction 1 as [|x l Hx Hl IH]; intros a t i.
  - rewrite range_nil by (cbn; lia). cbn. split; [discriminate|].
    intros (_ & H). destruct (Z.to_nat (i - a)); discriminate H.
  - rewrite range_cons by (cbn [length]; lia).
    cbn [combine map dict_get fst snd].
    replace (a + Z.of_nat (length (x :: l)))
      with (a + 1 + Z.of_nat (length l)) by (cbn [length]; lia).
    destruct (token_eqb x t) eqn:E.
    + apply token_eqb_eq in E. subst t. split.
      * intros H. inversion H; subst i. split; [lia|].
        rewrite Z.sub_diag. reflexivity.
      * intros (Hi & Hn). destruct (Z.to_nat (i - a)) as [|j] eqn:Ej.
        -- f_equal. lia.
        -- cbn [nth_error] in Hn. apply nth_error_In in Hn. contradiction.
    + rewrite IH. split.
      * intros (Hi & Hn). split; [lia|].
        replace (Z.to_nat (i - a)) with (S (Z.to_nat (i - (a + 1)))) by lia.
        exact Hn.
      * intros (Hi & Hn). destruct (Z.to_nat (i - a)) as [|j] eqn:Ej.
        -- cbn [nth_error] in Hn. inversion Hn; subst t.
           rewrite token_eqb_refl in E. discriminate E.
        -- cbn [nth_error] in Hn. split; [lia|].
           replace (Z.to_nat (i - (a + 1))) with j by lia. exact Hn.
Qed.

Lemma rungs_below_one (n : nat) :
  forall it dt k,
    Forall (fun p => (snd p < 1)%Q) (rungs n it dt) ->
    it <= k < it + Z.of_nat n -> (dt * 2 ^ (k - it) < 1)%Q.
Proof.
  induction n as [|n IH]; intros it dt k Hall Hk; [lia|].
  cbn [rungs] in Hall. inversion Hall as [|? ? Hdt Hrest]; subst.
  cbn [snd] in Hdt. destruct (Z.eq_dec k it) as [->|Hne].
  - rewrite Z.sub_diag. cbn [Qpower]. rewrite Qmult_1_r. exact Hdt.
  - specialize (IH (it + 1) (dt * 2)%Q k Hrest ltac:(lia)).
    replace (k - it) with (k - (it + 1) + 1) by lia.
    rewrite pow2_succ by lia.
    setoid_replace (dt * (2 ^ (k - (it + 1)) * 2))%Q
      with (dt * 2 * 2 ^ (k - (it + 1)))%Q by ring.
    exact IH.
Qed.

Lemma rung_token_to_dt_inv (n : nat) :
  forall it dt t d,
    dict_get token_eqb (rung_token_to_dt (rungs n it dt)) t = Some d ->
    exists k, t = TIME k /\ it <= k < it + Z.of_nat n
              /\ (d == dt * 2 ^ (k - it))%Q.
Proof.
  induction n as [|n IH]; intros it dt t d H; [discriminate H|].
  cbn [rungs rung_token_to_dt map dict_get fst snd] in H.
  destruct (token_eqb (TIME it) t) eqn:E.
  - apply token_eqb_eq in E. subst t. inversion H; subst d.
    exists it. split; [reflexivity|]. split; [lia|].
    rewrite Z.sub_diag. cbn [Qpower]. rewrite Qmult_1_r. reflexivity.
  - apply IH in H. destruct H as (k & -> & Hk & Hd).
    exists k. split; [reflexivity|]. split; [lia|].
    rewrite Hd. replace (k - it) with (k - (it + 1) + 1) by lia.
    rewrite pow2_succ by lia. ring.
Qed.

Lemma rung_tables_inverse (n : nat) :
  forall it dt t d,
    (0 < dt)%Q ->
    dict_get token_eqb (rung_token_to_dt (rungs n it dt)) t = Some d ->
    dict_get Qeq_bool (rung_dt_to_token (rungs n it dt)) d = Some t.
Proof.
  induction n as [|n IH]; intros it dt t d Hpos H; [discriminate H|].
  cbn [rungs rung_token_to_dt rung_dt_to_token map dict_get fst snd] in *.
  destruct (token_eqb (TIME it) t) eqn:E.
  - apply token_eqb_eq in E. subst t. inversion H; subst d.
    assert (Hq : Qeq_bool dt dt = true) by (apply Qeq_bool_iff; reflexivity).
    rewrite Hq. reflexivity.
  - assert (Hd := H). apply rung_token_to_dt_inv in Hd.
    destruct Hd as (k & -> & Hk & Hd).
    assert (Hq : Qeq_bool dt d = false).
    { destruct (Qeq_bool dt d) eqn:Eq; [|reflexivity]. exfalso.
      apply Qeq_bool_iff in Eq. rewrite Hd in Eq.
      pose proof (Qpower_1_le 2 (k - (it + 1)) ltac:(discriminate) ltac:(lia)) as Hp.
      assert (Hm : (dt * 2 * 1 <= dt * 2 * 2 ^ (k - (it + 1)))%Q).
      { rewrite !(Qmult_comm (dt * 2)).
        apply Qmult_le_compat_r; [exact Hp | lra]. }
      lra. }
    rewrite Hq. apply IH; [lra | exact H].
Qed.

(** X1: the constructor comes to an end, with a codec or with an error,
    exactly when [eps] is positive; for [eps <= 0] the loop [while dt < 1]
    of [_time_vocab] doubles a number that never reaches one. *)
Theorem construction_terminates_iff_eps_positive (e : Q) (n : Z) :
  (exists fuel, __init__ fuel e n <> OutOfFuel) <-> (0 < e)%Q.
Proof.
  split.
  - intros (fuel & H). destruct (Qlt_le_dec 0 e) as [Hpos|Hle]; [exact Hpos|].
    exfalso. apply H. unfold __init__, _build_vocab, _time_vocab.
    rewrite _time_vocab_loop_diverges by exact Hle. reflexivity.
  - intros Hpos. destruct (Qlt_le_dec e 1) as [Hlt|Hge].
    + destruct (_build_vocab_total e n Hpos Hlt) as (fuel & v & Hv).
      exists fuel. unfold __init__. rewrite Hv. cbn [bind].
      unfold linspace_int. destruct (n <? 0); [|destruct (n =? 1)];
        cbn [bind]; intros Hc; discriminate Hc.
    + exists 1%nat. unfold __init__.
      rewrite _build_vocab_empty_ladder by exact Hge. cbn [bind].
      intros Hc; discriminate Hc.
Qed.

(** X2: the time symbols of a codec form a ladder of [K >= 1] rungs: the
    symbol [kT] is worth [eps * 2^(k-1)], every rung is below one second,
    doubling the top rung reaches one second, no other symbol has a
    duration, and [max_time_value] is the top rung, between a half and
    one. *)
Theorem time_ladder (fuel : nat) (e : Q) (n : Z) (self : NoLossTokenizer) :
  __init__ fuel e n = Ok self ->
  exists K : Z,
    1 <= K /\
    (e * 2 ^ (K - 1) < 1)%Q /\ (1 <= e * 2 ^ K)%Q /\
    (forall k, 1 <= k <= K ->
       exists d, dict_get token_eqb (token_to_dt self) (TIME k) = Some d
                 /\ (d == e * 2 ^ (k - 1))%Q /\ (d < 1)%Q) /\
    (forall t, (forall k, 1 <= k <= K -> t <> TIME k) ->
       dict_get token_eqb (token_to_dt self) t = None) /\
    (max_time_value self == e * 2 ^ (K - 1))%Q /\
    (1 # 2 <= max_time_value self)%Q /\ (max_time_value self < 1)%Q.
Proof.
  intros Hinit. apply init_built in Hinit. destruct Hinit as (<- & _ & K & HK).
  pose proof (built_ladder _ _ HK) as HK0.
  pose proof (built_below_one _ _ HK) as Hbelow.
  pose proof (built_reaches_one _ _ HK) as Hone.
  pose proof (max_time_value_rung self K HK) as Hmax.
  assert (Htop : (eps self * 2 ^ (Z.of_nat K - 1) < 1)%Q).
  { apply (rungs_below_one K 1 (eps self) (Z.of_nat K) Hbelow). lia. }
  exists (Z.of_nat K). split; [lia|]. split; [exact Htop|]. split; [exact Hone|].
  split; [|split; [|split; [exact Hmax|split]]].
  - intros k Hk. rewrite (built_token_to_dt _ _ HK).
    destruct (rung_token_to_dt_get K 1 (eps self) k ltac:(lia)) as (d & Hd & Hv).
    exists d. split; [exact Hd|]. split; [exact Hv|]. rewrite Hv.
    apply (rungs_below_one K 1 (eps self) k Hbelow). lia.
  - intros t Ht. rewrite (built_token_to_dt _ _ HK).
    destruct (dict_get token_eqb (rung_token_to_dt (rungs K 1 (eps self))) t)
      as [d|] eqn:E; [|reflexivity].
    exfalso. apply rung_token_to_dt_inv in E. destruct E as (k & -> & Hk & _).
    apply (Ht k); [lia | reflexivity].
  - rewrite Hmax.
    replace (Z.of_nat K) with (Z.of_nat K - 1 + 1) in Hone by lia.
    rewrite pow2_succ in Hone by lia. lra.
  - rewrite Hmax. exact Htop.
Qed.

Lemma time_ladder_witness :
  exists self,
    __init__ 11 (1 # 1000) 128 = Ok self /\
    (1 # 2 <= max_time_value self)%Q /\ (max_time_value self < 1)%Q.
Proof.
  eexists. split; [vm_compute; reflexivity|].
  destruct (time_ladder 11 (1 # 1000) 128 _ ltac:(vm_compute; reflexivity))
    as (K & _ & _ & _ & _ & _ & _ & Hlo & Hhi).
  split; assumption.
Defined.

(** X3: the two time tables are inverse to each other: the step a time
    symbol is worth is looked up back to that symbol, and the symbol found
    for a step is worth that step. *)
Theorem time_tables_are_inverse
  (fuel : nat) (e : Q) (n : Z) (self : NoLossTokenizer) :
  __init__ fuel e n = Ok self ->
  (forall t d,
      dict_get token_eqb (token_to_dt self) t = Some d ->
      dict_get Qeq_bool (dt_to_token self) d = Some t) /\
  (forall d t,
      dict_get Qeq_bool (dt_to_token self) d = Some t ->
      exists d', dict_get token_eqb (token_to_dt self) t = Some d'
                 /\ (d' == d)%Q).
Proof.
  intros Hinit. apply init_built in Hinit. destruct Hinit as (_ & _ & K & HK).
  split.
  - intros t d H. rewrite (built_token_to_dt _ _ HK) in H.
    rewrite (built_dt_to_token _ _ HK).
    apply rung_tables_inverse; [exact (eps_positive self K HK) | exact H].
  - intros d t H. exact (proj2 (dt_to_token_is_rung self K HK d t H)).
Qed.

Lemma time_tables_are_inverse_witness :
  exists self d,
    __init__ 11 (1 # 1000) 128 = Ok self /\
    dict_get token_eqb (token_to_dt self) (TIME 3) = Some d /\
    dict_get Qeq_bool (dt_to_token self) d = Some (TIME 3).
Proof.
  eexists. eexists. split; [vm_compute; reflexivity|].
  split; [vm_compute; reflexivity|].
  apply (proj1 (time_tables_are_inverse 11 (1 # 1000) 128 _
                  ltac:(vm_compute; reflexivity))).
  vm_compute; reflexivity.
Defined.

(** X4: the vocabulary of a codec lists each symbol once: the class
    symbol, a press and a release symbol per key 21..108, one symbol per
    velocity bin and one per rung; [vocab_size] is [177 + n_velocity_bins]
    plus the number of rungs; and [token_to_id] maps a symbol to its
    position in [vocab] and knows no other symbol. *)
Theorem vocabulary_is_indexed
  (fuel : nat) (e : Q) (n : Z) (self : NoLossTokenizer) :
  __init__ fuel e n = Ok self ->
  NoDup (vocab self) /\
  (exists K : Z,
      1 <= K /\ (e * 2 ^ (K - 1) < 1)%Q /\ (1 <= e * 2 ^ K)%Q /\
      vocab_size self = 177 + n + K /\
      forall t, In t (vocab self) <-> vocab_member n K t) /\
  (forall t i,
      dict_get token_eqb (token_to_id self) t = Some i <->
      0 <= i /\ nth_error (vocab self) (Z.to_nat i) = Some t).
Proof.
  intros Hinit. pose proof (init_token_to_id _ _ _ _ Hinit) as Hid.
  pose proof (init_nonnegative_bins _ _ _ _ Hinit) as Hn.
  apply init_built in Hinit. destruct Hinit as (<- & <- & K & HK).
  pose proof (NoDup_vocab self K HK) as Hnd.
  split; [exact Hnd|]. split.
  - exists (Z.of_nat K).
    pose proof (built_ladder _ _ HK) as HK0.
    split; [lia|]. split; [|split; [exact (built_reaches_one _ _ HK)|split]].
    + apply (rungs_below_one K 1 (eps self) (Z.of_nat K) (built_below_one _ _ HK)).
      lia.
    + unfold vocab_size. rewrite (built_vocab _ _ HK), rung_tokens_range.
      rewrite !length_app, length_note_tokens, !length_map, !length_range.
      cbn [length]. lia.
    + intros t. apply in_vocab_member. exact HK.
  - intros t i. rewrite Hid. unfold enumerate.
    rewrite (dict_get_enumerate (vocab self) Hnd 0 t i).
    rewrite Z.sub_0_r. reflexivity.
Qed.

Lemma vocabulary_is_indexed_witness :
  exists self,
    __init__ 3 (1 # 4) 8 = Ok self /\
    NoDup (vocab self) /\
    dict_get token_eqb (token_to_id self) (NOTE_OFF 21) = Some 2.
Proof.
  eexists. split; [vm_compute; reflexivity|].
  destruct (vocabulary_is_indexed 3 (1 # 4) 8 _ ltac:(vm_compute; reflexivity))
    as (Hnd & _ & Hid).
  split; [exact Hnd|]. apply Hid. split; [lia | reflexivity].
Defined.



(** ** The repair pass *)

Lemma pairs_of_app (note : Z -> token) (l1 l2 : list token) :
  pairs_of note l1 -> pairs_of note l2 -> pairs_of note (l1 ++ l2).
Proof.
  induction 1 as [|b p l Hl IH]; intros H2; [exact H2|].
  cbn [app]. constructor. apply IH. exact H2.
Qed.

Lemma count_token_app (t : token) (l1 l2 : list token) :
  count_token t (l1 ++ l2) = (count_token t l1 + count_token t l2)%nat.
Proof. unfold count_token. rewrite filter_app, length_app. reflexivity. Qed.

Lemma released_tokens_once (p : Z) (a : list Z) :
  forall lo,
    (count_token (NOTE_OFF p)
       (released_tokens (combine (range lo (lo + Z.of_nat (length a))) a)) <= 1)%nat
    /\ (p < lo ->
        count_token (NOTE_OFF p)
          (released_tokens (combine (range lo (lo + Z.of_nat (length a))) a)) = 0%nat).
Proof.
  induction a as [|x a IH]; intros lo.
  - rewrite range_nil by (cbn; lia). cbn. split; [lia | reflexivity].
  - rewrite range_cons by (cbn [length]; lia).
    replace (lo + Z.of_nat (length (x :: a)))
      with (lo + 1 + Z.of_nat (length a)) by (cbn [length]; lia).
    cbn [combine released_tokens flat_map fst snd].
    fold (released_tokens (combine (range (lo + 1) (lo + 1 + Z.of_nat (length a))) a)).
    destruct (IH (lo + 1)) as (H1 & H0). rewrite count_token_app.
    destruct (0 <=? x).
    + unfold count_token at 1 3. cbn [filter token_eqb].
      destruct (p =? lo) eqn:E.
      * apply Z.eqb_eq in E. rewrite H0 by lia. cbn [length]. split; lia.
      * apply Z.eqb_neq in E. cbn [length]. split; [lia|].
        intros Hlt. rewrite H0 by lia. reflexivity.
    + unfold count_token at 1 3. cbn [filter length]. split; [lia|].
      intros Hlt. rewrite H0 by lia. reflexivity.
Qed.

Lemma pairs_of_released_tokens (keyed : list (Z * Z)) :
  pairs_of NOTE_OFF (released_tokens keyed).
Proof.
  induction keyed as [|[k s] keyed IH]; [constructor|].
  cbn [released_tokens flat_map fst snd]. fold (released_tokens keyed).
  destruct (0 <=? s); cbn [app]; [constructor|]; exact IH.
Qed.

Lemma fix_scan_last_velocity (self : NoLossTokenizer) (l : list token) :
  forall st st',
    fix_scan self st l = Ok st' ->
    fx_current_velocity_token st'
    = last_velocity_token (fx_current_velocity_token st) l.
Proof.
  induction l as [|t l IH]; intros st st' H; cbn [fix_scan] in H.
  - inversion H; reflexivity.
  - inv_bind H. apply IH in H. rewrite H.
    unfold last_velocity_token. cbn [fold_left]. f_equal.
    destruct t as [|p|p|v|k];
      try (apply (fix_step_keeps_velocity self _ _ _ E); intros b Hb; discriminate Hb).
    cbn [fix_step] in E. inversion E; reflexivity.
Qed.

Section RepairShape.

Variable self : NoLossTokenizer.
Variable K : nat.
Hypothesis Hbuilt : built self K.

Lemma in_vocab_velocity (b : Z) :
  0 <= b < n_velocity_bins self -> In (VELOCITY b) (vocab self).
Proof. intros H. apply (in_vocab_member self K _ Hbuilt). exact H. Qed.

Lemma in_vocab_note_on (p : Z) : 21 <= p < 109 -> In (NOTE_ON p) (vocab self).
Proof. intros H. apply (in_vocab_member self K _ Hbuilt). exact H. Qed.

Lemma in_vocab_note_off (p : Z) : 21 <= p < 109 -> In (NOTE_OFF p) (vocab self).
Proof. intros H. apply (in_vocab_member self K _ Hbuilt). exact H. Qed.

(** What a step of the first loop puts in front: nothing, or one pair of
    the current velocity symbol and a press symbol. *)
Lemma fix_step_front (st st' : fix_state) (t : token) :
  fix_state_ok self st -> fix_step self st t = Ok st' ->
  exists front,
    fx_tokens st' = front ++ fx_tokens st
    /\ pairs_of NOTE_ON front /\ in_vocab self front.
Proof.
  intros (_ & b & Hcv & Hb) H. destruct t as [|p|p|v|k]; cbn [fix_step] in H.
  - inversion H; subst. exists []. repeat split; constructor.
  - inv_bind H. inv_bind H. inv_bind H. inversion H; subst. cbn [fx_tokens].
    exists []. repeat split; constructor.
  - inv_bind H. inv_bind H. inv_bind H. inv_bind H.
    inversion H; subst; clear H. cbn [fx_tokens].
    destruct (a0 =? -1).
    + inv_bind E1. inversion E1; subst; clear E1.
      match goal with
      | Hg : get_or KeyError (dict_get _ (pitch_to_on_token self) _) = Ok _ |- _ =>
          rewrite (pitch_to_on_token_get self K Hbuilt) in Hg;
          destruct ((21 <=? a) && (a <? 109)) eqn:Ea; cbn [get_or] in Hg;
          [|discriminate Hg]; inversion Hg; subst; clear Hg
      end. rewrite Hcv.
      exists [VELOCITY b; NOTE_ON a]. split; [reflexivity|]. split.
      * constructor. constructor.
      * constructor; [apply in_vocab_velocity; exact Hb|].
        constructor; [apply in_vocab_note_on; lia | constructor].
    + inversion E1; subst. exists []. repeat split; constructor.
  - inversion H; subst. exists []. repeat split; constructor.
  - inversion H; subst. exists []. repeat split; constructor.
Qed.

Lemma fix_scan_shape (l : list token) :
  forall st,
    fix_state_ok self st -> in_vocab self l ->
    exists st' front,
      fix_scan self st l = Ok st' /\ fix_state_ok self st'
      /\ fx_tokens st' = front ++ fx_tokens st
      /\ pairs_of NOTE_ON front /\ in_vocab self front.
Proof.
  induction l as [|t l IH]; intros st Hst Hl.
  - exists st, []. split; [reflexivity|]. split; [exact Hst|].
    split; [reflexivity|]. split; constructor.
  - inversion Hl as [|? ? Ht Hl']; subst.
    destruct (fix_step_ok self K Hbuilt st t Hst Ht) as (st1 & _ & H1 & Hok1 & _).
    destruct (fix_step_front st st1 t Hst H1) as (f1 & Htok1 & Hp1 & Hv1).
    destruct (IH st1 Hok1 Hl') as (st2 & f2 & H2 & Hok2 & Htok2 & Hp2 & Hv2).
    exists st2, (f2 ++ f1). cbn [fix_scan]. rewrite H1. cbn [bind].
    split; [exact H2|]. split; [exact Hok2|]. split; [|split].
    + rewrite Htok2, Htok1, app_assoc. reflexivity.
    + apply pairs_of_app; assumption.
    + apply Forall_app. split; assumption.
Qed.

Lemma in_vocab_released_tokens (pressed : list Z) :
  pressed_ok self pressed ->
  in_vocab self (released_tokens (enumerate pressed)).
Proof.
  intros Hpr. pose proof (pressed_ok_enumerate self pressed Hpr) as Hall.
  induction Hall as [|[k s] keyed Hks _ IH]; [constructor|].
  cbn [released_tokens flat_map fst snd] in *. fold (released_tokens keyed).
  destruct (0 <=? s) eqn:E; [|exact IH]. cbn [app].
  destruct Hks as [Hs|(Hs & Hk)]; [lia|].
  constructor; [apply in_vocab_velocity; exact Hs|].
  constructor; [apply in_vocab_note_off; exact Hk | exact IH].
Qed.

Lemma fix_token_sequences_shape (tokens : list token) :
  1 <= n_velocity_bins self -> in_vocab self tokens ->
  exists front back,
    fix_token_sequences self tokens = Ok (front ++ tokens ++ back)
    /\ pairs_of NOTE_ON front /\ pairs_of NOTE_OFF back
    /\ (forall p, (count_token (NOTE_OFF p) back <= 1)%nat)
    /\ in_vocab self (front ++ tokens ++ back).
Proof.
  intros Hn Hv.
  destruct (fix_scan_shape tokens (fix_init tokens)
              (fix_init_ok self tokens Hn) Hv)
    as (st & front & Hscan & (Hpr & _) & Htok & Hpf & Hvf).
  exists front, (released_tokens (enumerate (fx_pressed st))).
  split; [|split; [exact Hpf|split; [apply pairs_of_released_tokens|split]]].
  - unfold fix_token_sequences. fold (fix_init tokens). rewrite Hscan. cbn [bind].
    rewrite (fix_release_ok self K Hbuilt)
      by (apply pressed_ok_enumerate; exact Hpr).
    rewrite Htok. cbn [fix_init fx_tokens]. rewrite <- app_assoc. reflexivity.
  - intros p. unfold enumerate.
    apply (proj1 (released_tokens_once p (fx_pressed st) 0)).
  - apply Forall_app. split; [exact Hvf|]. apply Forall_app.
    split; [exact Hv | apply in_vocab_released_tokens; exact Hpr].
Qed.

(** A key that no symbol of [l] presses is as free after [l] as before. *)
Lemma fix_scan_unpressed (p : Z) (l : list token) :
  forall st st',
    21 <= p < 109 ->
    fix_state_ok self st -> in_vocab self l ->
    ~ In (NOTE_ON p) l ->
    array_get (fx_pressed st) p = Ok (-1) ->
    fix_scan self st l = Ok st' ->
    array_get (fx_pressed st') p = Ok (-1).
Proof.
  induction l as [|t l IH]; intros st st' Hp Hst Hl Hno Hget H; cbn [fix_scan] in H.
  - inversion H; subst. exact Hget.
  - inv_bind H. inversion Hl as [|? ? Ht Hl']; subst.
    destruct (fix_step_ok self K Hbuilt st t Hst Ht) as (st1 & _ & H1 & Hok1 & _).
    rewrite E in H1. inversion H1; subst a; clear H1.
    apply (IH st1 st' Hp Hok1 Hl'); [intros Hin; apply Hno; right; exact Hin| |exact H].
    assert (Hkeep : forall q v pr',
               21 <= q < 109 -> (q = p -> v = -1) ->
               array_set (fx_pressed st) q v = Ok pr' ->
               array_get pr' p = Ok (-1)).
    { intros q v pr' Hq Hqv Hset. destruct Hst as ((Hlen & _) & _).
      unfold array_set in Hset. rewrite array_index_ok in Hset by (rewrite Hlen; lia).
      cbn [bind] in Hset. inversion Hset; subst pr'; clear Hset.
      unfold array_get in *. rewrite length_update by (rewrite Hlen; lia).
      rewrite array_index_ok in * by (rewrite Hlen; lia). cbn [bind] in *.
      rewrite nth_error_update by (rewrite Hlen; lia).
      destruct (Z.to_nat p =? Z.to_nat q)%nat eqn:Epq.
      - apply Nat.eqb_eq in Epq. rewrite Hqv by lia. reflexivity.
      - exact Hget. }
    apply (vocab_inv self K Hbuilt) in Ht.
    destruct t as [|q|q|v|k]; cbn [fix_step] in E.
    + inversion E; subst. exact Hget.
    + inv_bind E. inv_bind E. inv_bind E. inversion E; subst; clear E.
      cbn [fx_pressed].
      rewrite (token_to_pitch_get self K Hbuilt) in E1.
      replace ((21 <=? q) && (q <? 109)) with true in E1 by lia.
      inversion E1; subst a0; clear E1.
      apply (Hkeep q a a1 Ht); [|exact E2].
      intros ->. exfalso. apply Hno. left. reflexivity.
    + inv_bind E. inv_bind E. inv_bind E. inv_bind E. inversion E; subst; clear E.
      cbn [fx_pressed].
      rewrite (token_to_pitch_get self K Hbuilt) in E0.
      replace ((21 <=? q) && (q <? 109)) with true in E0 by lia.
      inversion E0; subst a; clear E0.
      apply (Hkeep q (-1) a2 Ht); [reflexivity | exact E3].
    + inversion E; subst. exact Hget.
    + inversion E; subst. exact Hget.
Qed.

(** The pair put in front for a release of a key that nothing before it
    pressed. *)
Lemma fix_token_sequences_orphan (pre rest : list token) (p : Z) :
  1 <= n_velocity_bins self ->
  in_vocab self (pre ++ NOTE_OFF p :: rest) ->
  ~ In (NOTE_ON p) pre ->
  exists front earlier back,
    fix_token_sequences self (pre ++ NOTE_OFF p :: rest)
    = Ok (front ++ [last_velocity_token (VELOCITY 0) pre; NOTE_ON p]
                ++ earlier ++ (pre ++ NOTE_OFF p :: rest) ++ back)
    /\ pairs_of NOTE_ON front /\ pairs_of NOTE_ON earlier
    /\ pairs_of NOTE_OFF back.
Proof.
  intros Hn Hv Hno.
  set (tokens := pre ++ NOTE_OFF p :: rest) in *.
  assert (Hv' := Hv). unfold in_vocab, tokens in Hv'.
  apply Forall_app in Hv'. destruct Hv' as (Hpre & Hrest).
  inversion Hrest as [|? ? Hp Hrest']; subst.
  apply (vocab_inv self K Hbuilt) in Hp.
  destruct (fix_scan_shape pre (fix_init tokens)
              (fix_init_ok self tokens Hn) Hpre)
    as (st & earlier & Hscan & Hok & Htok & Hpe & _).
  assert (Hget : array_get (fx_pressed st) p = Ok (-1)).
  { apply (fix_scan_unpressed p pre (fix_init tokens) st Hp
             (fix_init_ok self tokens Hn) Hpre Hno); [|exact Hscan].
    cbn [fix_init fx_pressed]. unfold array_get.
    rewrite array_index_ok by (rewrite repeat_length; lia). cbn [bind].
    rewrite nth_error_repeat by lia. reflexivity. }
  assert (Hcv : fx_current_velocity_token st = last_velocity_token (VELOCITY 0) pre)
    by (apply (fix_scan_last_velocity self pre _ _ Hscan)).
  destruct Hok as (Hpr & b & Hb & Hbr).
  destruct (pressed_ok_set self (fx_pressed st) p (-1) Hpr Hp) as (pr1 & Hset & Hpr1);
    [left; reflexivity|].
  set (st1 := {| fx_tokens := [fx_current_velocity_token st; NOTE_ON p] ++ fx_tokens st;
                 fx_pressed := pr1;
                 fx_current_velocity_token := fx_current_velocity_token st |}).
  assert (Hstep : fix_step self st (NOTE_OFF p) = Ok st1).
  { cbn [fix_step]. rewrite (token_to_pitch_get self K Hbuilt).
    replace ((21 <=? p) && (p <? 109)) with true by lia.
    cbn [get_or bind]. rewrite Hget. cbn [bind Z.eqb Pos.eqb].
    rewrite (pitch_to_on_token_get self K Hbuilt).
    replace ((21 <=? p) && (p <? 109)) with true by lia.
    cbn [get_or bind]. rewrite Hset. reflexivity. }
  assert (Hok1 : fix_state_ok self st1).
  { split; [exact Hpr1|]. exists b. split; [exact Hb | exact Hbr]. }
  destruct (fix_scan_shape rest st1 Hok1 Hrest')
    as (st2 & front & Hscan2 & (Hpr2 & _) & Htok2 & Hpf & _).
  exists front, earlier, (released_tokens (enumerate (fx_pressed st2))).
  split; [|split; [exact Hpf|split; [exact Hpe|apply pairs_of_released_tokens]]].
  unfold fix_token_sequences. fold (fix_init tokens).
  unfold tokens at 2. rewrite fix_scan_app. fold tokens. rewrite Hscan.
  cbn [bind fix_scan]. rewrite Hstep. cbn [bind]. rewrite Hscan2. cbn [bind].
  rewrite (fix_release_ok self K Hbuilt)
    by (apply pressed_ok_enumerate; exact Hpr2).
  rewrite Htok2. unfold st1. cbn [fx_tokens]. rewrite Htok, Hcv.
  cbn [fix_init fx_tokens]. rewrite <- !app_assoc. reflexivity.
Qed.


End RepairShape.

(** X6: on a sequence drawn from the vocabulary (of a codec with a
    velocity bin) the repair pass returns; it keeps the sequence as one
    block, puts pairs (velocity, press) in front of it and pairs
    (velocity, release) behind it, at most one closing pair per key, and
    adds vocabulary symbols only. *)
Theorem fix_token_sequences_only_adds_pairs
  (fuel : nat) (e : Q) (n : Z) (self : NoLossTokenizer) (tokens : list token) :
  __init__ fuel e n = Ok self ->
  1 <= n ->
  in_vocab self tokens ->
  exists front back,
    fix_token_sequences self tokens = Ok (front ++ tokens ++ back)
    /\ pairs_of NOTE_ON front /\ pairs_of NOTE_OFF back
    /\ (forall p, (count_token (NOTE_OFF p) back <= 1)%nat)
    /\ in_vocab self (front ++ tokens ++ back).
Proof.
  intros Hinit Hn Hv. apply init_built in Hinit.
  destruct Hinit as (_ & <- & K & HK).
  apply (fix_token_sequences_shape self K HK tokens Hn Hv).
Qed.

Lemma fix_token_sequences_only_adds_pairs_witness :
  exists self,
    __init__ 3 (1 # 4) 8 = Ok self /\
    exists front back,
      fix_token_sequences self [VELOCITY 3; NOTE_OFF 60; VELOCITY 5; NOTE_ON 62]
      = Ok (front ++ [VELOCITY 3; NOTE_OFF 60; VELOCITY 5; NOTE_ON 62] ++ back)
      /\ pairs_of NOTE_ON front /\ pairs_of NOTE_OFF back
      /\ (forall p, (count_token (NOTE_OFF p) back <= 1)%nat)
      /\ in_vocab self
           (front ++ [VELOCITY 3; NOTE_OFF 60; VELOCITY 5; NOTE_ON 62] ++ back).
Proof.
  eexists. split; [vm_compute; reflexivity|].
  apply (fix_token_sequences_only_adds_pairs 3 (1 # 4) 8).
  - vm_compute; reflexivity.
  - lia.
  - apply in_vocabb_true. vm_compute; reflexivity.
Defined.

(** X7: a release of a key that nothing before it pressed gets a press
    put in front of the sequence, paired with the velocity symbol read
    last before that release ([VELOCITY_0] when there is none); the
    sequence itself stays in one piece behind it. *)
Theorem orphan_release_gets_latest_velocity
  (fuel : nat) (e : Q) (n : Z) (self : NoLossTokenizer)
  (pre rest : list token) (p : Z) :
  __init__ fuel e n = Ok self ->
  1 <= n ->
  in_vocab self (pre ++ NOTE_OFF p :: rest) ->
  ~ In (NOTE_ON p) pre ->
  exists front earlier back,
    fix_token_sequences self (pre ++ NOTE_OFF p :: rest)
    = Ok (front ++ [last_velocity_token (VELOCITY 0) pre; NOTE_ON p]
                ++ earlier ++ (pre ++ NOTE_OFF p :: rest) ++ back)
    /\ pairs_of NOTE_ON front /\ pairs_of NOTE_ON earlier
    /\ pairs_of NOTE_OFF back.
Proof.
  intros Hinit Hn Hv Hno. apply init_built in Hinit.
  destruct Hinit as (_ & <- & K & HK).
  apply (fix_token_sequences_orphan self K HK pre rest p Hn Hv Hno).
Qed.

Lemma orphan_release_gets_latest_velocity_witness :
  exists self,
    __init__ 3 (1 # 4) 8 = Ok self /\
    exists front earlier back,
      fix_token_sequences self
        ([VELOCITY 3; NOTE_ON 61; VELOCITY 5] ++ NOTE_OFF 60 :: [NOTE_OFF 61])
      = Ok (front ++ [VELOCITY 5; NOTE_ON 60]
                  ++ earlier
                  ++ ([VELOCITY 3; NOTE_ON 61; VELOCITY 5]
                      ++ NOTE_OFF 60 :: [NOTE_OFF 61]) ++ back)
      /\ pairs_of NOTE_ON front /\ pairs_of NOTE_ON earlier
      /\ pairs_of NOTE_OFF back.
Proof.
  eexists. split; [vm_compute; reflexivity|].
  apply (orphan_release_gets_latest_velocity 3 (1 # 4) 8 _
           [VELOCITY 3; NOTE_ON 61; VELOCITY 5] [NOTE_OFF 61] 60).
  - vm_compute; reflexivity.
  - lia.
  - apply in_vocabb_true. vm_compute; reflexivity.
  - intros [H|[H|[H|[]]]]; discriminate H.
Defined.

(** X8: a press or release symbol of a key outside 21..108 that comes
    after vocabulary symbols makes the repair pass, and with it
    [untokenize], raise [KeyError]. *)
Theorem fix_token_sequences_unknown_key
  (fuel : nat) (e : Q) (n : Z) (self : NoLossTokenizer)
  (pre rest : list token) (p : Z) :
  __init__ fuel e n = Ok self ->
  1 <= n ->
  in_vocab self pre ->
  ~ 21 <= p < 109 ->
  fix_token_sequences self (pre ++ NOTE_ON p :: rest) = Err KeyError /\
  fix_token_sequences self (pre ++ NOTE_OFF p :: rest) = Err KeyError /\
  untokenize self (pre ++ NOTE_ON p :: rest) = Err KeyError /\
  untokenize self (pre ++ NOTE_OFF p :: rest) = Err KeyError.
Proof.
  intros Hinit Hn Hpre Hp. apply init_built in Hinit.
  destruct Hinit as (_ & <- & K & HK).
  assert (Hrange : (21 <=? p) && (p <? 109) = false) by lia.
  assert (Hon : fix_token_sequences self (pre ++ NOTE_ON p :: rest) = Err KeyError).
  { destruct (fix_scan_shape self K HK pre (fix_init (pre ++ NOTE_ON p :: rest))
                (fix_init_ok self _ Hn) Hpre)
      as (st & front & Hscan & (_ & b & Hb & Hbr) & _).
    unfold fix_token_sequences. fold (fix_init (pre ++ NOTE_ON p :: rest)).
    rewrite fix_scan_app, Hscan. cbn [bind fix_scan fix_step].
    rewrite Hb, (token_to_velocity_bin_get self K HK).
    replace ((0 <=? b) && (b <? n_velocity_bins self)) with true by lia.
    cbn [get_or bind]. rewrite (token_to_pitch_get self K HK), Hrange.
    reflexivity. }
  assert (Hoff : fix_token_sequences self (pre ++ NOTE_OFF p :: rest) = Err KeyError).
  { destruct (fix_scan_shape self K HK pre (fix_init (pre ++ NOTE_OFF p :: rest))
                (fix_init_ok self _ Hn) Hpre)
      as (st & front & Hscan & _).
    unfold fix_token_sequences. fold (fix_init (pre ++ NOTE_OFF p :: rest)).
    rewrite fix_scan_app, Hscan. cbn [bind fix_scan fix_step].
    rewrite (token_to_pitch_get self K HK), Hrange. reflexivity. }
  unfold untokenize. rewrite Hon, Hoff. repeat split; reflexivity.
Qed.

Lemma fix_token_sequences_unknown_key_witness :
  exists self,
    __init__ 3 (1 # 4) 8 = Ok self /\
    fix_token_sequences self ([VELOCITY 3] ++ NOTE_ON 109 :: []) = Err KeyError /\
    fix_token_sequences self ([VELOCITY 3] ++ NOTE_OFF 109 :: []) = Err KeyError /\
    untokenize self ([VELOCITY 3] ++ NOTE_ON 109 :: []) = Err KeyError /\
    untokenize self ([VELOCITY 3] ++ NOTE_OFF 109 :: []) = Err KeyError.
Proof.
  eexists. split; [vm_compute; reflexivity|].
  apply (fix_token_sequences_unknown_key 3 (1 # 4) 8).
  - vm_compute; reflexivity.
  - lia.
  - apply in_vocabb_true. vm_compute; reflexivity.
  - lia.
Defined.

(** ** The velocity quantizer and its decoder *)

Lemma length_build_velocity_decoder (l : list Z) :
  length (_build_velocity_decoder l) = (length l - 1)%nat.
Proof.
  induction l as [|e0 l IH]; [reflexivity|].
  destruct l as [|e1 l]; [reflexivity|].
  change (_build_velocity_decoder (e0 :: e1 :: l))
    with (Z.quot (e0 + e1) 2 :: _build_velocity_decoder (e1 :: l)).
  cbn [length] in *. lia.
Qed.

Lemma filter_none {A : Type} (f : A -> bool) (l : list A) :
  (forall x, In x l -> f x = false) -> filter f l = [].
Proof.
  induction l as [|x l IH]; intros H; [reflexivity|].
  cbn [filter]. rewrite (H x) by (left; reflexivity).
  apply IH. intros y Hy. apply H. right. exact Hy.
Qed.

Lemma digitize_all (x : Z) (l : list Z) :
  Forall (fun e => e <= x) l -> digitize x l = Z.of_nat (length l).
Proof.
  intros H. unfold digitize. f_equal. f_equal.
  induction H as [|e l He _ IH]; [reflexivity|].
  cbn [filter]. replace (e <=? x) with true by lia. f_equal. exact IH.
Qed.

Section VelocityEdges.

Variable self : NoLossTokenizer.
Variable K : nat.
Hypothesis Hbuilt : built self K.
Hypothesis Hbins : 0 <= n_velocity_bins self.

Lemma velocity_bin_edges_all :
  length (velocity_bin_edges self) = Z.to_nat (n_velocity_bins self)
  /\ Forall (fun e => 0 <= e <= 127) (velocity_bin_edges self).
Proof.
  pose proof (built_edges _ _ Hbuilt) as H. unfold linspace_int in H.
  replace (n_velocity_bins self <? 0) with false in H by lia.
  destruct (n_velocity_bins self =? 1) eqn:E1.
  - assert (He : velocity_bin_edges self = [0]) by congruence.
    apply Z.eqb_eq in E1. rewrite He, E1. split; [reflexivity|].
    constructor; [lia | constructor].
  - assert (He : velocity_bin_edges self
                 = map (fun i => (127 * i) / (n_velocity_bins self - 1))
                       (range 0 (n_velocity_bins self))) by congruence.
    apply Z.eqb_neq in E1. rewrite He, length_map, length_range.
    split; [f_equal; lia|].
    apply Forall_forall. intros x Hx. apply in_map_iff in Hx.
    destruct Hx as (i & <- & Hi). apply in_range in Hi. split.
    + apply Z.div_pos; lia.
    + apply Z.div_le_upper_bound; lia.
Qed.

Lemma bin_to_velocity_length :
  length (bin_to_velocity self) = Z.to_nat (n_velocity_bins self - 1).
Proof.
  rewrite (built_bin_to_velocity _ _ Hbuilt), length_build_velocity_decoder.
  rewrite (proj1 velocity_bin_edges_all). lia.
Qed.

Lemma list_get_bin_to_velocity (b : Z) :
  0 <= b < n_velocity_bins self ->
  (b < n_velocity_bins self - 1 ->
   exists v, list_get (bin_to_velocity self) b = Ok v)
  /\ (b = n_velocity_bins self - 1 ->
      list_get (bin_to_velocity self) b = Err IndexError).
Proof.
  intros Hb. unfold list_get. replace (b <? 0) with false by lia.
  pose proof bin_to_velocity_length as Hlen. split; intros Hc.
  - destruct (nth_error (bin_to_velocity self) (Z.to_nat b)) as [v|] eqn:E.
    + exists v. reflexivity.
    + apply nth_error_None in E. lia.
  - assert (E : nth_error (bin_to_velocity self) (Z.to_nat b) = None)
      by (apply nth_error_None; lia).
    rewrite E. reflexivity.
Qed.

Lemma quantize_velocity_top :
  1 <= n_velocity_bins self ->
  quantize_velocity self 127 = n_velocity_bins self - 1.
Proof.
  intros Hn. unfold quantize_velocity. destruct velocity_bin_edges_all as (Hlen & Hall).
  rewrite digitize_all.
  - rewrite Hlen. lia.
  - eapply Forall_impl; [|exact Hall]. intros x Hx. cbv beta in Hx. lia.
Qed.

Lemma quantize_velocity_range (v : Z) :
  1 <= n_velocity_bins self -> 0 <= v ->
  0 <= quantize_velocity self v < n_velocity_bins self.
Proof.
  intros Hn Hv.
  destruct velocity_bin_edges_all as (Hlen & _).
  assert (Hhead : exists rest, velocity_bin_edges self = 0 :: rest).
  { pose proof (built_edges _ _ Hbuilt) as H. unfold linspace_int in H.
    replace (n_velocity_bins self <? 0) with false in H by lia.
    destruct (n_velocity_bins self =? 1) eqn:E1.
    - exists []. congruence.
    - apply Z.eqb_neq in E1. rewrite range_cons in H by lia. cbn [map] in H.
      rewrite Z.mul_0_r, Z.div_0_l in H by lia. eexists. symmetry.
      injection H as H. exact H. }
  destruct Hhead as (rest & He). unfold quantize_velocity, digitize.
  pose proof (filter_length_le (fun b => b <=? v) (velocity_bin_edges self)) as Hle.
  rewrite Hlen in Hle. rewrite He in *. cbn [filter] in *.
  replace (0 <=? v) with true in * by lia. cbn [length] in *. lia.
Qed.

Lemma quantize_velocity_negative (v : Z) :
  v < 0 -> quantize_velocity self v = -1.
Proof.
  intros Hv. unfold quantize_velocity, digitize.
  destruct velocity_bin_edges_all as (_ & Hall).
  rewrite filter_none; [reflexivity|].
  intros x Hx. rewrite Forall_forall in Hall. specialize (Hall x Hx). lia.
Qed.

(** Decoding a symbol of the vocabulary succeeds, but for the symbol of
    the top velocity bin. *)
Lemma untokenize_step_vocab (st : untokenize_state) (t : token) :
  In t (vocab self) ->
  (t = VELOCITY (n_velocity_bins self - 1)
   /\ untokenize_step self st t = Err IndexError)
  \/ (t <> VELOCITY (n_velocity_bins self - 1)
      /\ exists st', untokenize_step self st t = Ok st'
           /\ ((forall p, t <> NOTE_ON p) ->
               ut_note_on_events st' = ut_note_on_events st)
           /\ ((forall p, t <> NOTE_OFF p) ->
               ut_note_off_events st' = ut_note_off_events st)).
Proof.
  intros Hin. apply (in_vocab_member self K t Hbuilt) in Hin.
  destruct t as [|p|p|b|k]; cbn [vocab_member] in Hin; cbn [untokenize_step].
  - right. split; [discriminate|]. exists st. repeat split.
  - right. split; [discriminate|]. rewrite (token_to_pitch_get self K Hbuilt).
    replace ((21 <=? p) && (p <? 109)) with true by lia. cbn [get_or bind].
    eexists. split; [reflexivity|]. split; [|reflexivity].
    intros Hq. exfalso. apply (Hq p). reflexivity.
  - right. split; [discriminate|]. rewrite (token_to_pitch_get self K Hbuilt).
    replace ((21 <=? p) && (p <? 109)) with true by lia. cbn [get_or bind].
    eexists. split; [reflexivity|]. split; [reflexivity|].
    intros Hq. exfalso. apply (Hq p). reflexivity.
  - rewrite (token_to_velocity_bin_get self K Hbuilt).
    replace ((0 <=? b) && (b <? n_velocity_bins self)) with true by lia.
    cbn [get_or bind].
    destruct (list_get_bin_to_velocity b Hin) as (Hlow & Htop).
    destruct (Z.eq_dec b (n_velocity_bins self - 1)) as [Heq|Hne].
    + left. split; [f_equal; exact Heq|]. rewrite (Htop Heq). reflexivity.
    + right. split; [intros Hc; inversion Hc; contradiction|].
      destruct (Hlow ltac:(lia)) as (v & ->). cbn [bind].
      eexists. split; [reflexivity|]. split; reflexivity.
  - right. split; [discriminate|]. rewrite (built_token_to_dt _ _ Hbuilt).
    destruct (rung_token_to_dt_get K 1 (eps self) k ltac:(lia)) as (d & -> & _).
    cbn [get_or bind]. eexists. split; [reflexivity|]. split; reflexivity.
Qed.

Lemma untokenize_scan_top (l : list token) :
  forall st,
    in_vocab self l -> In (VELOCITY (n_velocity_bins self - 1)) l ->
    untokenize_scan self st l = Err IndexError.
Proof.
  induction l as [|t l IH]; intros st Hl Hin; [contradiction|].
  inversion Hl as [|? ? Ht Hl']; subst. cbn [untokenize_scan].
  destruct (untokenize_step_vocab st t Ht) as [(_ & ->)|(Hne & st' & -> & _)];
    [reflexivity|].
  cbn [bind]. apply IH; [exact Hl'|].
  destruct Hin as [Heq|Hin]; [congruence | exact Hin].
Qed.

Lemma untokenize_scan_no_notes (l : list token) :
  forall st,
    in_vocab self l -> ~ In (VELOCITY (n_velocity_bins self - 1)) l ->
    (forall p, ~ In (NOTE_ON p) l) -> (forall p, ~ In (NOTE_OFF p) l) ->
    exists st',
      untokenize_scan self st l = Ok st'
      /\ ut_note_on_events st' = ut_note_on_events st
      /\ ut_note_off_events st' = ut_note_off_events st.
Proof.
  induction l as [|t l IH]; intros st Hl Htop Hon Hoff.
  - exists st. repeat split.
  - inversion Hl as [|? ? Ht Hl']; subst. cbn [untokenize_scan].
    destruct (untokenize_step_vocab st t Ht)
      as [(-> & _)|(Hne & st1 & -> & Hkon & Hkoff)].
    + exfalso. apply Htop. left. reflexivity.
    + cbn [bind].
      destruct (IH st1 Hl') as (st' & Hscan & H1 & H2).
      * intros Hin. apply Htop. right. exact Hin.
      * intros p Hin. apply (Hon p). right. exact Hin.
      * intros p Hin. apply (Hoff p). right. exact Hin.
      * exists st'. split; [exact Hscan|]. split.
        -- rewrite H1. apply Hkon. intros p ->. apply (Hon p). left. reflexivity.
        -- rewrite H2. apply Hkoff. intros p ->. apply (Hoff p). left. reflexivity.
Qed.

End VelocityEdges.

Lemma fix_scan_no_notes (self : NoLossTokenizer) (l : list token) :
  forall st,
    (forall p, ~ In (NOTE_ON p) l) -> (forall p, ~ In (NOTE_OFF p) l) ->
    exists st',
      fix_scan self st l = Ok st'
      /\ fx_tokens st' = fx_tokens st /\ fx_pressed st' = fx_pressed st.
Proof.
  induction l as [|t l IH]; intros st Hon Hoff.
  - exists st. repeat split.
  - assert (Hstep : exists st1, fix_step self st t = Ok st1
                      /\ fx_tokens st1 = fx_tokens st
                      /\ fx_pressed st1 = fx_pressed st).
    { destruct t as [|p|p|b|k]; cbn [fix_step].
      - exists st. repeat split.
      - exfalso. apply (Hon p). left. reflexivity.
      - exfalso. apply (Hoff p). left. reflexivity.
      - eexists. split; [reflexivity|]. split; reflexivity.
      - exists st. repeat split. }
    destruct Hstep as (st1 & H1 & Ht1 & Hp1).
    destruct (IH st1) as (st' & Hscan & Ht & Hp).
    + intros p Hin. apply (Hon p). right. exact Hin.
    + intros p Hin. apply (Hoff p). right. exact Hin.
    + exists st'. cbn [fix_scan]. rewrite H1. cbn [bind].
      split; [exact Hscan|]. split; congruence.
Qed.

Lemma fix_release_free (self : NoLossTokenizer) (tokens : list token) :
  fix_release self tokens (enumerate (repeat (-1) 110)) = Ok tokens.
Proof. vm_compute. reflexivity. Qed.

(** With 128 bins the edges are 0, 1, ..., 127 and a velocity below 127
    is decoded to itself. *)
Lemma quantize_velocity_exact_128 (self : NoLossTokenizer) (K : nat) :
  built self K -> n_velocity_bins self = 128 ->
  forall v, 0 <= v < 127 ->
    list_get (bin_to_velocity self) (quantize_velocity self v) = Ok v.
Proof.
  intros HK H128 v Hv. assert (Hn : 2 <= n_velocity_bins self) by lia.
  destruct (quantize_velocity_decodes self K HK Hn v Hv)
    as (lo & hi & v' & Hb & Hlo & Hhi & Hlh & Hget & Hhalf).
  set (b := quantize_velocity self v) in *.
  pose proof (velocity_bin_edges_nth self K HK Hn b ltac:(lia)) as Hlo'.
  pose proof (velocity_bin_edges_nth self K HK Hn (b + 1) ltac:(lia)) as Hhi'.
  replace (Z.to_nat (b + 1)) with (S (Z.to_nat b)) in Hhi' by lia.
  rewrite H128 in Hlo', Hhi'. change (128 - 1) with 127 in Hlo', Hhi'.
  rewrite (Z.mul_comm 127 b), Z.div_mul in Hlo' by lia.
  rewrite (Z.mul_comm 127 (b + 1)), Z.div_mul in Hhi' by lia.
  assert (Hl : lo = b) by congruence. assert (Hh : hi = b + 1) by congruence.
  rewrite Hget. f_equal. lia.
Qed.

Lemma digitize_monotone (v v' : Z) (l : list Z) :
  v <= v' -> digitize v l <= digitize v' l.
Proof.
  intros H. unfold digitize. apply inj_le.
  induction l as [|x l IH]; [reflexivity|]. cbn [filter].
  destruct (x <=? v) eqn:E1, (x <=? v') eqn:E2; cbn [length]; lia.
Qed.

(** X9: the bin of a velocity never decreases when the velocity grows;
    a negative velocity gets bin [-1], for which there is no symbol; a
    velocity that is not negative gets a bin that has a symbol; and every
    velocity from 127 on gets the last bin. *)
Theorem quantize_velocity_bins
  (fuel : nat) (e : Q) (n : Z) (self : NoLossTokenizer) :
  __init__ fuel e n = Ok self ->
  1 <= n ->
  (forall v v', v <= v' -> quantize_velocity self v <= quantize_velocity self v') /\
  (forall v, v < 0 ->
     quantize_velocity self v = -1
     /\ dict_get Z.eqb (velocity_bin_to_token self) (quantize_velocity self v) = None) /\
  (forall v, 0 <= v ->
     0 <= quantize_velocity self v < n
     /\ dict_get Z.eqb (velocity_bin_to_token self) (quantize_velocity self v)
        = Some (VELOCITY (quantize_velocity self v))) /\
  (forall v, 127 <= v -> quantize_velocity self v = n - 1).
Proof.
  intros Hinit Hn. apply init_built in Hinit.
  destruct Hinit as (_ & <- & K & HK).
  assert (Hn0 : 0 <= n_velocity_bins self) by lia.
  split; [|split; [|split]].
  - intros v v' Hv. unfold quantize_velocity.
    pose proof (digitize_monotone v v' (velocity_bin_edges self) Hv). lia.
  - intros v Hv. rewrite (quantize_velocity_negative self K HK Hn0 v Hv).
    split; [reflexivity|]. rewrite (velocity_bin_to_token_get self K HK).
    reflexivity.
  - intros v Hv.
    pose proof (quantize_velocity_range self K HK Hn0 v Hn Hv) as Hr.
    split; [exact Hr|]. rewrite (velocity_bin_to_token_get self K HK).
    replace ((0 <=? quantize_velocity self v)
             && (quantize_velocity self v <? n_velocity_bins self))
      with true by lia.
    reflexivity.
  - intros v Hv. unfold quantize_velocity.
    destruct (velocity_bin_edges_all self K HK Hn0) as (Hlen & Hall).
    rewrite digitize_all.
    + rewrite Hlen. lia.
    + eapply Forall_impl; [|exact Hall]. intros x Hx. cbv beta in Hx. lia.
Qed.

Lemma quantize_velocity_bins_witness :
  exists self,
    __init__ 3 (1 # 4) 32 = Ok self /\
    quantize_velocity self 40 <= quantize_velocity self 90 /\
    quantize_velocity self (-5) = -1 /\
    quantize_velocity self 300 = 32 - 1.
Proof.
  eexists. split; [vm_compute; reflexivity|].
  destruct (quantize_velocity_bins 3 (1 # 4) 32 _
              ltac:(vm_compute; reflexivity) ltac:(lia))
    as (Hmono & Hneg & _ & Htop).
  split; [apply Hmono; lia|]. split; [apply (Hneg (-5)); lia | apply Htop; lia].
Defined.

(** X10: on a codec with at least two velocity bins a velocity below 127
    is decoded to a velocity of the same bin, so that quantizing the
    decoded velocity gives the bin again; the two differ by at most half
    of [127 / (n_velocity_bins - 1) + 1], and with 128 bins they are equal. *)
Theorem velocity_round_trip
  (fuel : nat) (e : Q) (n : Z) (self : NoLossTokenizer) (v : Z) :
  __init__ fuel e n = Ok self ->
  2 <= n ->
  0 <= v < 127 ->
  exists v',
    list_get (bin_to_velocity self) (quantize_velocity self v) = Ok v'
    /\ quantize_velocity self v' = quantize_velocity self v
    /\ 0 <= v' < 127
    /\ 2 * Z.abs (v' - v) <= 127 / (n - 1) + 1
    /\ (n = 128 -> v' = v).
Proof.
  intros Hinit Hn Hv. apply init_built in Hinit.
  destruct Hinit as (_ & <- & K & HK).
  destruct (quantize_velocity_decodes self K HK Hn v Hv)
    as (lo & hi & v' & Hb & Hlo & Hhi & Hlh & Hget & Hhalf).
  set (b := quantize_velocity self v) in *.
  set (m := n_velocity_bins self - 1) in *.
  pose proof (velocity_bin_edges_nth self K HK Hn b ltac:(lia)) as Hlo'.
  pose proof (velocity_bin_edges_nth self K HK Hn (b + 1) ltac:(lia)) as Hhi'.
  replace (Z.to_nat (b + 1)) with (S (Z.to_nat b)) in Hhi' by lia.
  rewrite Hlo in Hlo'. rewrite Hhi in Hhi'.
  fold m in Hlo', Hhi'.
  assert (Hlo_eq : lo = 127 * b / m) by congruence.
  assert (Hhi_eq : hi = 127 * (b + 1) / m) by congruence.
  clear Hlo' Hhi'.
  assert (Hm0 : 0 < m) by (unfold m; lia).
  assert (Hbm : b < m) by (unfold m; lia).
  assert (Hv' : v' = Z.quot (lo + hi) 2).
  { unfold list_get in Hget. replace (b <? 0) with false in Hget by lia.
    rewrite (built_bin_to_velocity _ _ HK) in Hget.
    rewrite (_build_velocity_decoder_nth _ _ _ _ Hlo Hhi) in Hget.
    inversion Hget. reflexivity. }
  assert (Hlo0 : 0 <= lo) by (rewrite Hlo_eq; apply Z.div_pos; lia).
  assert (Hhi127 : hi <= 127).
  { rewrite Hhi_eq. apply Z.div_le_upper_bound; [lia|]. nia. }
  assert (Hin : lo <= v' < hi).
  { rewrite Hv', Z.quot_div_nonneg by lia.
    pose proof (Z.div_mod (lo + hi) 2 ltac:(lia)).
    pose proof (Z.mod_pos_bound (lo + hi) 2 ltac:(lia)). lia. }
  exists v'. split; [exact Hget|]. split; [|split; [lia|split]].
  - unfold quantize_velocity. fold b. f_equal.
    assert (Hbd : digitize v (velocity_bin_edges self) = b + 1)
      by (unfold b, quantize_velocity; lia).
    destruct (digitize_brackets v' (velocity_bin_edges self)
                (velocity_bin_edges_sorted self K HK Hn))
      as (Hbelow & Habove & Hrange).
    set (c' := digitize v' (velocity_bin_edges self)) in *.
    assert (Hlen : length (velocity_bin_edges self) = Z.to_nat (n_velocity_bins self)).
    { rewrite (velocity_bin_edges_eq self K HK Hn), length_map, length_range.
      f_equal. lia. }
    destruct (Z_lt_le_dec c' (b + 1)) as [Hlt|Hge].
    + exfalso.
      pose proof (velocity_bin_edges_nth self K HK Hn c' ltac:(lia)) as Hc.
      apply Habove in Hc. fold m in Hc.
      assert (127 * c' / m <= 127 * b / m) by (apply Z.div_le_mono; lia).
      lia.
    + destruct (Z.eq_dec c' (b + 1)) as [Heq|Hne]; [lia|]. exfalso.
      assert (Hle : hi <= v').
      { apply (Hbelow (S (Z.to_nat b)) hi); [lia | exact Hhi]. }
      lia.
  - assert (Hw : hi - lo <= 127 / m + 1).
    { rewrite Hlo_eq, Hhi_eq.
      assert (Hm : 0 < m) by exact Hm0.
      assert (Hlt : 127 * (b + 1) / m < 127 * b / m + 127 / m + 2).
      { apply Z.div_lt_upper_bound; [exact Hm|].
        pose proof (Z.div_mod (127 * b) m ltac:(lia)).
        pose proof (Z.mod_pos_bound (127 * b) m Hm).
        pose proof (Z.div_mod 127 m ltac:(lia)).
        pose proof (Z.mod_pos_bound 127 m Hm). nia. }
      lia. }
    lia.
  - intros H128. assert (Hm : m = 127) by (unfold m; lia).
    rewrite Hm in Hlo_eq, Hhi_eq.
    rewrite (Z.mul_comm 127 b), Z.div_mul in Hlo_eq by lia.
    rewrite (Z.mul_comm 127 (b + 1)), Z.div_mul in Hhi_eq by lia.
    lia.
Qed.

Lemma velocity_round_trip_witness :
  exists self,
    __init__ 3 (1 # 4) 32 = Ok self /\
    exists v',
      list_get (bin_to_velocity self) (quantize_velocity self 100) = Ok v'
      /\ quantize_velocity self v' = quantize_velocity self 100
      /\ 0 <= v' < 127
      /\ 2 * Z.abs (v' - 100) <= 127 / (32 - 1) + 1
      /\ (32 = 128 -> v' = 100).
Proof.
  eexists. split; [vm_compute; reflexivity|].
  apply (velocity_round_trip 3 (1 # 4) 32); [vm_compute; reflexivity | lia | lia].
Defined.

(** X11: on every codec with a velocity bin, velocity 127 is put in the
    last bin, whose symbol is in the vocabulary but which the decoder
    table, one entry shorter than the edges, does not hold: [untokenize]
    raises [IndexError] on every vocabulary sequence in which that symbol
    occurs. *)
Theorem top_velocity_is_never_decoded
  (fuel : nat) (e : Q) (n : Z) (self : NoLossTokenizer) :
  __init__ fuel e n = Ok self ->
  1 <= n ->
  quantize_velocity self 127 = n - 1 /\
  dict_get Z.eqb (velocity_bin_to_token self) (n - 1) = Some (VELOCITY (n - 1)) /\
  In (VELOCITY (n - 1)) (vocab self) /\
  length (bin_to_velocity self) = Z.to_nat (n - 1) /\
  list_get (bin_to_velocity self) (n - 1) = Err IndexError /\
  forall tokens,
    in_vocab self tokens -> In (VELOCITY (n - 1)) tokens ->
    untokenize self tokens = Err IndexError.
Proof.
  intros Hinit Hn. apply init_built in Hinit.
  destruct Hinit as (_ & <- & K & HK).
  assert (Hn0 : 0 <= n_velocity_bins self) by lia.
  split; [apply (quantize_velocity_top self K HK Hn0 Hn)|].
  split; [rewrite (velocity_bin_to_token_get self K HK);
          replace ((0 <=? n_velocity_bins self - 1)
                   && (n_velocity_bins self - 1 <? n_velocity_bins self))
            with true by lia; reflexivity|].
  split; [apply (in_vocab_velocity self K HK); lia|].
  split; [apply (bin_to_velocity_length self K HK Hn0)|].
  split; [apply (list_get_bin_to_velocity self K HK Hn0); lia|].
  intros tokens Hv Hin. unfold untokenize.
  destruct (fix_token_sequences_shape self K HK tokens Hn Hv)
    as (front & back & -> & _ & _ & _ & Hall).
  cbn [bind].
  rewrite (untokenize_scan_top self K HK Hn0); [reflexivity | exact Hall|].
  apply in_or_app. right. apply in_or_app. left. exact Hin.
Qed.

Lemma top_velocity_is_never_decoded_witness :
  exists self,
    __init__ 3 (1 # 4) 8 = Ok self /\
    quantize_velocity self 127 = 8 - 1 /\
    untokenize self [VELOCITY 7; NOTE_ON 60; VELOCITY 7; NOTE_OFF 60]
    = Err IndexError.
Proof.
  eexists. split; [vm_compute; reflexivity|].
  destruct (top_velocity_is_never_decoded 3 (1 # 4) 8 _
              ltac:(vm_compute; reflexivity) ltac:(lia))
    as (Hq & _ & _ & _ & _ & Hun).
  split; [exact Hq|]. apply Hun.
  - apply in_vocabb_true. vm_compute; reflexivity.
  - left. reflexivity.
Defined.

(** X12: [untokenize] raises [KeyError] on a vocabulary sequence without
    a press or release symbol, the empty sequence included; as [tokenize]
    returns the empty sequence for a frame without rows, such a frame does
    not come back. *)
Theorem untokenize_without_notes_raises
  (fuel : nat) (e : Q) (n : Z) (self : NoLossTokenizer) (tokens : list token) :
  __init__ fuel e n = Ok self ->
  in_vocab self tokens ->
  (forall p, ~ In (NOTE_ON p) tokens) ->
  (forall p, ~ In (NOTE_OFF p) tokens) ->
  ~ In (VELOCITY (n - 1)) tokens ->
  untokenize self tokens = Err KeyError /\
  (forall fuel' vb,
      snd (tokenize self fuel' {| rows := []; velocity_bin := vb |}) = Ok []) /\
  untokenize self [] = Err KeyError.
Proof.
  intros Hinit Hv Hon Hoff Htop.
  pose proof (init_nonnegative_bins _ _ _ _ Hinit) as Hn0.
  apply init_built in Hinit. destruct Hinit as (_ & <- & K & HK).
  split; [|split; [intros fuel' vb; reflexivity | reflexivity]].
  unfold untokenize.
  assert (Hfix : fix_token_sequences self tokens = Ok tokens).
  { unfold fix_token_sequences.
    destruct (fix_scan_no_notes self tokens
                {| fx_tokens := tokens; fx_pressed := repeat (-1) 110;
                   fx_current_velocity_token := VELOCITY 0 |} Hon Hoff)
      as (st & -> & Ht & Hp).
    cbn [bind]. cbn [fx_tokens fx_pressed] in Ht, Hp. rewrite Ht, Hp.
    apply fix_release_free. }
  rewrite Hfix. cbn [bind].
  destruct (untokenize_scan_no_notes self K HK Hn0 tokens
              {| current_time := 0; current_velocity := 0;
                 ut_note_on_events := []; ut_note_off_events := [] |}
              Hv Htop Hon Hoff) as (st & -> & H1 & _).
  cbn [bind]. rewrite H1. reflexivity.
Qed.

Lemma untokenize_without_notes_raises_witness :
  exists self,
    __init__ 3 (1 # 4) 8 = Ok self /\
    untokenize self [CLS; TIME 2; VELOCITY 3; TIME 1] = Err KeyError /\
    untokenize self [] = Err KeyError.
Proof.
  eexists. split; [vm_compute; reflexivity|].
  destruct (untokenize_without_notes_raises 3 (1 # 4) 8 _
              [CLS; TIME 2; VELOCITY 3; TIME 1]
              ltac:(vm_compute; reflexivity)) as (H1 & _ & H2).
  - apply in_vocabb_true. vm_compute; reflexivity.
  - intros p [H|[H|[H|[H|[]]]]]; discriminate H.
  - intros p [H|[H|[H|[H|[]]]]]; discriminate H.
  - intros [H|[H|[H|[H|[]]]]]; discriminate H.
  - split; [exact H1 | exact H2].
Defined.

(** ** When the time-delta encoder returns *)

Lemma pow2_inject (j : Z) : 0 <= j -> (2 ^ j == inject_Z (2 ^ j))%Q.
Proof.
  intros H. change 2%Q with (inject_Z 2). symmetry. apply Zpower_Qpower. exact H.
Qed.

Lemma Qabs_ge_lower (x e : Q) : (e <= Qabs x)%Q -> (- e < x)%Q -> (e <= x)%Q.
Proof.
  intros H Hlow. destruct (Qlt_le_dec x 0) as [Hneg|Hpos].
  - rewrite Qabs_neg in H by lra. lra.
  - rewrite Qabs_pos in H by exact Hpos. exact H.
Qed.

(** Some multiple of a positive step exceeds any gap. *)
Lemma gap_below_multiple (dt e : Q) :
  (0 <= dt)%Q -> (0 < e)%Q ->
  exists c : nat, (dt < inject_Z (Z.of_nat c) * e)%Q.
Proof.
  intros Hdt He. exists (Z.to_nat (Qnum dt * Z.pos (Qden e) + 1)).
  destruct dt as [a b], e as [p q]. unfold Qle, Qlt in *. cbn in *.
  rewrite Z2Nat.id by nia. nia.
Qed.

(** More fuel never changes an answer the loop has reached. *)
Lemma tokenize_time_distance_loop_fuel (self : NoLossTokenizer) (dt : Q)
  (fuel : nat) :
  forall time_tokens filling_dt current_step out,
    tokenize_time_distance_loop self fuel dt time_tokens filling_dt current_step
    = Ok out ->
    forall fuel', (fuel <= fuel')%nat ->
    tokenize_time_distance_loop self fuel' dt time_tokens filling_dt current_step
    = Ok out.
Proof.
  induction fuel as [|fuel IH]; intros toks filled step out H fuel' Hle;
    [discriminate H|].
  destruct fuel' as [|fuel']; [lia|].
  rewrite tokenize_time_distance_loop_eq in *.
  destruct (Qltb (Qabs (dt - filled)) (eps self)); [exact H|].
  destruct (Qltb (eps self) (filled + step - dt)).
  - apply (IH _ _ _ _ H). lia.
  - destruct (get_or KeyError (dict_get Qeq_bool (dt_to_token self) step));
      cbn [bind] in *; try discriminate H.
    apply (IH _ _ _ _ H). lia.
Qed.

(** Once the running total is [eps] or more above the gap the loop only
    halves the step. *)
Lemma tokenize_time_distance_loop_behind (self : NoLossTokenizer) (dt : Q)
  (fuel : nat) :
  forall time_tokens filling_dt current_step,
    (eps self <= filling_dt - dt)%Q -> (0 < eps self)%Q -> (0 < current_step)%Q ->
    tokenize_time_distance_loop self fuel dt time_tokens filling_dt current_step
    = OutOfFuel.
Proof.
  induction fuel as [|fuel IH]; intros toks filled step Hge Heps Hpos; [reflexivity|].
  rewrite tokenize_time_distance_loop_eq.
  assert (Hexit : Qltb (Qabs (dt - filled)) (eps self) = false).
  { apply Qltb_false. rewrite Qabs_neg by lra. lra. }
  assert (Hover : Qltb (eps self) (filled + step - dt) = true).
  { apply Qltb_true. lra. }
  rewrite Hexit, Hover. apply IH; [exact Hge | exact Heps|].
  apply Qlt_shift_div_l; lra.
Qed.

Section TimeEncoder.

Variable self : NoLossTokenizer.
Variable K : nat.
Hypothesis Hbuilt : built self K.

Lemma dt_to_token_rung (j : nat) (step : Q) :
  (j < K)%nat -> (step == eps self * 2 ^ Z.of_nat j)%Q ->
  exists tok, dict_get Qeq_bool (dt_to_token self) step = Some tok.
Proof.
  intros Hj Hs. rewrite (built_dt_to_token _ _ Hbuilt).
  apply (rung_dt_to_token_some K 1 (eps self) (Z.of_nat j + 1) step); [lia|].
  rewrite Hs. replace (Z.of_nat j + 1 - 1) with (Z.of_nat j) by lia. reflexivity.
Qed.

Lemma rung_at_least_eps (j : nat) (step : Q) :
  (step == eps self * 2 ^ Z.of_nat j)%Q -> (eps self <= step)%Q.
Proof.
  intros Hs. pose proof (eps_positive self K Hbuilt) as Hpos.
  pose proof (Qpower_1_le 2 (Z.of_nat j) ltac:(discriminate) ltac:(lia)) as Hp.
  assert (Hm : (eps self * 1 <= eps self * 2 ^ Z.of_nat j)%Q).
  { rewrite !(Qmult_comm (eps self)). apply Qmult_le_compat_r; [exact Hp | lra]. }
  rewrite Hs. lra.
Qed.

Lemma rung_as_multiple (j : nat) (step : Q) :
  (step == eps self * 2 ^ Z.of_nat (S j))%Q ->
  (step == inject_Z (2 * 2 ^ Z.of_nat j) * eps self)%Q.
Proof.
  intros Hs. rewrite Hs, Nat2Z.inj_succ. unfold Z.succ.
  rewrite pow2_succ by lia. rewrite (pow2_inject (Z.of_nat j)) by lia.
  rewrite inject_Z_mult. change (inject_Z 2) with 2%Q. ring.
Qed.

Lemma one_rung_of_large_eps : (1 <= 2 * eps self)%Q -> K = 1%nat.
Proof.
  intros H. pose proof (built_ladder _ _ Hbuilt) as H0.
  pose proof (built_below_one _ _ Hbuilt) as Hb.
  destruct K as [|[|k]]; [congruence | reflexivity | exfalso].
  pose proof (rungs_below_one _ 1 (eps self) 2 Hb ltac:(lia)) as Hlt.
  change (2 ^ (2 - 1))%Q with 2%Q in Hlt. lra.
Qed.

(** The loop returns from every state it can reach when the gap is not an
    odd multiple of [eps], or when the ladder has a single rung.  The step
    is the rung [j]; while [j > 0] the running total is an even multiple of
    [eps]; the total stays below [dt + eps]; [c] bounds the symbols still
    to be emitted. *)
Lemma tokenize_time_distance_loop_returns (dt : Q) :
  (K = 1%nat \/ forall m : Z, ~ (dt == inject_Z (2 * m + 1) * eps self)%Q) ->
  forall fuel j c time_tokens filling_dt current_step,
    (j < K)%nat ->
    (current_step == eps self * 2 ^ Z.of_nat j)%Q ->
    (j = 0%nat \/ exists a : Z, (filling_dt == inject_Z (2 * a) * eps self)%Q) ->
    (filling_dt < dt + eps self)%Q ->
    (dt - filling_dt < inject_Z (Z.of_nat c) * eps self)%Q ->
    (j + c < fuel)%nat ->
    exists out,
      tokenize_time_distance_loop self fuel dt time_tokens filling_dt current_step
      = Ok out.
Proof.
  intros Hodd. pose proof (eps_positive self K Hbuilt) as Hpos.
  induction fuel as [|fuel IH];
    intros j c toks filled step Hj Hs Hpar Hlt Hc Hfuel; [lia|].
  rewrite tokenize_time_distance_loop_eq.
  destruct (Qltb (Qabs (dt - filled)) (eps self)) eqn:Eexit;
    [eexists; reflexivity|].
  apply Qltb_false in Eexit.
  assert (Hd : (eps self <= dt - filled)%Q)
    by (apply Qabs_ge_lower; [exact Eexit | lra]).
  assert (Hc1 : (1 <= c)%nat).
  { destruct c as [|c]; [|lia]. exfalso.
    change (inject_Z (Z.of_nat 0)) with 0%Q in Hc. lra. }
  destruct (Qltb (eps self) (filled + step - dt)) eqn:Eover.
  - apply Qltb_true in Eover. destruct j as [|j].
    + exfalso. cbn [Z.of_nat Qpower] in Hs. rewrite Qmult_1_r in Hs.
      rewrite Hs in Eover. lra.
    + apply (IH j c); try lia; try assumption.
      * rewrite Hs, Nat2Z.inj_succ. unfold Z.succ. rewrite pow2_succ by lia. field.
      * right. destruct Hpar as [Hj0|Ha]; [discriminate Hj0 | exact Ha].
  - apply Qltb_false in Eover.
    destruct (dt_to_token_rung j step Hj Hs) as (tok & ->). cbn [get_or bind].
    pose proof (rung_at_least_eps j step Hs) as Hge.
    apply (IH j (c - 1)%nat); try lia; try assumption.
    + destruct j as [|j]; [left; reflexivity|]. right.
      destruct Hpar as [Hj0|(a & Ha)]; [discriminate Hj0|].
      exists (a + 2 ^ Z.of_nat j). rewrite Ha, (rung_as_multiple j step Hs).
      replace (2 * (a + 2 ^ Z.of_nat j)) with (2 * a + 2 * 2 ^ Z.of_nat j) by lia.
      rewrite inject_Z_plus. ring.
    + destruct (Qlt_le_dec (filled + step) (dt + eps self)) as [H|H]; [exact H|].
      exfalso. destruct j as [|j].
      * cbn [Z.of_nat Qpower] in Hs. rewrite Qmult_1_r in Hs. rewrite Hs in H. lra.
      * destruct Hpar as [Hj0|(a & Ha)]; [discriminate Hj0|].
        destruct Hodd as [HK1|Hodd]; [lia|].
        apply (Hodd (a + 2 ^ Z.of_nat j - 1)).
        assert (Heq : (dt == filled + step - eps self)%Q) by lra.
        rewrite Heq, Ha, (rung_as_multiple j step Hs).
        replace (2 * (a + 2 ^ Z.of_nat j - 1) + 1)
          with (2 * a + 2 * 2 ^ Z.of_nat j + -1) by lia.
        rewrite !inject_Z_plus. change (inject_Z (-1)) with (- (1))%Q. ring.
    + replace (Z.of_nat (c - 1)) with (Z.of_nat c + -1) by lia.
      rewrite inject_Z_plus. change (inject_Z (-1)) with (- (1))%Q. lra.
Qed.

Lemma tokenize_time_distance_total (dt : Q) :
  (0 <= dt)%Q ->
  ((1 <= 2 * eps self)%Q
   \/ forall m : Z, ~ (dt == inject_Z (2 * m + 1) * eps self)%Q) ->
  exists fuel time_tokens,
    forall fuel', (fuel <= fuel')%nat ->
      tokenize_time_distance self fuel' dt = Ok time_tokens.
Proof.
  intros Hdt Hodd. pose proof (eps_positive self K Hbuilt) as Hpos.
  pose proof (built_ladder _ _ Hbuilt) as HK0.
  destruct (gap_below_multiple dt (eps self) Hdt Hpos) as (c & Hc).
  destruct (tokenize_time_distance_loop_returns dt
              ltac:(destruct Hodd as [H|H];
                    [left; apply one_rung_of_large_eps; exact H | right; exact H])
              (S (K - 1 + c)) (K - 1)%nat c [] 0 (max_time_value self))
    as (out & Hout); try lia.
  - rewrite (max_time_value_rung self K Hbuilt).
    replace (Z.of_nat (K - 1)) with (Z.of_nat K - 1) by lia. reflexivity.
  - right. exists 0. cbn. ring.
  - lra.
  - setoid_replace (dt - 0)%Q with dt by ring. exact Hc.
  - exists (S (K - 1 + c)), out. intros fuel' Hle. unfold tokenize_time_distance.
    apply (tokenize_time_distance_loop_fuel self dt _ _ _ _ _ Hout). exact Hle.
Qed.

(** With a gap that is an odd multiple [(2 r + 1) * eps] still to fill and
    a step of at least [2 * eps], the loop halves the step or emits an
    even multiple of [eps], until the total is [eps] above the gap. *)
Lemma tokenize_time_distance_loop_odd (dt : Q) :
  forall fuel j r time_tokens filling_dt current_step,
    (1 <= j < K)%nat ->
    (current_step == eps self * 2 ^ Z.of_nat j)%Q ->
    0 <= r ->
    (dt - filling_dt == inject_Z (2 * r + 1) * eps self)%Q ->
    tokenize_time_distance_loop self fuel dt time_tokens filling_dt current_step
    = OutOfFuel.
Proof.
  pose proof (eps_positive self K Hbuilt) as Hpos.
  induction fuel as [|fuel IH]; intros j r toks filled step Hj Hs Hr Hgap;
    [reflexivity|].
  rewrite tokenize_time_distance_loop_eq.
  destruct j as [|j]; [lia|].
  pose proof (rung_as_multiple j step Hs) as Hstep.
  set (P := 2 ^ Z.of_nat j) in *.
  assert (HP : 1 <= P).
  { pose proof (Z.pow_pos_nonneg 2 (Z.of_nat j) ltac:(lia) ltac:(lia)). unfold P. lia. }
  assert (Hscale : forall a b : Z,
             a <= b -> (inject_Z a * eps self <= inject_Z b * eps self)%Q).
  { intros a b Hab. apply Qmult_le_compat_r; [|lra]. rewrite <- Zle_Qle. exact Hab. }
  assert (Hscale' : forall a b : Z,
             a < b -> (inject_Z a * eps self < inject_Z b * eps self)%Q).
  { intros a b Hab. apply Qmult_lt_compat_r; [exact Hpos|].
    rewrite <- Zlt_Qlt. exact Hab. }
  assert (Hone : (inject_Z 1 * eps self == eps self)%Q)
    by (change (inject_Z 1) with 1%Q; ring).
  assert (Hexit : Qltb (Qabs (dt - filled)) (eps self) = false).
  { apply Qltb_false. rewrite Hgap. rewrite Qabs_pos.
    - rewrite <- Hone at 1. apply Hscale. lia.
    - setoid_replace 0%Q with (inject_Z 0 * eps self)%Q
        by (change (inject_Z 0) with 0%Q; ring).
      apply Hscale. lia. }
  rewrite Hexit.
  assert (Hover : (filled + step - dt == inject_Z (2 * P - (2 * r + 1)) * eps self)%Q).
  { setoid_replace (filled + step - dt)%Q with (step - (dt - filled))%Q by ring.
    rewrite Hgap, Hstep.
    replace (2 * P - (2 * r + 1)) with (2 * P + - (2 * r + 1)) by lia.
    rewrite (inject_Z_plus (2 * P) (- (2 * r + 1))), inject_Z_opp. ring. }
  destruct (Z_lt_le_dec (r + 1) P) as [Hlt|Hle].
  - assert (E : Qltb (eps self) (filled + step - dt) = true).
    { apply Qltb_true. rewrite Hover. rewrite <- Hone at 1. apply Hscale'. lia. }
    rewrite E. destruct j as [|j]; [unfold P in Hlt; cbn in Hlt; lia|].
    apply (IH (S j) r); try lia; try assumption.
    rewrite Hs, (Nat2Z.inj_succ (S j)). unfold Z.succ.
    rewrite pow2_succ by lia. field.
  - assert (E : Qltb (eps self) (filled + step - dt) = false).
    { apply Qltb_false. rewrite Hover. rewrite <- Hone at 2. apply Hscale. lia. }
    rewrite E.
    destruct (dt_to_token_rung (S j) step ltac:(lia) Hs) as (tok & ->).
    cbn [get_or bind].
    destruct (Z.eq_dec P (r + 1)) as [Heq|Hne].
    + apply tokenize_time_distance_loop_behind; [|exact Hpos|].
      * rewrite Hover. replace (2 * P - (2 * r + 1)) with 1 by lia.
        rewrite Hone. apply Qle_refl.
      * pose proof (rung_at_least_eps (S j) step Hs). lra.
    + apply (IH (S j) (r - P)); try lia; try assumption.
      setoid_replace (dt - (filled + step))%Q with ((dt - filled) - step)%Q by ring.
      rewrite Hgap, Hstep.
      replace (2 * (r - P) + 1) with (2 * r + 1 + - (2 * P)) by lia.
      rewrite (inject_Z_plus (2 * r + 1) (- (2 * P))), inject_Z_opp. ring.
Qed.

Lemma tokenize_time_distance_odd (m : Z) (fuel : nat) :
  (2 * eps self < 1)%Q -> 0 <= m ->
  tokenize_time_distance self fuel (inject_Z (2 * m + 1) * eps self) = OutOfFuel.
Proof.
  intros Hhalf Hm. pose proof (two_rungs self K Hbuilt Hhalf) as H2.
  unfold tokenize_time_distance.
  apply (tokenize_time_distance_loop_odd _ fuel (K - 1)%nat m); try lia.
  - rewrite (max_time_value_rung self K Hbuilt).
    replace (Z.of_nat (K - 1)) with (Z.of_nat K - 1) by lia. reflexivity.
  - ring.
Qed.

Lemma tokenize_time_distance_negative (dt : Q) (fuel : nat) :
  (dt <= - eps self)%Q -> tokenize_time_distance self fuel dt = OutOfFuel.
Proof.
  intros H. pose proof (eps_positive self K Hbuilt) as Hpos.
  unfold tokenize_time_distance.
  apply tokenize_time_distance_loop_behind; [lra | exact Hpos|].
  pose proof (rung_at_least_eps (K - 1) (max_time_value self)) as Hge.
  rewrite (max_time_value_rung self K Hbuilt) in Hge.
  pose proof (built_ladder _ _ Hbuilt) as HK0.
  replace (Z.of_nat (K - 1)) with (Z.of_nat K - 1) in Hge by lia.
  specialize (Hge ltac:(reflexivity)).
  rewrite (max_time_value_rung self K Hbuilt). lra.
Qed.

End TimeEncoder.





(** ** What [tokenize] returns, and when *)

Lemma tokenize_unfold (self : NoLossTokenizer) (fuel : nat) (notes : DataFrame) :
  snd (tokenize self fuel notes) =
  tokenize_events self fuel
    (map to_event
       (tagged_events
          (map (fun r => (r, quantize_velocity self (velocity r))) (rows notes))))
    0 [].
Proof.
  unfold tokenize. cbn [snd]. unfold _notes_to_events, quantize_frame.
  cbn [velocity_bin rows get_or bind].
  rewrite combine_map_self, events_as_tagged. reflexivity.
Qed.

Lemma length_filter_map {A B : Type} (f : B -> bool) (g : A -> B) (l : list A) :
  length (filter f (map g l)) = length (filter (fun x => f (g x)) l).
Proof.
  induction l as [|x l IH]; [reflexivity|].
  cbn [map filter]. destruct (f (g x)); cbn [length]; rewrite IH; reflexivity.
Qed.

Section TokenizeOutput.

Variable self : NoLossTokenizer.
Variable K : nat.
Hypothesis Hbuilt : built self K.

Lemma blocks_of_in_vocab (previous_time : Q) (tes : list tagged_event)
  (blocks : list (list token)) :
  blocks_of self previous_time tes blocks -> in_vocab self (concat blocks).
Proof.
  induction 1 as [|prev te tes block blocks d Hb _ IH]; [constructor|].
  cbn [concat]. apply Forall_app. split; [|exact IH].
  destruct Hb as (tt & -> & Hr & _ & _ & Hbin & Hp).
  apply Forall_app. split.
  - eapply Forall_impl; [|exact Hr]. intros t (k & d' & _ & _ & Hin & _). exact Hin.
  - constructor; [apply (in_vocab_velocity self K Hbuilt); exact Hbin|].
    constructor; [|constructor]. unfold te_note_token.
    destruct (snd te);
      [apply (in_vocab_note_off self K Hbuilt) | apply (in_vocab_note_on self K Hbuilt)];
      exact Hp.
Qed.

Lemma blocks_of_ranges (previous_time : Q) (tes : list tagged_event)
  (blocks : list (list token)) :
  blocks_of self previous_time tes blocks ->
  Forall (fun te => 0 <= snd (fst te) < n_velocity_bins self
                    /\ 21 <= te_pitch te < 109) tes.
Proof.
  induction 1 as [|prev te tes block blocks d Hb _ IH]; [constructor|].
  constructor; [|exact IH].
  destruct Hb as (tt & _ & _ & _ & _ & Hbin & Hp). split; assumption.
Qed.

Lemma blocks_of_count (t : token) (previous_time : Q) (tes : list tagged_event)
  (blocks : list (list token)) :
  (forall k, t <> TIME k) -> (forall b, t <> VELOCITY b) ->
  blocks_of self previous_time tes blocks ->
  count_token t (concat blocks)
  = length (filter (fun te => token_eqb t (te_note_token te)) tes).
Proof.
  intros Htime Hvel.
  induction 1 as [|prev te tes block blocks d Hb _ IH]; [reflexivity|].
  cbn [concat filter]. rewrite count_token_app, IH.
  destruct Hb as (tt & -> & Hr & _).
  rewrite count_token_app.
  assert (Htt : count_token t tt = 0%nat).
  { unfold count_token. rewrite filter_none; [reflexivity|].
    intros x Hx. rewrite Forall_forall in Hr.
    destruct (Hr x Hx) as (k & _ & -> & _).
    destruct (token_eqb t (TIME k)) eqn:E; [|reflexivity].
    apply token_eqb_eq in E. exfalso. exact (Htime k E). }
  rewrite Htt. unfold count_token at 1. cbn [filter].
  assert (Hv : token_eqb t (VELOCITY (snd (fst te))) = false).
  { destruct (token_eqb t (VELOCITY (snd (fst te)))) eqn:E; [|reflexivity].
    apply token_eqb_eq in E. exfalso. exact (Hvel _ E). }
  rewrite Hv. destruct (token_eqb t (te_note_token te)); reflexivity.
Qed.

Lemma event_tokens_ok (ev : Event) :
  0 <= ev_velocity_bin ev < n_velocity_bins self -> 21 <= ev_pitch ev < 109 ->
  exists toks, event_tokens self ev = Ok toks.
Proof.
  intros Hb Hp. unfold event_tokens.
  rewrite (velocity_bin_to_token_get self K Hbuilt).
  replace ((0 <=? ev_velocity_bin ev) && (ev_velocity_bin ev <? n_velocity_bins self))
    with true by lia.
  cbn [get_or bind].
  rewrite (pitch_to_on_token_get self K Hbuilt), (pitch_to_off_token_get self K Hbuilt).
  replace ((21 <=? ev_pitch ev) && (ev_pitch ev <? 109)) with true by lia.
  destruct (event ev); cbn [get_or bind]; eexists; reflexivity.
Qed.

(** The loop of [tokenize] returns when each gap it meets can be encoded. *)
Lemma tokenize_events_total (T : list Q) :
  ((1 <= 2 * eps self)%Q
   \/ forall t1 t2 m, In t1 T -> In t2 (0%Q :: T) ->
        ~ (t1 - t2 == inject_Z (2 * m + 1) * eps self)%Q) ->
  forall note_events,
    StronglySorted (fun a b => (time a <= time b)%Q) note_events ->
    Forall (fun ev => In (time ev) T
                      /\ 0 <= ev_velocity_bin ev < n_velocity_bins self
                      /\ 21 <= ev_pitch ev < 109) note_events ->
    forall previous_time tokens,
      In previous_time (0%Q :: T) ->
      (forall ev, In ev note_events -> (previous_time <= time ev)%Q) ->
      exists fuel out,
        forall fuel', (fuel <= fuel')%nat ->
          tokenize_events self fuel' note_events previous_time tokens = Ok out.
Proof.
  intros Hodd. induction 1 as [|ev evs Hs IH Hall]; intros Hok prev tokens Hprev Hle.
  - exists 0%nat, tokens. intros fuel' _. reflexivity.
  - inversion Hok as [|? ? (Ht & Hb & Hp) Hok']; subst.
    destruct (tokenize_time_distance_total self K Hbuilt (time ev - prev))
      as (fuel1 & tt & H1).
    + pose proof (Hle ev ltac:(left; reflexivity)). lra.
    + destruct Hodd as [H|H]; [left; exact H|]. right. intros m. apply H; assumption.
    + destruct (event_tokens_ok ev Hb Hp) as (nt & Hnt).
      destruct (IH Hok' (time ev) (tokens ++ tt ++ nt)) as (fuel2 & out & H2).
      * right. exact Ht.
      * rewrite Forall_forall in Hall. exact Hall.
      * exists (Nat.max fuel1 fuel2), out. intros fuel' Hf.
        cbn [tokenize_events]. rewrite H1 by lia. cbn [bind].
        rewrite Hnt. cbn [bind]. apply H2. lia.
Qed.

End TokenizeOutput.

Lemma in_recs_tagged (self : NoLossTokenizer) (rows0 : list Row) (te : tagged_event) :
  In te (tagged_events
           (map (fun r => (r, quantize_velocity self (velocity r))) rows0)) ->
  In (fst (fst te)) rows0
  /\ snd (fst te) = quantize_velocity self (velocity (fst (fst te))).
Proof.
  destruct te as [x k]. intros H. apply tagged_events_in in H.
  apply in_map_iff in H. destruct H as (r & <- & Hr). split; [exact Hr | reflexivity].
Qed.



(** X16: whenever [tokenize] returns, its symbols are symbols of the
    vocabulary, each key has as many press symbols as release symbols,
    namely one per note of that key, and every note of the frame has a
    key in 21..108 and a velocity bin that has a symbol. *)
Theorem tokenize_output_is_balanced
  (fuel0 fuel : nat) (e : Q) (n : Z) (self : NoLossTokenizer)
  (notes : DataFrame) (tokens : list token) :
  __init__ fuel0 e n = Ok self ->
  snd (tokenize self fuel notes) = Ok tokens ->
  in_vocab self tokens /\
  (forall p, count_token (NOTE_ON p) tokens
             = length (filter (fun r => pitch r =? p) (rows notes))) /\
  (forall p, count_token (NOTE_OFF p) tokens
             = length (filter (fun r => pitch r =? p) (rows notes))) /\
  (forall r, In r (rows notes) ->
     21 <= pitch r <= 108 /\ 0 <= quantize_velocity self (velocity r) < n).
Proof.
  intros Hinit Htok. apply init_built in Hinit.
  destruct Hinit as (_ & <- & K & HK).
  rewrite tokenize_unfold in Htok.
  set (recs := map (fun r => (r, quantize_velocity self (velocity r))) (rows notes))
    in *.
  apply (tokenize_events_tagged self K HK) in Htok.
  destruct Htok as (blocks & -> & Hblocks). cbn [app].
  assert (Hcount : forall (t : token) (f : Row * Z -> bool) (g : Row * Z -> bool),
             (forall x, token_eqb t (te_note_token (x, EV_NOTE_OFF)) = f x) ->
             (forall x, token_eqb t (te_note_token (x, EV_NOTE_ON)) = g x) ->
             length (filter (fun te => token_eqb t (te_note_token te))
                            (tagged_events recs))
             = (length (filter f recs) + length (filter g recs))%nat).
  { intros t f g Hf Hg.
    rewrite (Permutation_length
               (Permutation_filter _ _ _ (tagged_events_perm recs))).
    rewrite filter_app, length_app, !length_filter_map.
    f_equal; f_equal; apply filter_ext; intros x; [apply Hf | apply Hg]. }
  assert (Hrows : forall p,
             length (filter (fun x : Row * Z => pitch (fst x) =? p) recs)
             = length (filter (fun r => pitch r =? p) (rows notes))).
  { intros p. unfold recs. rewrite length_filter_map. reflexivity. }
  split; [exact (blocks_of_in_vocab self K HK _ _ _ Hblocks)|].
  split; [|split].
  - intros p.
    rewrite (blocks_of_count self (NOTE_ON p) _ _ _
               ltac:(discriminate) ltac:(discriminate) Hblocks).
    rewrite (Hcount (NOTE_ON p) (fun _ => false)
               (fun x => pitch (fst x) =? p)).
    + rewrite filter_none by reflexivity. rewrite Hrows. reflexivity.
    + reflexivity.
    + intros x. cbn. apply Z.eqb_sym.
  - intros p.
    rewrite (blocks_of_count self (NOTE_OFF p) _ _ _
               ltac:(discriminate) ltac:(discriminate) Hblocks).
    rewrite (Hcount (NOTE_OFF p) (fun x => pitch (fst x) =? p) (fun _ => false)).
    + rewrite (filter_none (fun _ => false)) by reflexivity.
      rewrite Hrows. apply Nat.add_0_r.
    + intros x. cbn. apply Z.eqb_sym.
    + reflexivity.
  - intros r Hr. pose proof (blocks_of_ranges self _ _ _ Hblocks) as Hall.
    rewrite Forall_forall in Hall.
    specialize (Hall ((r, quantize_velocity self (velocity r)), EV_NOTE_ON)).
    cbn [fst snd te_pitch] in Hall. unfold te_pitch in Hall. cbn [fst] in Hall.
    assert (Hin : In ((r, quantize_velocity self (velocity r)), EV_NOTE_ON)
                     (tagged_events recs)).
    { apply tagged_events_in. unfold recs.
      apply (in_map (fun r => (r, quantize_velocity self (velocity r)))). exact Hr. }
    specialize (Hall Hin). lia.
Qed.

Lemma tokenize_output_is_balanced_witness :
  exists self,
    __init__ 3 (1 # 4) 8 = Ok self /\
    exists tokens,
      snd (tokenize self 10
             {| rows := [ {| pitch := 60; start := 0; end_ := 1; velocity := 64 |};
                          {| pitch := 60; start := 1 # 2; end_ := 2; velocity := 30 |} ];
                velocity_bin := None |}) = Ok tokens /\
      in_vocab self tokens /\
      count_token (NOTE_ON 60) tokens = 2%nat /\
      count_token (NOTE_OFF 60) tokens = 2%nat.
Proof.
  eexists. split; [vm_compute; reflexivity|].
  eexists. split; [vm_compute; reflexivity|].
  destruct (tokenize_output_is_balanced 3 10 (1 # 4) 8 _
              {| rows := [ {| pitch := 60; start := 0; end_ := 1; velocity := 64 |};
                           {| pitch := 60; start := 1 # 2; end_ := 2; velocity := 30 |} ];
                 velocity_bin := None |} _
              ltac:(vm_compute; reflexivity) ltac:(vm_compute; reflexivity))
    as (Hv & Hon & Hoff & _).
  split; [exact Hv|]. split; [exact (Hon 60) | exact (Hoff 60)].
Defined.



(** X18: the repair pass returns what [tokenize] returned unchanged when
    every note of the frame has a positive length and notes of one key do
    not overlap. *)
Theorem fix_token_sequences_keeps_tokenize_output
  (fuel0 fuel : nat) (e : Q) (n : Z) (self : NoLossTokenizer)
  (notes : DataFrame) (tokens : list token) :
  __init__ fuel0 e n = Ok self ->
  (forall r, In r (rows notes) -> (start r < end_ r)%Q) ->
  ForallOrdPairs
    (fun r1 r2 => pitch r1 = pitch r2 ->
                  (end_ r1 <= start r2)%Q \/ (end_ r2 <= start r1)%Q)
    (rows notes) ->
  snd (tokenize self fuel notes) = Ok tokens ->
  fix_token_sequences self tokens = Ok tokens.
Proof.
  intros Hinit Hlen Hpairs Htok. apply init_built in Hinit.
  destruct Hinit as (_ & _ & K & HK).
  rewrite tokenize_unfold in Htok.
  set (q := fun r => quantize_velocity self (velocity r)) in *.
  set (recs := map (fun r => (r, q r)) (rows notes)) in *.
  apply (tokenize_events_tagged self K HK) in Htok.
  destruct Htok as (blocks & -> & Hblocks). cbn [app].
  assert (Hin : forall x, In x recs -> In (fst x) (rows notes) /\ snd x = q (fst x)).
  { intros x Hx. apply in_map_iff in Hx. destruct Hx as (r & <- & Hr).
    split; [exact Hr | reflexivity]. }
  assert (Hnd : NoDup recs).
  { apply NoDup_map_injective; [intros a b Hab; inversion Hab; reflexivity|].
    eapply ForallOrdPairs_NoDup; [|exact Hpairs].
    intros x Hx H. cbv beta in H. pose proof (Hlen x Hx).
    destruct (H eq_refl) as [Hle|Hle]; lra. }
  assert (Hrl : forall x, In x recs -> (start (fst x) < end_ (fst x))%Q).
  { intros x Hx. apply Hlen. apply (Hin x Hx). }
  assert (Hap : forall x y, In x recs -> In y recs -> x <> y ->
                  pitch (fst x) = pitch (fst y) ->
                  (end_ (fst x) <= start (fst y))%Q \/ (end_ (fst y) <= start (fst x))%Q).
  { intros x y Hx Hy Hne Hp. destruct (Hin x Hx) as (Hx' & Hqx).
    destruct (Hin y Hy) as (Hy' & Hqy).
    destruct (ForallOrdPairs_In Hpairs _ _ Hx' Hy') as [Heq|[H|H]].
    - exfalso. apply Hne. destruct x as [rx bx], y as [ry b_y].
      cbn [fst snd] in *. subst. reflexivity.
    - apply H. exact Hp.
    - destruct (H (eq_sym Hp)) as [H'|H']; [right | left]; exact H'. }
  assert (Hbn : forall x, In x recs -> 0 <= snd x).
  { intros x Hx. pose proof (blocks_of_ranges self _ _ _ Hblocks) as Hall.
    rewrite Forall_forall in Hall.
    assert (Hte : In (x, EV_NOTE_ON) (tagged_events recs))
      by (apply tagged_events_in; exact Hx).
    apply Hall in Hte. cbn [fst snd] in Hte. lia. }
  destruct (fix_scan_blocks self K HK 0 _ _ Hblocks (fix_init (concat blocks))
              (fun _ => -1)) as (st' & Hscan & Htk & Hpr).
  - split; [reflexivity|]. intros k Hk. cbn [fix_init fx_pressed].
    apply nth_error_repeat. exact Hk.
  - intros l1 x l2 Heq.
    apply (tagged_events_no_orphan recs Hnd Hrl Hap Hbn l1 l2 x Heq).
  - unfold fix_token_sequences. fold (fix_init (concat blocks)).
    rewrite Hscan. cbn [bind]. rewrite Htk. cbn [fix_init fx_tokens].
    apply fix_release_none. apply Forall_forall. intros [k v] Hkv.
    apply in_enumerate in Hkv. destruct Hkv as (i & -> & Hi). cbn [snd].
    destruct Hpr as (Hlen' & Hval).
    assert (Hlt : (i < 110)%nat).
    { rewrite <- Hlen'. apply nth_error_Some. congruence. }
    rewrite (Hval i Hlt) in Hi. inversion Hi.
    apply (tagged_events_all_released recs Hnd Hrl Hap).
Qed.

Lemma fix_token_sequences_keeps_tokenize_output_witness :
  exists self,
    __init__ 3 (1 # 4) 8 = Ok self /\
    exists tokens,
      snd (tokenize self 10
             {| rows := [ {| pitch := 60; start := 0; end_ := 1; velocity := 64 |};
                          {| pitch := 60; start := 1; end_ := 2; velocity := 127 |} ];
                velocity_bin := None |}) = Ok tokens /\
      fix_token_sequences self tokens = Ok tokens.
Proof.
  eexists. split; [vm_compute; reflexivity|].
  eexists. split; [vm_compute; reflexivity|].
  apply (fix_token_sequences_keeps_tokenize_output 3 10 (1 # 4) 8 _
           {| rows := [ {| pitch := 60; start := 0; end_ := 1; velocity := 64 |};
                        {| pitch := 60; start := 1; end_ := 2; velocity := 127 |} ];
              velocity_bin := None |}).
  - vm_compute; reflexivity.
  - intros r [<-|[<-|[]]]; reflexivity.
  - constructor.
    + constructor; [|constructor]. cbn [pitch start end_]. intros _.
      left. apply Qle_refl.
    + constructor; [constructor | constructor].
  - vm_compute; reflexivity.
Defined.

(** ** When [untokenize] returns a frame *)

Lemma length_assign_end (ons : list NoteOn) :
  forall offs, length (assign_end ons offs) = length ons.
Proof.
  induction ons as [|on ons IH]; intros offs; [reflexivity|].
  cbn [assign_end length]. rewrite IH. reflexivity.
Qed.

Lemma nth_error_enumerate (a : list Z) (i : nat) (v : Z) :
  nth_error a i = Some v -> In (Z.of_nat i, v) (enumerate a).
Proof.
  unfold enumerate.
  assert (H : forall l lo j,
             nth_error l j = Some v ->
             In (lo + Z.of_nat j, v)
                (combine (range lo (lo + Z.of_nat (length l))) l)).
  { induction l as [|x l IH]; intros lo j Hj; [destruct j; discriminate Hj|].
    rewrite range_cons by (cbn [length]; lia).
    replace (lo + Z.of_nat (length (x :: l)))
      with (lo + 1 + Z.of_nat (length l)) by (cbn [length]; lia).
    cbn [combine]. destruct j as [|j].
    - left. cbn in Hj. inversion Hj. f_equal. lia.
    - right. cbn [nth_error] in Hj.
      replace (lo + Z.of_nat (S j)) with (lo + 1 + Z.of_nat j) by lia.
      apply IH. exact Hj. }
  intros Hn. apply (H a 0 i Hn).
Qed.

Lemma in_released_tokens (a : list Z) (i : nat) (v : Z) :
  nth_error a i = Some v -> 0 <= v ->
  In (NOTE_OFF (Z.of_nat i)) (released_tokens (enumerate a)).
Proof.
  intros Hn Hv. unfold released_tokens. apply in_flat_map.
  exists (Z.of_nat i, v). split; [apply nth_error_enumerate; exact Hn|].
  cbn [fst snd]. replace (0 <=? v) with true by lia. right. left. reflexivity.
Qed.

Lemma array_set_nth (a a' : list Z) (i v : Z) :
  array_set a i v = Ok a' ->
  exists j,
    (j < length a)%nat
    /\ (0 <= i -> j = Z.to_nat i)
    /\ forall k, nth_error a' k = if (k =? j)%nat then Some v else nth_error a k.
Proof.
  unfold array_set, array_index. intros H.
  set (j := if i <? 0 then i + Z.of_nat (length a) else i) in *.
  destruct ((0 <=? j) && (j <? Z.of_nat (length a))) eqn:E; cbn [bind] in H;
    [|discriminate H].
  inversion H; subst a'; clear H. exists (Z.to_nat j).
  split; [lia|]. split.
  - intros Hi. unfold j. replace (i <? 0) with false by lia. reflexivity.
  - intros k. apply nth_error_update. lia.
Qed.

Section UntokenizeTotal.

Variable self : NoLossTokenizer.
Variable K : nat.
Hypothesis Hbuilt : built self K.
Hypothesis Hbins : 1 <= n_velocity_bins self.

Let top : token := VELOCITY (n_velocity_bins self - 1).

(** No symbol that the repair pass holds is the symbol of the top bin. *)
Let low (st : fix_state) : Prop :=
  fx_current_velocity_token st <> top
  /\ (forall k v, nth_error (fx_pressed st) k = Some v ->
                  v <> n_velocity_bins self - 1)
  /\ ~ In top (fx_tokens st).

Lemma fix_step_low (st st' : fix_state) (t : token) :
  fix_state_ok self st -> low st -> t <> top ->
  fix_step self st t = Ok st' -> low st'.
Proof.
  intros (_ & b & Hcv & Hb) (Hc & Hp & Ht) Hne H.
  destruct t as [|p|p|v|k]; cbn [fix_step] in H.
  - inversion H; subst. repeat split; assumption.
  - inv_bind H. inv_bind H. inv_bind H. inversion H; subst; clear H.
    rewrite Hcv, (token_to_velocity_bin_get self K Hbuilt) in E.
    replace ((0 <=? b) && (b <? n_velocity_bins self)) with true in E by lia.
    inversion E; subst a; clear E.
    match goal with
    | Hs : array_set _ _ _ = Ok _ |- _ =>
        apply array_set_nth in Hs; destruct Hs as (j & _ & _ & Hnth)
    end.
    split; [exact Hc|]. split; [|exact Ht]. cbn [fx_pressed].
    intros k v Hk. rewrite Hnth in Hk.
    destruct (k =? j)%nat; [|exact (Hp k v Hk)].
    inversion Hk; subst v. intros Heq. apply Hc. rewrite Hcv. unfold top.
    f_equal. exact Heq.
  - inv_bind H. inv_bind H. inv_bind H. inv_bind H. inversion H; subst; clear H.
    match goal with
    | Hs : array_set _ _ _ = Ok _ |- _ =>
        apply array_set_nth in Hs; destruct Hs as (j & _ & _ & Hnth)
    end.
    split; [exact Hc|]. cbn [fx_pressed fx_tokens]. split.
    + intros k v Hk. rewrite Hnth in Hk.
      destruct (k =? j)%nat; [|exact (Hp k v Hk)].
      inversion Hk; subst v. lia.
    + destruct (a0 =? -1).
      * inv_bind E1. inversion E1; subst; clear E1.
        match goal with
        | Hg : get_or KeyError (dict_get _ (pitch_to_on_token self) _) = Ok _ |- _ =>
            rewrite (pitch_to_on_token_get self K Hbuilt) in Hg;
            destruct ((21 <=? a) && (a <? 109)); cbn [get_or] in Hg;
            [|discriminate Hg]; inversion Hg; subst; clear Hg
        end.
        intros [Hin|[Hin|Hin]]; [exact (Hc Hin) | discriminate Hin | exact (Ht Hin)].
      * inversion E1; subst. exact Ht.
  - inversion H; subst. split; [exact Hne|]. split; assumption.
  - inversion H; subst. repeat split; assumption.
Qed.

Lemma fix_scan_low (l : list token) :
  forall st st',
    fix_state_ok self st -> low st -> in_vocab self l -> ~ In top l ->
    fix_scan self st l = Ok st' -> low st'.
Proof.
  induction l as [|t l IH]; intros st st' Hok Hlow Hl Hno H; cbn [fix_scan] in H.
  - inversion H; subst. exact Hlow.
  - inv_bind H. inversion Hl as [|? ? Ht Hl']; subst.
    destruct (fix_step_ok self K Hbuilt st t Hok Ht) as (st1 & _ & H1 & Hok1 & _).
    rewrite E in H1. inversion H1; subst a; clear H1.
    apply (IH st1 st' Hok1); [|exact Hl'| |exact H].
    + apply (fix_step_low st st1 t Hok Hlow); [|exact E].
      intros ->. apply Hno. left. reflexivity.
    + intros Hin. apply Hno. right. exact Hin.
Qed.

(** A key that [l] presses and never releases is pressed after [l]. *)
Lemma fix_scan_stays_pressed (p : Z) (l : list token) :
  forall st st',
    21 <= p < 109 ->
    fix_state_ok self st -> in_vocab self l ->
    (forall q, ~ In (NOTE_OFF q) l) ->
    (In (NOTE_ON p) l
     \/ exists v, 0 <= v /\ nth_error (fx_pressed st) (Z.to_nat p) = Some v) ->
    fix_scan self st l = Ok st' ->
    exists v, 0 <= v /\ nth_error (fx_pressed st') (Z.to_nat p) = Some v.
Proof.
  induction l as [|t l IH]; intros st st' Hp Hok Hl Hoff Hin H; cbn [fix_scan] in H.
  - inversion H; subst. destruct Hin as [[]|Hv]. exact Hv.
  - inv_bind H. inversion Hl as [|? ? Ht Hl']; subst.
    destruct (fix_step_ok self K Hbuilt st t Hok Ht) as (st1 & _ & H1 & Hok1 & _).
    rewrite E in H1. inversion H1; subst a; clear H1.
    apply (IH st1 st' Hp Hok1 Hl'); [| |exact H].
    { intros q Hq. apply (Hoff q). right. exact Hq. }
    destruct Hin as [[Hc|Hin]|Hv]; [|left; exact Hin|].
    + subst t. right. destruct Hok as (_ & b & Hcv & Hb).
      cbn [fix_step] in E. inv_bind E. inv_bind E. inv_bind E.
      inversion E; subst; clear E.
      rewrite Hcv, (token_to_velocity_bin_get self K Hbuilt) in E0.
      replace ((0 <=? b) && (b <? n_velocity_bins self)) with true in E0 by lia.
      inversion E0; subst a; clear E0.
      rewrite (token_to_pitch_get self K Hbuilt) in E1.
      replace ((21 <=? p) && (p <? 109)) with true in E1 by lia.
      inversion E1; subst a0; clear E1.
      apply array_set_nth in E2. destruct E2 as (j & _ & Hj & Hnth).
      rewrite (Hj ltac:(lia)) in Hnth. cbn [fx_pressed]. rewrite Hnth.
      rewrite Nat.eqb_refl. exists b. split; [lia | reflexivity].
    + right. destruct Hv as (v & Hv0 & Hv).
      destruct Hok as (_ & b & Hcv & Hb).
      apply (vocab_inv self K Hbuilt) in Ht.
      destruct t as [|q|q|w|k]; cbn [fix_step] in E.
      * inversion E; subst. exists v. split; assumption.
      * inv_bind E. inv_bind E. inv_bind E. inversion E; subst; clear E.
        rewrite Hcv, (token_to_velocity_bin_get self K Hbuilt) in E0.
        replace ((0 <=? b) && (b <? n_velocity_bins self)) with true in E0 by lia.
        inversion E0; subst a; clear E0.
        apply array_set_nth in E2. destruct E2 as (j & _ & _ & Hnth).
        cbn [fx_pressed]. rewrite Hnth.
        destruct (Z.to_nat p =? j)%nat.
        -- exists b. split; [lia | reflexivity].
        -- exists v. split; assumption.
      * exfalso. apply (Hoff q). left. reflexivity.
      * inversion E; subst. exists v. split; assumption.
      * inversion E; subst. exists v. split; assumption.
Qed.

(** After the repair pass a sequence with a press or release symbol has
    both a press and a release symbol, and has the symbol of the top
    velocity bin only if it had it before. *)
Lemma fix_token_sequences_notes (tokens : list token) :
  in_vocab self tokens ->
  (exists t, In t tokens /\ (is_note_on t || is_note_off t) = true) ->
  exists fixed,
    fix_token_sequences self tokens = Ok fixed
    /\ in_vocab self fixed
    /\ (~ In top tokens -> 2 <= n_velocity_bins self -> ~ In top fixed)
    /\ filter is_note_on fixed <> []
    /\ filter is_note_off fixed <> [].
Proof.
  intros Hv (t & Ht & Hnote).
  destruct (fix_scan_shape self K Hbuilt tokens (fix_init tokens)
              (fix_init_ok self tokens Hbins) Hv)
    as (st & front & Hscan & Hok & Htok & _ & Hvf).
  assert (Hfix : fix_token_sequences self tokens
                 = Ok (fx_tokens st ++ released_tokens (enumerate (fx_pressed st)))).
  { unfold fix_token_sequences. fold (fix_init tokens). rewrite Hscan. cbn [bind].
    apply (fix_release_ok self K Hbuilt). apply pressed_ok_enumerate. exact (proj1 Hok). }
  exists (fx_tokens st ++ released_tokens (enumerate (fx_pressed st))).
  split; [exact Hfix|]. split; [|split; [|]].
  - apply Forall_app. split.
    + rewrite Htok. apply Forall_app. split; [exact Hvf | exact Hv].
    + apply (in_vocab_released_tokens self K Hbuilt). exact (proj1 Hok).
  - intros Hno Hn2.
    assert (Hlow : low st).
    { apply (fix_scan_low tokens (fix_init tokens) st
               (fix_init_ok self tokens Hbins)); [|exact Hv | exact Hno | exact Hscan].
      split; [|split].
      - cbn [fix_init fx_current_velocity_token]. unfold top. intros Hc.
        inversion Hc. lia.
      - cbn [fix_init fx_pressed]. intros k v Hk.
        apply nth_error_In in Hk. apply repeat_spec in Hk. lia.
      - exact Hno. }
    destruct Hlow as (_ & Hp & Htk). intros Hin. apply in_app_or in Hin.
    destruct Hin as [Hin|Hin]; [exact (Htk Hin)|].
    unfold released_tokens in Hin. apply in_flat_map in Hin.
    destruct Hin as ((k & s) & Hks & Hin). cbn [fst snd] in Hin.
    destruct (0 <=? s); [|contradiction].
    destruct Hin as [Hc|[Hc|[]]]; [|discriminate Hc].
    apply in_enumerate in Hks. destruct Hks as (i & _ & Hi).
    apply (Hp i s Hi). unfold top in Hc. inversion Hc. reflexivity.
  - assert (Hboth :
      (exists p, In (NOTE_ON p)
                    (fx_tokens st ++ released_tokens (enumerate (fx_pressed st))))
      /\ (exists p, In (NOTE_OFF p)
                       (fx_tokens st ++ released_tokens (enumerate (fx_pressed st))))).
    { assert (Hsub : forall x, In x tokens -> In x (fx_tokens st ++
                       released_tokens (enumerate (fx_pressed st)))).
      { intros x Hx. apply in_or_app. left. rewrite Htok. apply in_or_app.
        right. exact Hx. }
      destruct (existsb is_note_off tokens) eqn:Eoff.
      - apply existsb_exists in Eoff. destruct Eoff as (x & Hx & Hxo).
        destruct x as [|q|q|w|k]; try discriminate Hxo. split; [|exists q; auto].
        destruct (existsb is_note_on tokens) eqn:Eon.
        + apply existsb_exists in Eon. destruct Eon as (y & Hy & Hyo).
          destruct y as [|r|r|w|k]; try discriminate Hyo. exists r. auto.
        + apply in_split in Hx. destruct Hx as (pre & rest & Heq).
          assert (Hno : ~ In (NOTE_ON q) pre).
          { intros Hin.
            assert (Hf : is_note_on (NOTE_ON q) = false).
            { rewrite <- not_true_iff_false. intros _.
              assert (He : existsb is_note_on tokens = true).
              { apply existsb_exists. exists (NOTE_ON q). split; [|reflexivity].
                rewrite Heq. apply in_or_app. left. exact Hin. }
              congruence. }
            discriminate Hf. }
          rewrite Heq in Hv.
          destruct (fix_token_sequences_orphan self K Hbuilt pre rest q Hbins Hv Hno)
            as (f & ea & bk & Hfo & _).
          rewrite <- Heq in Hfo. rewrite Hfix in Hfo. inversion Hfo as [Hfo'].
          exists q. rewrite Hfo'. apply in_or_app. right. right. left. reflexivity.
      - assert (Hnooff : forall q, ~ In (NOTE_OFF q) tokens).
        { intros q Hq.
          assert (He : existsb is_note_off tokens = true).
          { apply existsb_exists. exists (NOTE_OFF q). split; [exact Hq | reflexivity]. }
          congruence. }
        destruct t as [|q|q|w|k]; try discriminate Hnote.
        + split; [exists q; auto|].
          assert (Hq : 21 <= q < 109).
          { unfold in_vocab in Hv. rewrite Forall_forall in Hv.
            apply (vocab_inv self K Hbuilt _ (Hv _ Ht)). }
          destruct (fix_scan_stays_pressed q tokens (fix_init tokens) st Hq
                      (fix_init_ok self tokens Hbins) Hv Hnooff
                      (or_introl Ht) Hscan) as (v & Hv0 & Hnth).
          exists q. apply in_or_app. right.
          replace q with (Z.of_nat (Z.to_nat q)) at 1 by lia.
          apply (in_released_tokens _ _ v Hnth Hv0).
        + exfalso. exact (Hnooff q Ht). }
    destruct Hboth as ((p1 & H1) & (p2 & H2)). split.
    + intros Hnil.
      assert (Hin : In (NOTE_ON p1) (filter is_note_on
                 (fx_tokens st ++ released_tokens (enumerate (fx_pressed st)))))
        by (apply filter_In; split; [exact H1 | reflexivity]).
      rewrite Hnil in Hin. contradiction.
    + intros Hnil.
      assert (Hin : In (NOTE_OFF p2) (filter is_note_off
                 (fx_tokens st ++ released_tokens (enumerate (fx_pressed st)))))
        by (apply filter_In; split; [exact H2 | reflexivity]).
      rewrite Hnil in Hin. contradiction.
Qed.

Lemma untokenize_step_counts (st : untokenize_state) (t : token) :
  In t (vocab self) -> t <> top ->
  exists st',
    untokenize_step self st t = Ok st'
    /\ length (ut_note_on_events st')
       = (length (ut_note_on_events st) + length (filter is_note_on [t]))%nat
    /\ length (ut_note_off_events st')
       = (length (ut_note_off_events st) + length (filter is_note_off [t]))%nat.
Proof.
  intros Hin Hne. apply (in_vocab_member self K t Hbuilt) in Hin.
  destruct t as [|p|p|b|k]; cbn [vocab_member] in Hin;
    cbn [untokenize_step filter is_note_on is_note_off length].
  - exists st. split; [reflexivity|]. split; lia.
  - rewrite (token_to_pitch_get self K Hbuilt).
    replace ((21 <=? p) && (p <? 109)) with true by lia. cbn [get_or bind].
    eexists. split; [reflexivity|].
    cbn [ut_note_on_events ut_note_off_events]. rewrite length_app. cbn [length].
    split; lia.
  - rewrite (token_to_pitch_get self K Hbuilt).
    replace ((21 <=? p) && (p <? 109)) with true by lia. cbn [get_or bind].
    eexists. split; [reflexivity|].
    cbn [ut_note_on_events ut_note_off_events]. rewrite length_app. cbn [length].
    split; lia.
  - rewrite (token_to_velocity_bin_get self K Hbuilt).
    replace ((0 <=? b) && (b <? n_velocity_bins self)) with true by lia.
    cbn [get_or bind].
    destruct (list_get_bin_to_velocity self K Hbuilt ltac:(lia) b Hin) as (Hlow & _).
    destruct Hlow as (v & ->).
    + destruct (Z.eq_dec b (n_velocity_bins self - 1)) as [->|Hb]; [|lia].
      exfalso. apply Hne. reflexivity.
    + cbn [bind]. eexists. split; [reflexivity|].
      cbn [ut_note_on_events ut_note_off_events]. split; lia.
  - rewrite (built_token_to_dt _ _ Hbuilt).
    destruct (rung_token_to_dt_get K 1 (eps self) k ltac:(lia)) as (d & -> & _).
    cbn [get_or bind]. eexists. split; [reflexivity|].
    cbn [ut_note_on_events ut_note_off_events]. split; lia.
Qed.

Lemma untokenize_scan_total (l : list token) :
  forall st,
    in_vocab self l -> ~ In top l ->
    exists st',
      untokenize_scan self st l = Ok st'
      /\ length (ut_note_on_events st')
         = (length (ut_note_on_events st) + length (filter is_note_on l))%nat
      /\ length (ut_note_off_events st')
         = (length (ut_note_off_events st) + length (filter is_note_off l))%nat.
Proof.
  induction l as [|t l IH]; intros st Hl Hno.
  - exists st. cbn. split; [reflexivity|]. split; lia.
  - inversion Hl as [|? ? Ht Hl']; subst.
    destruct (untokenize_step_counts st t Ht) as (st1 & H1 & Hon1 & Hoff1).
    { intros ->. apply Hno. left. reflexivity. }
    destruct (IH st1 Hl') as (st' & Hs & Hon & Hoff).
    { intros Hin. apply Hno. right. exact Hin. }
    exists st'. cbn [untokenize_scan]. rewrite H1. cbn [bind].
    split; [exact Hs|].
    change (t :: l) with ([t] ++ l). rewrite !filter_app, !length_app.
    split; lia.
Qed.

Lemma untokenize_total (tokens : list token) :
  2 <= n_velocity_bins self ->
  in_vocab self tokens -> ~ In top tokens ->
  (exists t, In t tokens /\ (is_note_on t || is_note_off t) = true) ->
  exists fixed out,
    fix_token_sequences self tokens = Ok fixed
    /\ untokenize self tokens = Ok out
    /\ length out = length (filter is_note_on fixed)
    /\ StronglySorted (fun a b => (n_start a <= n_start b)%Q) out.
Proof.
  intros Hn2 Hv Hno Hnote.
  destruct (fix_token_sequences_notes tokens Hv Hnote)
    as (fixed & Hfix & Hvf & Htopf & Hon & Hoff).
  specialize (Htopf Hno Hn2).
  destruct (untokenize_scan_total fixed
              {| current_time := 0; current_velocity := 0;
                 ut_note_on_events := []; ut_note_off_events := [] |} Hvf Htopf)
    as (st & Hscan & Hlon & Hloff).
  cbn [ut_note_on_events ut_note_off_events length] in Hlon, Hloff.
  assert (Hon' : ut_note_on_events st <> []).
  { intros Hnil. rewrite Hnil in Hlon. cbn in Hlon.
    destruct (filter is_note_on fixed); [congruence | discriminate Hlon]. }
  assert (Hoff' : ut_note_off_events st <> []).
  { intros Hnil. rewrite Hnil in Hloff. cbn in Hloff.
    destruct (filter is_note_off fixed); [congruence | discriminate Hloff]. }
  set (A := sorted Z.leb on_pitch (ut_note_on_events st)).
  set (B := sorted Z.leb off_pitch (ut_note_off_events st)).
  assert (HlenA : length A = length (ut_note_on_events st))
    by (apply Permutation_length, sorted_permutation).
  assert (Hne : assign_end A B <> []).
  { intros Hnil. apply (f_equal (@length _)) in Hnil.
    rewrite length_assign_end, HlenA in Hnil.
    destruct (ut_note_on_events st); [congruence | discriminate Hnil]. }
  exists fixed, (sorted Qle_bool n_start (assign_end A B)).
  split; [exact Hfix|]. split; [|split].
  - unfold untokenize. rewrite Hfix. cbn [bind]. rewrite Hscan. cbn [bind].
    rewrite (sort_values_nonempty _ _ _ Hon'). cbn [bind].
    rewrite (sort_values_nonempty _ _ _ Hoff'). cbn [bind].
    fold A B. apply sort_values_nonempty. exact Hne.
  - rewrite (Permutation_length (sorted_permutation _ _ _)).
    rewrite length_assign_end, HlenA, Hlon. reflexivity.
  - apply (sorted_sorted n_start).
Qed.

End UntokenizeTotal.

(** X19: on a codec with at least two velocity bins, [untokenize] returns
    a frame on every vocabulary sequence that has a press or a release
    symbol and not the symbol of the top velocity bin: one row per press
    symbol of the repaired sequence, sorted by start. *)
Theorem untokenize_returns
  (fuel : nat) (e : Q) (n : Z) (self : NoLossTokenizer) (tokens : list token) :
  __init__ fuel e n = Ok self ->
  2 <= n ->
  in_vocab self tokens ->
  ~ In (VELOCITY (n - 1)) tokens ->
  (exists t, In t tokens /\ (is_note_on t || is_note_off t) = true) ->
  exists fixed out,
    fix_token_sequences self tokens = Ok fixed
    /\ untokenize self tokens = Ok out
    /\ length out = length (filter is_note_on fixed)
    /\ StronglySorted (fun a b => (n_start a <= n_start b)%Q) out.
Proof.
  intros Hinit Hn Hv Hno Hnote. apply init_built in Hinit.
  destruct Hinit as (_ & <- & K & HK).
  apply (untokenize_total self K HK ltac:(lia) tokens Hn Hv Hno Hnote).
Qed.

Lemma untokenize_returns_witness :
  exists self,
    __init__ 3 (1 # 4) 8 = Ok self /\
    exists fixed out,
      fix_token_sequences self [VELOCITY 3; NOTE_OFF 60; TIME 1; NOTE_ON 62] = Ok fixed
      /\ untokenize self [VELOCITY 3; NOTE_OFF 60; TIME 1; NOTE_ON 62] = Ok out
      /\ length out = length (filter is_note_on fixed)
      /\ StronglySorted (fun a b => (n_start a <= n_start b)%Q) out.
Proof.
  eexists. split; [vm_compute; reflexivity|].
  apply (untokenize_returns 3 (1 # 4) 8).
  - vm_compute; reflexivity.
  - lia.
  - apply in_vocabb_true. vm_compute; reflexivity.
  - intros [H|[H|[H|[H|[]]]]]; discriminate H.
  - exists (NOTE_OFF 60). split; [right; left; reflexivity | reflexivity].
Defined.

(** ** The round trip on the grid of [eps] *)

Section ExactTimes.

Variable self : NoLossTokenizer.
Variable K : nat.
Hypothesis Hbuilt : built self K.

(** Being an integer multiple of [eps]. *)
Let on_grid (t : Q) : Prop := exists m : Z, (t == inject_Z m * eps self)%Q.

Lemma multiple_below_eps (z : Z) :
  (Qabs (inject_Z z * eps self) < eps self)%Q -> z = 0.
Proof.
  intros H. pose proof (eps_positive self K Hbuilt) as Hpos.
  apply Qabs_Qlt_condition in H. destruct H as (Hlo & Hhi).
  destruct (Z_lt_le_dec z 1) as [H1|H1];
    [destruct (Z_lt_le_dec (-1) z) as [H2|H2]; [lia|]|]; exfalso.
  - pose proof (scale_mono self K Hbuilt z (-1) H2) as Hs.
    change (inject_Z (-1)) with (- (1))%Q in Hs. lra.
  - pose proof (scale_mono self K Hbuilt 1 z H1) as Hs.
    change (inject_Z 1) with 1%Q in Hs. lra.
Qed.

Lemma is_rung_on_grid (t : token) (d : Q) :
  is_rung self t -> dict_get token_eqb (token_to_dt self) t = Some d -> on_grid d.
Proof.
  intros (k & d' & -> & Hk & _ & Hd' & Hv) Hd. rewrite Hd in Hd'.
  inversion Hd'; subst d'. exists (2 ^ (k - 1)).
  rewrite Hv, (pow2_inject (k - 1)) by lia. ring.
Qed.

Lemma decode_time_tokens_on_grid (tt : list token) :
  forall a d,
    Forall (is_rung self) tt -> decode_time_tokens self a tt = Ok d ->
    on_grid a -> on_grid d.
Proof.
  induction tt as [|t tt IH]; intros a d Hall Hdec (m & Hm);
    cbn [decode_time_tokens] in Hdec.
  - inversion Hdec; subst. exists m. exact Hm.
  - inversion Hall as [|? ? Ht Hall']; subst. inv_bind Hdec.
    destruct (dict_get token_eqb (token_to_dt self) t) as [dv|] eqn:Eg;
      cbn [get_or] in E; [|discriminate E].
    inversion E; subst a0; clear E.
    destruct (is_rung_on_grid t dv Ht Eg) as (m' & Hm').
    apply (IH _ _ Hall' Hdec). exists (m + m').
    rewrite inject_Z_plus, Hm, Hm'. ring.
Qed.

(** Between two times of the grid the symbols of a block are worth the
    gap itself. *)
Lemma te_block_exact (previous_time : Q) (te : tagged_event)
  (block : list token) (d : Q) :
  te_block self previous_time te block d ->
  on_grid previous_time -> on_grid (te_time te) ->
  (d == te_time te - previous_time)%Q.
Proof.
  intros (tt & _ & Hr & Hdec & Hclose & _) (mp & Hp) (mt & Ht).
  destruct (decode_time_tokens_on_grid tt 0 d Hr Hdec) as (md & Hd).
  { exists 0. change (inject_Z 0) with 0%Q. ring. }
  assert (Hz : mt + - mp + - md = 0).
  { apply multiple_below_eps.
    rewrite !inject_Z_plus, !inject_Z_opp.
    setoid_replace ((inject_Z mt + - inject_Z mp + - inject_Z md) * eps self)%Q
      with (te_time te - previous_time - d)%Q; [exact Hclose|].
    rewrite Ht, Hp, Hd. ring. }
  assert (Hmd : md = mt + - mp) by lia. subst md.
  rewrite Hd, Ht, Hp, inject_Z_plus, inject_Z_opp. ring.
Qed.

Lemma untokenize_scan_blocks_exact (previous_time : Q) (tes : list tagged_event)
  (blocks : list (list token)) :
  blocks_of self previous_time tes blocks ->
  forall st,
    Forall (decodable self) tes ->
    on_grid previous_time ->
    Forall (fun te => on_grid (te_time te)) tes ->
    (current_time st == previous_time)%Q ->
    exists st' its,
      untokenize_scan self st (concat blocks) = Ok st'
      /\ map fst its = tes
      /\ ut_note_on_events st'
         = ut_note_on_events st ++ map (mk_on self) (filter it_on its)
      /\ ut_note_off_events st'
         = ut_note_off_events st ++ map mk_off (filter it_off its)
      /\ Forall (fun it => (snd it == te_time (fst it))%Q) its.
Proof.
  induction 1 as [prev|prev te tes block blocks d Hb _ IH];
    intros st Hdec Hprev Hgrid Hacc.
  - exists st, []. cbn. rewrite !app_nil_r. repeat split. constructor.
  - inversion Hdec as [|? ? Hd Hdec']; subst.
    inversion Hgrid as [|? ? Hg Hgrid']; subst.
    destruct (untokenize_scan_block self K Hbuilt _ _ _ _ st Hb Hd)
      as (st1 & Hs1 & Ht1 & Hon1 & Hoff1).
    pose proof (te_block_exact _ _ _ _ Hb Hprev Hg) as Hexact.
    assert (Hnew : (current_time st1 == te_time te)%Q).
    { setoid_replace (current_time st1)
        with (current_time st1 - current_time st + current_time st)%Q by ring.
      rewrite Ht1, Hexact, Hacc. ring. }
    destruct (IH st1 Hdec' Hg Hgrid' Hnew)
      as (st2 & its & Hs2 & Hmap & Hon2 & Hoff2 & Hall).
    exists st2, ((te, current_time st1) :: its).
    cbn [concat]. rewrite untokenize_scan_app, Hs1. cbn [bind].
    split; [exact Hs2|]. split; [cbn [map fst]; rewrite Hmap; reflexivity|].
    split; [|split].
    + rewrite Hon2, Hon1, <- app_assoc. f_equal.
      rewrite <- map_app. f_equal.
      change ((te, current_time st1) :: its)
        with ([(te, current_time st1)] ++ its).
      rewrite filter_app. reflexivity.
    + rewrite Hoff2, Hoff1, <- app_assoc. f_equal.
      rewrite <- map_app. f_equal.
      change ((te, current_time st1) :: its)
        with ([(te, current_time st1)] ++ its).
      rewrite filter_app. reflexivity.
    + constructor; [exact Hnew | exact Hall].
Qed.

Hypothesis Hbins : 2 <= n_velocity_bins self.

Variable notes : list Row.
Hypothesis Hnotes : notes <> [].
Hypothesis Hrows :
  forall r, In r notes ->
    21 <= pitch r <= 108 /\ (0 <= start r)%Q /\ (start r < end_ r)%Q
    /\ 0 <= velocity r < 127.
Hypothesis Hpairs :
  ForallOrdPairs
    (fun r1 r2 => pitch r1 = pitch r2 ->
                  (end_ r1 <= start r2)%Q \/ (end_ r2 <= start r1)%Q) notes.
Hypothesis Hgrid :
  forall r, In r notes -> on_grid (start r) /\ on_grid (end_ r).

Let q (r : Row) : Z := quantize_velocity self (velocity r).
Let recs : list (Row * Z) := map (fun r => (r, q r)) notes.

Lemma tagged_events_on_grid :
  Forall (fun te => on_grid (te_time te)) (tagged_events recs).
Proof.
  apply Forall_forall. intros [x k] Hin. apply tagged_events_in in Hin.
  apply in_map_iff in Hin. destruct Hin as (r & <- & Hr).
  destruct (Hgrid r Hr) as (Hs & He).
  unfold te_time, to_event. cbn [time fst snd]. destruct k; assumption.
Qed.

Lemma reproduces_pair_exact (a b : tagged_event * Q) :
  (snd (fst a) = EV_NOTE_ON /\ In (it_rec a) recs
   /\ (snd a == te_time (fst a))%Q) ->
  (snd (fst b) = EV_NOTE_OFF /\ (snd b == te_time (fst b))%Q) ->
  it_rec a = it_rec b ->
  reproduces_exactly self (fst (it_rec a)) (mk_note self (a, b)).
Proof.
  intros (Hka & Hin & Hta) (Hkb & Htb) Hab.
  destruct a as [[x ka] ta], b as [[y kb] tb].
  unfold it_rec in *. cbn [fst snd] in *. subst y ka kb.
  apply in_map_iff in Hin. destruct Hin as (r & <- & Hr).
  pose proof (Hrows r Hr) as Hrr.
  destruct (quantize_velocity_decodes self K Hbuilt Hbins (velocity r))
    as (lo & hi & v' & _ & _ & _ & _ & Hget & _); [tauto|].
  unfold reproduces_exactly, mk_note, it_pitch, it_rec, te_pitch, te_time, to_event in *.
  cbn [fst snd n_pitch n_start n_end n_velocity time] in *.
  split; [reflexivity|]. split; [exact Hta|]. split.
  - exists tb. split; [reflexivity | exact Htb].
  - unfold vel_of, q. rewrite Hget. split; [reflexivity|].
    intros H128.
    pose proof (quantize_velocity_exact_128 self K Hbuilt H128 (velocity r)
                  ltac:(tauto)) as Hex.
    rewrite Hget in Hex. inversion Hex. reflexivity.
Qed.

Lemma untokenize_of_blocks_exact (blocks : list (list token)) :
  blocks_of self 0 (tagged_events recs) blocks ->
  exists out matched,
    untokenize self (concat blocks) = Ok out
    /\ Permutation out matched
    /\ Forall2 (reproduces_exactly self) notes matched
    /\ StronglySorted (fun a b => (n_start a <= n_start b)%Q) out.
Proof.
  intros Hblocks. unfold untokenize.
  rewrite (fix_token_sequences_of_blocks self K Hbuilt Hbins notes Hrows Hpairs
             blocks Hblocks).
  cbn [bind].
  destruct (untokenize_scan_blocks_exact 0 _ _ Hblocks
              {| current_time := 0; current_velocity := 0;
                 ut_note_on_events := []; ut_note_off_events := [] |}
              (tagged_events_decodable self K Hbuilt Hbins notes Hrows))
    as (st & its & Hscan & Hmap & Hon & Hoff & Hacc).
  { exists 0. change (inject_Z 0) with 0%Q. ring. }
  { exact tagged_events_on_grid. }
  { reflexivity. }
  rewrite Hscan. cbn [bind]. rewrite Hon, Hoff.
  cbn [ut_note_on_events ut_note_off_events app].
  pose proof (on_items_perm recs its Hmap) as Hperm_on.
  pose proof (off_items_length recs its Hmap) as Hlen_off.
  pose proof (sorted_recs_agree recs
                (recs_nodup self notes Hrows Hpairs)
                (recs_length self notes Hrows)
                (recs_apart self notes Hpairs)
                (recs_pitch self notes Hrows)
                its Hmap) as Hagree.
  set (A := sorted Z.leb it_pitch (filter it_on its)) in *.
  set (B := sorted Z.leb it_pitch (filter it_off its)) in *.
  assert (HlenA : length A = length notes).
  { unfold A. rewrite (Permutation_length (sorted_permutation _ _ _)).
    rewrite <- (length_map it_rec), (Permutation_length Hperm_on).
    unfold recs. apply length_map. }
  assert (HlenB : length B = length notes).
  { unfold B. rewrite (Permutation_length (sorted_permutation _ _ _)).
    rewrite Hlen_off. unfold recs. apply length_map. }
  assert (Hpos : (0 < length notes)%nat).
  { destruct notes; [congruence | cbn; lia]. }
  rewrite sort_values_nonempty.
  2:{ intros Hnil. apply (f_equal (@length _)) in Hnil.
      rewrite length_map, <- (length_map it_rec),
        (Permutation_length Hperm_on) in Hnil.
      unfold recs in Hnil. rewrite length_map in Hnil. cbn in Hnil. lia. }
  cbn [bind]. rewrite sort_values_nonempty.
  2:{ intros Hnil. apply (f_equal (@length _)) in Hnil.
      rewrite length_map, Hlen_off in Hnil.
      unfold recs in Hnil. rewrite length_map in Hnil. cbn in Hnil. lia. }
  cbn [bind]. rewrite !sorted_map.
  change (fun a : tagged_event * Q => on_pitch (mk_on self a)) with it_pitch.
  change (fun a : tagged_event * Q => off_pitch (mk_off a)) with it_pitch.
  fold A B. rewrite assign_end_combine by congruence.
  rewrite sort_values_nonempty.
  2:{ intros Hnil. apply (f_equal (@length _)) in Hnil.
      rewrite length_map, length_combine in Hnil. cbn in Hnil. lia. }
  set (pre := map (mk_note self) (combine A B)).
  assert (HF : Forall2 (reproduces_exactly self)
                 (map (fun a => fst (it_rec a)) A) pre).
  { apply (Forall2_paired it_rec (reproduces_exactly self) (mk_note self)
             (fun a => snd (fst a) = EV_NOTE_ON /\ In (it_rec a) recs
                       /\ (snd a == te_time (fst a))%Q)
             (fun b => snd (fst b) = EV_NOTE_OFF
                       /\ (snd b == te_time (fst b))%Q)).
    - exact Hagree.
    - apply Forall_forall. intros a Ha.
      apply (Permutation_in _ (sorted_permutation _ _ _)) in Ha.
      apply filter_In in Ha. destruct Ha as (Ha & Hk).
      split; [|split].
      + unfold it_on, is_on in Hk. destruct (snd (fst a)); [discriminate | reflexivity].
      + apply (Permutation_in _ Hperm_on). apply in_map. apply filter_In.
        split; assumption.
      + rewrite Forall_forall in Hacc. apply Hacc. exact Ha.
    - apply Forall_forall. intros b Hb.
      apply (Permutation_in _ (sorted_permutation _ _ _)) in Hb.
      apply filter_In in Hb. destruct Hb as (Hb & Hk).
      split.
      + unfold it_off, is_off in Hk. destruct (snd (fst b)); [reflexivity | discriminate].
      + rewrite Forall_forall in Hacc. apply Hacc. exact Hb.
    - intros a b. apply reproduces_pair_exact. }
  assert (HP : Permutation (map (fun a => fst (it_rec a)) A) notes).
  { rewrite <- (map_map it_rec fst). unfold A.
    rewrite (Permutation_map it_rec (sorted_permutation Z.leb it_pitch (filter it_on its))).
    rewrite Hperm_on. unfold recs. rewrite map_map. cbn [fst]. rewrite map_id.
    reflexivity. }
  destruct (Permutation_Forall2 HP HF) as (matched & Hpm & Hfm).
  exists (sorted Qle_bool n_start pre), matched.
  split; [reflexivity|]. split; [|split].
  - rewrite (sorted_permutation Qle_bool n_start pre). exact Hpm.
  - exact Hfm.
  - apply (sorted_sorted n_start).
Qed.

End ExactTimes.


